(** * mls::List — a sentinel-terminated doubly-linked list (src/List.hpp)

    Shallow embedding of the container over an explicit memory: node
    addresses, the [next_]/[prev_] links and the per-container [sz_]
    counter are all first-class, so that the pointer surgery of the
    source (move, merge, swap, sort, reverse) is modelled as written. *)

From Stdlib Require Import ZArith List Lia Permutation Sorted.
From stdpp Require Import base gmap list.

Open Scope Z_scope.

Set Warnings "-clear-no-such-hyp".

(** ** Addresses *)

Abbreviation loc := N.
Definition nullptr : loc := 0%N.

(** ** Element types

    The element type [T] of the template.  [from_zero] is the value the
    sentinel is built with ([fake_node_(0)]); [lt], [le], [gt], [ge] are
    the four comparison operators [sort] selects between;
    [copy_throws el] tells whether constructing [data_(el)] throws. *)

Class Element (T : Type) := {
  from_zero : T;
  lt : T -> T -> bool;
  le : T -> T -> bool;
  gt : T -> T -> bool;
  ge : T -> T -> bool;
  copy_throws : T -> bool
}.

(** The comparison operators describe one total preorder (equal keys may
    still be distinguishable values). *)
Class WeakOrder (T : Type) `{Element T} := {
  le_total : forall a b : T, le a b = true \/ le b a = true;
  le_trans : forall a b c : T, le a b = true -> le b c = true -> le a c = true;
  lt_le : forall a b : T, lt a b = negb (le b a);
  gt_lt : forall a b : T, gt a b = lt b a;
  ge_le : forall a b : T, ge a b = le b a
}.

(** A total order is a weak order whose equivalent elements are equal. *)
Class TotalOrder (T : Type) `{WeakOrder T} := {
  le_antisym : forall a b : T, le a b = true -> le b a = true -> a = b
}.

#[export] Instance Z_Element : Element Z := {|
  from_zero := 0;
  lt := Z.ltb; le := Z.leb; gt := Z.gtb; ge := Z.geb;
  copy_throws := fun _ => false
|}.

(** ** Memory *)

(** [struct List_Node] *)
Record List_Node (T : Type) := mkNode {
  data_ : T;
  next_ : loc;
  prev_ : loc
}.
Arguments mkNode {T} _ _ _.
Arguments data_ {T} _.
Arguments next_ {T} _.
Arguments prev_ {T} _.

(** Storage handed out by [allocate] is [Raw] until [construct] builds a
    node in it. *)
Inductive cell (T : Type) :=
| Raw : cell T
| Obj : List_Node T -> cell T.
Arguments Raw {T}.
Arguments Obj {T} _.

(** The memory: node storage (the sentinel [fake_node_] of a container
    lives at the container's own address), the [sz_] field of every
    container, and the node allocator's remaining budget ([None]: it never
    fails; [Some n]: [allocate] throws once [n] allocations were served). *)
Record Mem (T : Type) := mkMem {
  heap : gmap loc (cell T);
  szs : gmap loc Z;
  alloc_left : option nat
}.
Arguments mkMem {T} _ _ _.
Arguments heap {T} _.
Arguments szs {T} _.
Arguments alloc_left {T} _.

Definition empty_mem {T} (budget : option nat) : Mem T := mkMem ∅ ∅ budget.

(** [size_t] arithmetic *)
Definition size_max : Z := 2 ^ 64.
Definition wrap (z : Z) : Z := z mod size_max.

(** ** Outcomes and the command monad *)

Inductive Res (S A : Type) :=
| Ok : A -> S -> Res S A          (* normal return *)
| Throw : S -> Res S A            (* a C++ exception propagates *)
| UB : Res S A                    (* invalid access: undefined behaviour *)
| Timeout : Res S A.              (* loop fuel exhausted *)
Arguments Ok {S A} _ _.
Arguments Throw {S A} _.
Arguments UB {S A}.
Arguments Timeout {S A}.

Definition M (T A : Type) := Mem T -> Res (Mem T) A.

Definition ret {T A} (a : A) : M T A := fun m => Ok a m.
Definition bind {T A B} (c : M T A) (k : A -> M T B) : M T B :=
  fun m => match c m with
           | Ok a m' => k a m'
           | Throw m' => Throw m'
           | UB => UB
           | Timeout => Timeout
           end.
Definition throw {T A} : M T A := fun m => Throw m.
Definition timeout {T A} : M T A := fun _ => Timeout.
(** [try { body } catch (...) { handler }] *)
Definition try_catch {T A} (body handler : M T A) : M T A :=
  fun m => match body m with
           | Throw m' => handler m'
           | r => r
           end.

Notation "x <- c1 ;; c2" := (bind c1 (fun x => c2))
  (at level 100, c1 at next level, right associativity).
Notation "c1 ;; c2" := (bind c1 (fun _ => c2))
  (at level 100, right associativity).

Section Ops.
Context {T : Type} `{Element T}.

(** *** Field views and field updates *)

Definition node_at (m : Mem T) (p : loc) : option (List_Node T) :=
  match heap m !! p with
  | Some (Obj n) => Some n
  | _ => None
  end.

Definition nextf (m : Mem T) (p : loc) : option loc := next_ <$> node_at m p.
Definition prevf (m : Mem T) (p : loc) : option loc := prev_ <$> node_at m p.
Definition dataf (m : Mem T) (p : loc) : option T := data_ <$> node_at m p.

Definition upd_node (f : List_Node T -> List_Node T) (p : loc) (m : Mem T) : Mem T :=
  mkMem (alter (fun c => match c with Obj n => Obj (f n) | Raw => Raw end) p (heap m))
        (szs m) (alloc_left m).

Definition upd_next (p v : loc) : Mem T -> Mem T :=
  upd_node (fun n => mkNode (data_ n) v (prev_ n)) p.
Definition upd_prev (p v : loc) : Mem T -> Mem T :=
  upd_node (fun n => mkNode (data_ n) (next_ n) v) p.
Definition upd_sz (l : loc) (z : Z) (m : Mem T) : Mem T :=
  mkMem (heap m) (<[l := z]> (szs m)) (alloc_left m).

(** *** Memory accesses; touching anything but a constructed node is UB *)

Definition get_next (p : loc) : M T loc :=
  fun m => match nextf m p with Some v => Ok v m | None => UB end.
Definition get_prev (p : loc) : M T loc :=
  fun m => match prevf m p with Some v => Ok v m | None => UB end.
Definition get_data (p : loc) : M T T :=
  fun m => match dataf m p with Some v => Ok v m | None => UB end.
Definition set_next (p v : loc) : M T unit :=
  fun m => match node_at m p with Some _ => Ok tt (upd_next p v m) | None => UB end.
Definition set_prev (p v : loc) : M T unit :=
  fun m => match node_at m p with Some _ => Ok tt (upd_prev p v m) | None => UB end.
Definition get_sz (l : loc) : M T Z :=
  fun m => match szs m !! l with Some z => Ok z m | None => UB end.
Definition set_sz (l : loc) (z : Z) : M T unit :=
  fun m => match szs m !! l with Some _ => Ok tt (upd_sz l z m) | None => UB end.

(** *** The allocator ([node_alloc_]) *)

(** [node_alloc_.allocate(1)]: fresh non-null storage, or an exception
    when the budget is used up. *)
Definition allocate : M T loc :=
  fun m =>
    let p := fresh ({[nullptr]} ∪ dom (heap m)) in
    match alloc_left m with
    | Some O => Throw m
    | Some (S n) => Ok p (mkMem (<[p := Raw]> (heap m)) (szs m) (Some n))
    | None => Ok p (mkMem (<[p := Raw]> (heap m)) (szs m) None)
    end.

(** [node_alloc_.construct(p, el)] runs [List_Node(U&& el)], which
    copies [el] into [data_] and nulls both links. *)
Definition construct (p : loc) (el : T) : M T unit :=
  fun m =>
    match heap m !! p with
    | Some Raw =>
        if copy_throws el then Throw m
        else Ok tt (mkMem (<[p := Obj (mkNode el nullptr nullptr)]> (heap m))
                          (szs m) (alloc_left m))
    | _ => UB
    end.

(** [obj_construct], lines 375-382 *)
Definition obj_construct (el : T) : M T loc :=
  new_node <- allocate ;;
  construct new_node el ;;
  ret new_node.

(** [obj_destruct], lines 393-398: [destroy] then [deallocate], a member
    function of the container at [this].  On the null pointer both are
    taken to have no effect (as [operator delete] has none, and the
    destructor of a node nothing to run).  The container's own
    [fake_node_] is a member of the [List] object, not storage that
    [node_alloc_] gave out: handing [&fake_node_] to [deallocate] is
    undefined. *)
Definition free_cell (p : loc) (m : Mem T) : Mem T :=
  mkMem (delete p (heap m)) (szs m) (alloc_left m).

Definition obj_destruct (this del_node : loc) : M T unit :=
  fun m =>
    if decide (del_node = nullptr) then Ok tt m
    else if decide (del_node = this) then UB
    else match node_at m del_node with
         | Some _ => Ok tt (free_cell del_node m)
         | None => UB
         end.

(** *** Iteration entry points *)

(** [begin()] is [fake_node_.next_]; [end()] is [&fake_node_]. *)
Definition begin (this : loc) : M T loc := get_next this.
Definition end_ (this : loc) : loc := this.

(** *** Primitive splice, lines 384-391 *)
Definition insert_node (old_node new_node : loc) : M T unit :=
  set_next new_node old_node ;;
  p <- get_prev old_node ;; set_prev new_node p ;;
  p <- get_prev old_node ;; set_next p new_node ;;
  set_prev old_node new_node.

(** *** Constructor [List()], lines 149-153: the container object is
    placed at address [this]. *)
Definition List_ctor (this : loc) : M T unit :=
  fun m => Ok tt (mkMem (<[this := Obj (mkNode from_zero this this)]> (heap m))
                        (<[this := 0]> (szs m)) (alloc_left m)).

(** *** clear, lines 194-206 *)
Fixpoint clear_loop (fuel : nat) (this del_node : loc) : M T unit :=
  match fuel with
  | O => timeout
  | S fuel =>
      if decide (del_node = this) then ret tt
      else
        n <- get_next this ;; nn <- get_next n ;; set_next this nn ;;
        obj_destruct this del_node ;;
        del_node <- get_next this ;;
        clear_loop fuel this del_node
  end.

Definition clear (fuel : nat) (this : loc) : M T unit :=
  del_node <- get_next this ;;
  clear_loop fuel this del_node ;;
  set_prev this this ;;
  set_sz this 0.

(** [++sz_], [--sz_] *)
Definition incr_sz (this : loc) : M T unit :=
  s <- get_sz this ;; set_sz this (wrap (s + 1)).
Definition decr_sz (this : loc) : M T unit :=
  s <- get_sz this ;; set_sz this (wrap (s - 1)).

(** *** push_front, push_back, insert, lines 208-253.

    The local [new_node] is null until [obj_construct] has returned, so an
    exception raised inside [obj_construct] reaches the handler with
    [new_node == nullptr]; one raised later would reach it with the
    node's address. *)
Definition push_front (this : loc) (el : T) : M T unit :=
  new_node <- try_catch (obj_construct el) (obj_destruct this nullptr ;; throw) ;;
  try_catch (first <- get_next this ;; insert_node first new_node ;; incr_sz this)
            (obj_destruct this new_node ;; throw).

Definition push_back (this : loc) (el : T) : M T unit :=
  new_node <- try_catch (obj_construct el) (obj_destruct this nullptr ;; throw) ;;
  try_catch (insert_node this new_node ;; incr_sz this)
            (obj_destruct this new_node ;; throw).

(** An iterator is a node address ([node_]). *)
Record iterator := mkIt { node_ : loc }.

Definition insert (this : loc) (it : iterator) (el : T) : M T iterator :=
  new_node <- try_catch (obj_construct el) (obj_destruct this nullptr ;; throw) ;;
  try_catch (insert_node (node_ it) new_node ;; incr_sz this)
            (obj_destruct this new_node ;; throw) ;;
  ret (mkIt new_node).

(** *** erase, lines 255-263.  The iterator is taken by reference and
    never assigned; its value after the call is returned. *)
Definition erase (this : loc) (it : iterator) : M T iterator :=
  let del_node := node_ it in
  p <- get_prev (node_ it) ;; n <- get_next del_node ;; set_next p n ;;
  n <- get_next del_node ;; p <- get_prev del_node ;; set_prev n p ;;
  obj_destruct this del_node ;;
  decr_sz this ;;
  ret it.

(** *** pop_front, pop_back, lines 355-373 *)
Definition pop_front (this : loc) : M T unit :=
  del_node <- get_next this ;;
  n <- get_next del_node ;; set_next this n ;;
  n <- get_next del_node ;; set_prev n this ;;
  obj_destruct this del_node ;;
  decr_sz this.

Definition pop_back (this : loc) : M T unit :=
  del_node <- get_prev this ;;
  p <- get_prev del_node ;; set_prev this p ;;
  p <- get_prev del_node ;; set_next p this ;;
  obj_destruct this del_node ;;
  decr_sz this.

(** *** Copy assignment, lines 167-176 *)
Fixpoint copy_loop (fuel : nat) (this copy_list it : loc) : M T unit :=
  match fuel with
  | O => timeout
  | S fuel =>
      if decide (it = end_ copy_list) then ret tt
      else
        d <- get_data it ;; push_back this d ;;
        it <- get_next it ;;
        copy_loop fuel this copy_list it
  end.

Definition copy_assign (fuel : nat) (this copy_list : loc) : M T unit :=
  clear fuel this ;;
  it <- begin copy_list ;;
  copy_loop fuel this copy_list it.

(** *** Move assignment, lines 178-192 *)
Definition move_assign (fuel : nat) (this move_list : loc) : M T unit :=
  clear fuel this ;;
  n <- get_next move_list ;; set_next this n ;;
  p <- get_prev move_list ;; set_prev this p ;;
  n <- get_next this ;; set_prev n this ;;
  p <- get_prev this ;; set_next p this ;;
  set_next move_list move_list ;;
  set_prev move_list move_list ;;
  s <- get_sz move_list ;; set_sz this s ;;
  set_sz move_list 0.

(** *** Copy and move construction, lines 155-165 *)
Definition copy_ctor (fuel : nat) (this copy_list : loc) : M T unit :=
  List_ctor this ;; copy_assign fuel this copy_list.
Definition move_ctor (fuel : nat) (this move_list : loc) : M T unit :=
  List_ctor this ;; move_assign fuel this move_list.

(** *** Copy-merge, lines 265-281.  The local [new_node] is declared
    before the loop and so keeps the previous iteration's node. *)
Fixpoint merge_loop (fuel : nat) (this other it new_node : loc) : M T unit :=
  match fuel with
  | O => timeout
  | S fuel =>
      if decide (it = end_ other) then ret tt
      else
        d <- get_data it ;;
        new_node <- try_catch (obj_construct d) (obj_destruct this new_node ;; throw) ;;
        try_catch (insert_node (end_ this) new_node)
                  (obj_destruct this new_node ;; throw) ;;
        it <- get_next it ;;
        merge_loop fuel this other it new_node
  end.

Definition merge (fuel : nat) (this other : loc) : M T unit :=
  if decide (this = other) then ret tt
  else
    it <- begin other ;;
    merge_loop fuel this other it nullptr.

(** *** Move-merge, lines 283-298 *)
Definition merge_move (this other : loc) : M T unit :=
  if decide (this = other) then ret tt
  else
    p <- get_prev this ;; n <- get_next other ;; set_next p n ;;
    n <- get_next other ;; p <- get_prev this ;; set_prev n p ;;
    p <- get_prev other ;; set_prev this p ;;
    p <- get_prev this ;; set_next p this ;;
    set_next other other ;;
    set_prev other other ;;
    s <- get_sz this ;; o <- get_sz other ;; set_sz this (wrap (s + o)) ;;
    set_sz other 0.

(** *** swap, lines 300-307 *)
Definition swap (this other : loc) : M T unit :=
  if decide (this = other) then ret tt
  else
    a <- get_next this ;; b <- get_next other ;;
    set_next this b ;; set_next other a ;;
    a <- get_prev this ;; b <- get_prev other ;;
    set_prev this b ;; set_prev other a ;;
    a <- get_sz this ;; b <- get_sz other ;;
    set_sz this b ;; set_sz other a.

(** *** sort, lines 309-343 *)

(** The inner loop over [it_j].  Returns [Some it_s] when the node of
    [it_i] was relocated ([flag = false], [it_i = it_s]) and [None] when the
    scan reached [end()] ([flag] still true). *)
Fixpoint sort_inner (fuel : nat) (lamb lamb_t : T -> T -> bool)
    (this it_i it_j : loc) : M T (option loc) :=
  match fuel with
  | O => timeout
  | S fuel =>
      if decide (it_j = end_ this) then ret None
      else
        it_next <- get_prev it_j ;;
        di <- get_data it_i ;; dj <- get_data it_j ;;
        c <- (if lamb di dj then
               if decide (it_next = end_ this) then ret true
               else dn <- get_data it_next ;; di <- get_data it_i ;;
                    ret (lamb_t dn di)
             else ret false) ;;
        if (c : bool) then
          it_s <- get_next it_i ;;
          n <- get_next it_i ;; p <- get_prev it_i ;; set_prev n p ;;
          p <- get_prev it_i ;; n <- get_next it_i ;; set_next p n ;;
          insert_node it_j it_i ;;
          ret (Some it_s)
        else
          it_j <- get_prev it_j ;;
          sort_inner fuel lamb lamb_t this it_i it_j
  end.

Fixpoint sort_outer (fuel ifuel : nat) (lamb lamb_t : T -> T -> bool)
    (this it_i : loc) : M T unit :=
  match fuel with
  | O => timeout
  | S fuel =>
      if decide (it_i = end_ this) then ret tt
      else
        it_j <- get_prev it_i ;;
        r <- sort_inner ifuel lamb lamb_t this it_i it_j ;;
        it_i <- match r with
               | Some it_s => ret it_s
               | None => get_next it_i
               end ;;
        sort_outer fuel ifuel lamb lamb_t this it_i
  end.

Definition sort (fuel : nat) (this : loc) (ascending : bool) : M T unit :=
  s <- get_sz this ;;
  if s <? 2 then ret tt
  else
    let lamb := if ascending then lt else gt in
    let lamb_t := if ascending then le else ge in
    b <- begin this ;;
    it_i <- get_next b ;;
    sort_outer fuel fuel lamb lamb_t this it_i.

(** *** reverse, lines 345-353 *)
Definition swap_links (p : loc) : M T unit :=
  a <- get_next p ;; b <- get_prev p ;;
  set_next p b ;; set_prev p a.

Fixpoint reverse_loop (fuel : nat) (this it : loc) : M T unit :=
  match fuel with
  | O => timeout
  | S fuel =>
      if decide (it = end_ this) then ret tt
      else
        swap_links it ;;
        it <- get_prev it ;;
        reverse_loop fuel this it
  end.

Definition reverse (fuel : nat) (this : loc) : M T unit :=
  it <- begin this ;;
  reverse_loop fuel this it ;;
  swap_links (end_ this).

(** *** Observations *)

Definition size (this : loc) (m : Mem T) : option Z := szs m !! this.

(** Forward iteration [for (it = begin(); it != end(); ++it)], collecting
    the visited node addresses; [None] when it does not come back to
    [end()] within the fuel or leaves the constructed nodes. *)
Fixpoint walk (fuel : nat) (m : Mem T) (this it : loc) : option (list loc) :=
  match fuel with
  | O => None
  | S fuel =>
      if decide (it = end_ this) then Some []
      else match nextf m it with
           | Some n => cons it <$> walk fuel m this n
           | None => None
           end
  end.

(** Backward iteration from [fake_node_.prev_] along [prev_]. *)
Fixpoint walk_back (fuel : nat) (m : Mem T) (this it : loc) : option (list loc) :=
  match fuel with
  | O => None
  | S fuel =>
      if decide (it = end_ this) then Some []
      else match prevf m it with
           | Some n => cons it <$> walk_back fuel m this n
           | None => None
           end
  end.

Definition nodes_of (fuel : nat) (m : Mem T) (this : loc) : option (list loc) :=
  match nextf m this with
  | Some b => walk fuel m this b
  | None => None
  end.

Definition nodes_back_of (fuel : nat) (m : Mem T) (this : loc) : option (list loc) :=
  match prevf m this with
  | Some b => walk_back fuel m this b
  | None => None
  end.

Definition values (m : Mem T) (ps : list loc) : option (list T) :=
  mapM (dataf m) ps.

(** The element sequence seen by forward iteration. *)
Definition to_list (fuel : nat) (m : Mem T) (this : loc) : option (list T) :=
  match nodes_of fuel m this with
  | Some ps => values m ps
  | None => None
  end.

End Ops.

(** *** Accessors, iterator steps and the destructor *)

Section Accessors.
Context {T : Type} `{Element T}.

(** [empty()], line 93: [!sz_]. *)
Definition empty (this : loc) : M T bool :=
  s <- get_sz this ;; ret (s =? 0).

(** [front()], line 96: [*begin()]; the value read through the
    reference returned. *)
Definition front (this : loc) : M T T :=
  b <- begin this ;; get_data b.

(** [back()], line 99: [*(--end())]. *)
Definition back (this : loc) : M T T :=
  p <- get_prev (end_ this) ;; get_data p.

(** Prefix [operator++] and [operator--] of the iterator, lines 43-46 and
    53-56, [operator*], line 40, and [operator==], line 63. *)
Definition it_incr (it : iterator) : M T iterator :=
  n <- get_next (node_ it) ;; ret (mkIt n).
Definition it_decr (it : iterator) : M T iterator :=
  p <- get_prev (node_ it) ;; ret (mkIt p).
Definition it_deref (it : iterator) : M T T := get_data (node_ it).
Definition it_eq (a b : iterator) : bool := bool_decide (node_ a = node_ b).

(** [~List()], lines 400-404. *)
Definition List_dtor (fuel : nat) (this : loc) : M T unit := clear fuel this.

End Accessors.

(** ** Well-formed containers

    [linked m a b]: [a]'s [next_] is [b] and [b]'s [prev_] is [a].
    [chain m xs]: consecutive addresses of [xs] are linked.
    [ring m this ps]: following [next_] from the sentinel visits exactly
    the real nodes [ps] and returns to the sentinel, and the [prev_] chain
    visits the same nodes in reverse order.
    [is_list m this ps] adds that no real node sits at the null address
    and that [sz_] is the number of real nodes. *)

Section Shape.
Context {T : Type} `{Element T}.

Definition linked (m : Mem T) (a b : loc) : Prop :=
  nextf m a = Some b /\ prevf m b = Some a.

Fixpoint chain (m : Mem T) (xs : list loc) : Prop :=
  match xs with
  | a :: (b :: _) as t => linked m a b /\ chain m t
  | _ => True
  end.

Definition ring (m : Mem T) (this : loc) (ps : list loc) : Prop :=
  NoDup (this :: ps) /\ chain m (this :: ps ++ [this]).

Definition is_list (m : Mem T) (this : loc) (ps : list loc) : Prop :=
  ring m this ps /\
  (nullptr ∉ ps) /\
  szs m !! this = Some (Z.of_nat (length ps)) /\
  Z.of_nat (length ps) < size_max.

(** The payload of a node known to be constructed. *)
Definition key (m : Mem T) (p : loc) : T :=
  default from_zero (dataf m p).

(** [nchain m xs]: following [next_] alone visits [xs] in order. *)
Fixpoint nchain (m : Mem T) (xs : list loc) : Prop :=
  match xs with
  | a :: (b :: _) as t => nextf m a = Some b /\ nchain m t
  | _ => True
  end.

(** [links_only m m']: [m'] has the same nodes with the same payloads,
    the same [sz_] fields and the same allocator state as [m]. *)
Definition links_only (m m' : Mem T) : Prop :=
  (forall q, dataf m' q = dataf m q) /\
  dom (heap m') = dom (heap m) /\
  szs m' = szs m /\ alloc_left m' = alloc_left m.

(** [flipped S m0 m]: exactly the nodes of [S] have their two links
    exchanged with respect to [m0]. *)
Definition flipped (S : list loc) (m0 m : Mem T) : Prop :=
  forall q,
    nextf m q = (if decide (q ∈ S) then prevf m0 q else nextf m0 q) /\
    prevf m q = (if decide (q ∈ S) then nextf m0 q else prevf m0 q).

(** [never_throws c]: no exception leaves [c]. *)
Definition never_throws {A} (c : M T A) : Prop := forall m m', c m <> Throw m'.

(** An executable check of [is_list]. *)
Definition linkedb (m : Mem T) (a b : loc) : bool :=
  bool_decide (nextf m a = Some b) && bool_decide (prevf m b = Some a).

Fixpoint chainb (m : Mem T) (xs : list loc) : bool :=
  match xs with
  | a :: (b :: _) as t => linkedb m a b && chainb m t
  | _ => true
  end.

Definition is_listb (m : Mem T) (this : loc) (ps : list loc) : bool :=
  bool_decide (NoDup (this :: ps)) && chainb m (this :: ps ++ [this]) &&
  bool_decide (nullptr ∉ ps) &&
  bool_decide (szs m !! this = Some (Z.of_nat (length ps))) &&
  (Z.of_nat (length ps) <? size_max).

(** The order [sort(ascending)] aims at. *)
Definition ord (ascending : bool) (a b : T) : Prop :=
  (if ascending then le a b else ge a b) = true.

(** The payloads [a] and [b] compare equal under the selected predicate. *)
Definition equal_keys (ascending : bool) (a b : T) : bool :=
  if ascending then le a b && le b a else ge a b && ge b a.

(** C10 as stated asks erase to hand back (by return value or through the
    iterator passed in) a position that is not the erased node. *)
Definition erase_gives_new_position
    (m : Mem T) (this : loc) (it : iterator) : Prop :=
  exists it' m', erase this it m = Ok it' m' /\ node_ it' <> node_ it.

End Shape.

(** ** The order of nodes the loops of sort produce

    A list-level account of the two loops of [sort], used to state what
    the pointer code does to the order of the nodes.  [scan x rP B] is the
    inner loop: [rP] is the not yet visited part of the prefix, nearest
    node first ([it_j] is its head), [B] the part already passed.
    [place] is one round of the outer loop, [passes] the whole loop. *)

Section SortOrder.
Context {T : Type}.
Variables (lamb lamb_t : T -> T -> bool) (k : loc -> T).

Fixpoint scan (x : loc) (rP B : list loc) : option (list loc) :=
  match rP with
  | [] => None
  | j :: rP' =>
      if lamb (k x) (k j) &&
         match rP' with [] => true | n :: _ => lamb_t (k n) (k x) end
      then Some (rev rP' ++ x :: j :: B)
      else scan x rP' (j :: B)
  end.

Definition place (x : loc) (P : list loc) : list loc :=
  match scan x (rev P) [] with
  | Some P' => P'
  | None => P ++ [x]
  end.

Fixpoint passes (P rest : list loc) : list loc :=
  match rest with
  | [] => P
  | x :: rest' => passes (place x P) rest'
  end.

Definition sorted_order (ps : list loc) : list loc :=
  match ps with
  | [] => []
  | a :: rest => passes [a] rest
  end.

(** [ordered a b]: node [a] may stand before node [b]. *)
Definition ordered (a b : loc) : Prop := lamb_t (k a) (k b) = true.
(** [tied v p]: the payload of [p] compares equal to [v]. *)
Definition tied (v : T) (p : loc) : bool := lamb_t v (k p) && lamb_t (k p) v.

End SortOrder.

(** ** Concrete containers *)

(** [after c m]: the memory once [c] has run from [m]. *)
Definition after {T A} (c : M T A) (m : Mem T) : Mem T :=
  match c m with Ok _ m' => m' | Throw m' => m' | _ => m end.

(** The program that places a container at address [this] with [List()]
    and fills it with [push_back]. *)
Definition build_with (E : Element Z) (this : loc) (xs : list Z) : M Z unit :=
  @List_ctor Z E this ;;
  fold_right (fun x k => @push_back Z E this x ;; k) (ret tt) xs.
Definition build : loc -> list Z -> M Z unit := build_with Z_Element.

Definition mem_312 : Mem Z := after (build 100%N [3; 1; 2]) (empty_mem None).
Definition mem_123 : Mem Z := after (build 100%N [1; 2; 3]) (empty_mem None).
Definition mem_2121 : Mem Z := after (build 100%N [2; 1; 2; 1]) (empty_mem None).

(** One container at address 100 (as are [mem_312], [mem_123] and
    [mem_2121]) and a second one at address 200. *)
Definition two_lists (xs ys : list Z) : Mem Z :=
  after (build 100%N xs ;; build 200%N ys) (empty_mem None).

(** An empty container at address 100. *)
Definition mem_empty : Mem Z := after (build 100%N []) (empty_mem None).

(** [1,2] at address 100 and [3,4] at address 200. *)
Definition mem_12_34 : Mem Z := two_lists [1; 2] [3; 4].

(** [1,2,3] at address 100, built from an allocator that had exactly three
    cells to give. *)
Definition mem_123_exhausted : Mem Z :=
  after (build 100%N [1; 2; 3]) (empty_mem (Some 3%nat)).

(** [1,2] at address 100 and [3,-4,5] at address 200. *)
Definition mem_12_3m45 : Mem Z := two_lists [1; 2] [3; -4; 5].

(** An element type whose copy constructor throws on negative values. *)
Definition Fragile_Element : Element Z := {|
  from_zero := 0;
  lt := Z.ltb; le := Z.leb; gt := Z.gtb; ge := Z.geb;
  copy_throws := fun z => z <? 0
|}.


(** ** Stepping through commands *)

Section Steps.
Context {T : Type} `{Element T}.
Implicit Types (m : Mem T) (p q v : loc).

Lemma bind_Ok {A B} (c : M T A) (k : A -> M T B) m a m' :
  c m = Ok a m' -> bind c k m = k a m'.
Proof. unfold bind. by intros ->. Qed.

Lemma is_node_nextf m p : is_Some (node_at m p) -> is_Some (nextf m p).
Proof. unfold nextf. by intros [n ->]. Qed.
Lemma is_node_prevf m p : is_Some (node_at m p) -> is_Some (prevf m p).
Proof. unfold prevf. by intros [n ->]. Qed.
Lemma is_node_dataf m p : is_Some (node_at m p) -> is_Some (dataf m p).
Proof. unfold dataf. by intros [n ->]. Qed.

Lemma node_at_upd_node f p m q :
  node_at (upd_node f p m) q =
  if decide (q = p) then f <$> node_at m p else node_at m q.
Proof.
  unfold node_at, upd_node; simpl.
  case_decide as E.
  - subst q. rewrite lookup_alter_eq. by destruct (heap m !! p) as [[|n]|].
  - by rewrite lookup_alter_ne.
Qed.

Lemma nextf_upd_next m p v q :
  nextf (upd_next p v m) q =
  if decide (q = p) then (fun _ => v) <$> nextf m p else nextf m q.
Proof.
  unfold nextf, upd_next. rewrite node_at_upd_node.
  case_decide; [|done]. by destruct (node_at m p).
Qed.

Lemma prevf_upd_next m p v q : prevf (upd_next p v m) q = prevf m q.
Proof.
  unfold prevf, upd_next. rewrite node_at_upd_node.
  case_decide; [|done]. subst. by destruct (node_at m p).
Qed.

Lemma dataf_upd_next m p v q : dataf (upd_next p v m) q = dataf m q.
Proof.
  unfold dataf, upd_next. rewrite node_at_upd_node.
  case_decide; [|done]. subst. by destruct (node_at m p).
Qed.

Lemma prevf_upd_prev m p v q :
  prevf (upd_prev p v m) q =
  if decide (q = p) then (fun _ => v) <$> prevf m p else prevf m q.
Proof.
  unfold prevf, upd_prev. rewrite node_at_upd_node.
  case_decide; [|done]. by destruct (node_at m p).
Qed.

Lemma nextf_upd_prev m p v q : nextf (upd_prev p v m) q = nextf m q.
Proof.
  unfold nextf, upd_prev. rewrite node_at_upd_node.
  case_decide; [|done]. subst. by destruct (node_at m p).
Qed.

Lemma dataf_upd_prev m p v q : dataf (upd_prev p v m) q = dataf m q.
Proof.
  unfold dataf, upd_prev. rewrite node_at_upd_node.
  case_decide; [|done]. subst. by destruct (node_at m p).
Qed.

Lemma nextf_upd_next_node m p v q :
  is_Some (node_at m p) ->
  nextf (upd_next p v m) q = if decide (q = p) then Some v else nextf m q.
Proof.
  intros Hn%is_node_nextf. rewrite nextf_upd_next. case_decide; [|done].
  by destruct Hn as [? ->].
Qed.

Lemma prevf_upd_prev_node m p v q :
  is_Some (node_at m p) ->
  prevf (upd_prev p v m) q = if decide (q = p) then Some v else prevf m q.
Proof.
  intros Hn%is_node_prevf. rewrite prevf_upd_prev. case_decide; [|done].
  by destruct Hn as [? ->].
Qed.

Lemma nextf_upd_sz m l z q : nextf (upd_sz l z m) q = nextf m q.
Proof. done. Qed.
Lemma prevf_upd_sz m l z q : prevf (upd_sz l z m) q = prevf m q.
Proof. done. Qed.
Lemma dataf_upd_sz m l z q : dataf (upd_sz l z m) q = dataf m q.
Proof. done. Qed.

Lemma nextf_is_node m p v : nextf m p = Some v -> is_Some (node_at m p).
Proof. unfold nextf. destruct (node_at m p); naive_solver. Qed.
Lemma prevf_is_node m p v : prevf m p = Some v -> is_Some (node_at m p).
Proof. unfold prevf. destruct (node_at m p); naive_solver. Qed.
Lemma get_next_Ok m p v : nextf m p = Some v -> get_next p m = Ok v m.
Proof. unfold get_next. by intros ->. Qed.
Lemma get_prev_Ok m p v : prevf m p = Some v -> get_prev p m = Ok v m.
Proof. unfold get_prev. by intros ->. Qed.
Lemma get_data_Ok m p (d : T) : dataf m p = Some d -> get_data p m = Ok d m.
Proof. unfold get_data. by intros ->. Qed.
Lemma set_next_Ok m p v :
  is_Some (node_at m p) -> set_next p v m = Ok tt (upd_next p v m).
Proof. unfold set_next. by intros [n ->]. Qed.
Lemma set_prev_Ok m p v :
  is_Some (node_at m p) -> set_prev p v m = Ok tt (upd_prev p v m).
Proof. unfold set_prev. by intros [n ->]. Qed.

Lemma is_node_upd_next m p v q :
  is_Some (node_at (upd_next p v m) q) <-> is_Some (node_at m q).
Proof.
  unfold upd_next. rewrite node_at_upd_node. case_decide; [|done].
  subst. destruct (node_at m p); simpl; split; intros [? ?]; naive_solver.
Qed.
Lemma is_node_upd_prev m p v q :
  is_Some (node_at (upd_prev p v m) q) <-> is_Some (node_at m q).
Proof.
  unfold upd_prev. rewrite node_at_upd_node. case_decide; [|done].
  subst. destruct (node_at m p); simpl; split; intros [? ?]; naive_solver.
Qed.

End Steps.

(** ** Chains of links *)

Section Chains.
Context {T : Type} `{Element T}.
Implicit Types (m : Mem T) (p q a b : loc) (xs ys : list loc).

Lemma chain_cons2 m a b xs :
  chain m (a :: b :: xs) <-> linked m a b /\ chain m (b :: xs).
Proof. done. Qed.

Lemma chain_tail m a xs : chain m (a :: xs) -> chain m xs.
Proof. destruct xs; [done|]. by intros [_ ?]. Qed.

Lemma chain_app m xs ys :
  chain m (xs ++ ys) <->
  chain m xs /\ chain m ys /\
  (forall a b, last xs = Some a -> head ys = Some b -> linked m a b).
Proof.
  induction xs as [|a [|a' xs] IH].
  - simpl. naive_solver.
  - simpl. destruct ys as [|b ys]; simpl; [naive_solver|].
    split; [intros [? ?]; split_and!; [done|done|naive_solver]|].
    intros (_ & ? & Hl). split; [|done]. by apply Hl.
  - change (chain m (a :: (a' :: xs) ++ ys) <->
            chain m (a :: a' :: xs) /\ chain m ys /\
            (forall a0 b, last (a' :: xs) = Some a0 -> head ys = Some b -> linked m a0 b)).
    rewrite (chain_cons2 m a a' xs).
    change (a :: (a' :: xs) ++ ys) with (a :: a' :: (xs ++ ys)).
    rewrite (chain_cons2 m a a' (xs ++ ys)).
    change (a' :: xs ++ ys) with ((a' :: xs) ++ ys). rewrite IH. tauto.
Qed.

(** Frame: a chain survives any update that leaves alone the [next_] of
    all but its last address and the [prev_] of all but its first. *)
Lemma chain_frame m m' xs :
  chain m xs ->
  (forall a, a ∈ removelast xs -> nextf m' a = nextf m a) ->
  (forall b, b ∈ tail xs -> prevf m' b = prevf m b) ->
  chain m' xs.
Proof.
  induction xs as [|a [|b xs] IH]; [done|done|].
  intros [[Hn Hp] Hc] Hnext Hprev. split.
  - split.
    + rewrite Hnext; [done|]. simpl. left.
    + rewrite Hprev; [done|]. simpl. left.
  - apply IH; [done| |].
    + intros c Hc'. apply Hnext. simpl. right. exact Hc'.
    + intros c Hc'. apply Hprev. simpl. right. exact Hc'.
Qed.

Lemma elem_of_removelast (x : loc) xs : x ∈ removelast xs -> x ∈ xs.
Proof.
  induction xs as [|a [|b xs] IH]; simpl; [done|by intros ?%elem_of_nil|].
  intros [->|?]%elem_of_cons; [left|right; by apply IH].
Qed.

Lemma elem_of_tail (x : loc) xs : x ∈ tail xs -> x ∈ xs.
Proof. destruct xs; simpl; [done|]. by right. Qed.

Lemma last_elem_of (x : loc) xs : last xs = Some x -> x ∈ xs.
Proof. intros Hl. apply last_Some in Hl as [l' ->]. set_solver. Qed.

Lemma head_elem_of (x : loc) xs : head xs = Some x -> x ∈ xs.
Proof. destruct xs; simpl; [done|]. intros [= ->]. left. Qed.

Lemma NoDup_last_removelast (x : loc) xs :
  NoDup xs -> last xs = Some x -> x ∉ removelast xs.
Proof.
  intros Hnd Hl. apply last_Some in Hl as [l' ->].
  rewrite removelast_last. apply NoDup_app in Hnd as (_ & Hd & _).
  intros Hx. apply (Hd x Hx). left.
Qed.

Lemma NoDup_head_tail (x : loc) xs :
  NoDup xs -> head xs = Some x -> x ∉ tail xs.
Proof.
  destruct xs as [|a xs]; [done|]. simpl. intros Hnd [= ->].
  by apply NoDup_cons in Hnd as [? _].
Qed.

(** Every address on a chain of at least two is a constructed node. *)
Lemma chain_is_node m xs p :
  chain m xs -> (1 < length xs)%nat -> p ∈ xs -> is_Some (node_at m p).
Proof.
  induction xs as [|a [|b xs] IH]; simpl; [lia|lia|].
  intros [[Hn Hp] Hc] _ [->|Hin]%elem_of_cons.
  - by eapply nextf_is_node.
  - destruct xs as [|c xs].
    + apply list_elem_of_singleton in Hin as ->. by eapply prevf_is_node.
    + apply IH; [done|simpl; lia|done].
Qed.

Lemma ring_is_node m this ps p :
  ring m this ps -> p ∈ this :: ps -> is_Some (node_at m p).
Proof.
  intros [_ Hc] Hin. eapply chain_is_node; [exact Hc| |].
  - simpl. rewrite length_app. simpl. lia.
  - set_solver.
Qed.

Lemma NoDup_mid_notin (this : loc) A i B :
  NoDup (this :: A ++ i :: B) -> i ∉ this :: A ++ B.
Proof.
  intros [Hni Hnd]%NoDup_cons.
  apply NoDup_app in Hnd as (_ & Hd & [HiB _]%NoDup_cons).
  intros [->|[HA|HB]%elem_of_app]%elem_of_cons.
  - apply Hni. set_solver.
  - apply (Hd i HA). left.
  - done.
Qed.

Lemma ring_list_split this (A : list loc) i B :
  this :: (A ++ i :: B) ++ [this] = (this :: A) ++ i :: (B ++ [this]).
Proof. simpl. by rewrite <- app_assoc. Qed.

(** The neighbours of a real node on a ring. *)
Lemma ring_neighbours m this A i B :
  ring m this (A ++ i :: B) ->
  exists p n, last (this :: A) = Some p /\ head (B ++ [this]) = Some n /\
              linked m p i /\ linked m i n /\ p <> i /\ n <> i.
Proof.
  intros [Hnd Hc]. rewrite ring_list_split in Hc.
  assert (exists p, last (this :: A) = Some p) as [p Hp].
  { destruct (last (this :: A)) eqn:E; [eauto|]. by apply last_None in E. }
  assert (exists n, head (B ++ [this]) = Some n) as [n Hn].
  { destruct B; simpl; eauto. }
  exists p, n. apply chain_app in Hc as (_ & Hc & Hl).
  split_and!; [done|done|by apply Hl| | |].
  - destruct (B ++ [this]) as [|b l'] eqn:E; [done|].
    simpl in Hn. injection Hn as ->. by destruct Hc.
  - intros ->. apply last_elem_of in Hp. rewrite app_comm_cons in Hnd.
    apply NoDup_app in Hnd as (_ & Hd & _). apply (Hd i Hp). left.
  - intros ->. apply head_elem_of in Hn.
    apply NoDup_cons in Hnd as [Hni Hnd].
    apply NoDup_app in Hnd as (_ & _ & [HiB _]%NoDup_cons).
    apply elem_of_app in Hn as [?| ->%list_elem_of_singleton]; [done|].
    apply Hni. set_solver.
Qed.

(** Forward iteration over a ring visits exactly its real nodes. *)
Lemma walk_chain m this xs fuel a :
  chain m (a :: xs ++ [this]) -> this ∉ xs -> (length xs < fuel)%nat ->
  (exists b, head (xs ++ [this]) = Some b /\ walk fuel m this b = Some xs).
Proof.
  revert a fuel. induction xs as [|b xs IH]; intros a fuel Hc Hni Hf.
  - exists this. split; [done|]. destruct fuel; [simpl in Hf; lia|].
    simpl. by rewrite decide_True.
  - exists b. split; [done|]. destruct fuel; [simpl in Hf; lia|].
    simpl. rewrite decide_False by set_solver.
    simpl in Hc. destruct Hc as [_ Hc].
    destruct (IH b fuel Hc) as (c & Hhd & Hw); [set_solver|simpl in Hf; lia|].
    assert (nextf m b = Some c) as ->.
    { destruct (xs ++ [this]) as [|c' l'] eqn:E; [done|].
      simpl in Hhd. injection Hhd as ->. by destruct Hc as [[? _] _]. }
    by rewrite Hw.
Qed.

Lemma nodes_of_ring m this ps fuel :
  ring m this ps -> (length ps < fuel)%nat -> nodes_of fuel m this = Some ps.
Proof.
  intros [Hnd Hc] Hf. unfold nodes_of.
  apply NoDup_cons in Hnd as [Hni _].
  destruct (walk_chain m this ps fuel this Hc Hni Hf) as (b & Hhd & Hw).
  assert (nextf m this = Some b) as ->; [|done].
  simpl in Hc. destruct (ps ++ [this]) as [|c' l'] eqn:E; [done|].
  simpl in Hhd. injection Hhd as ->. by destruct Hc as [[? _] _].
Qed.

End Chains.

(** ** Unlinking and splicing on rings *)

Section Surgery.
Context {T : Type} `{Element T}.
Implicit Types (m : Mem T) (p q a b : loc) (xs ys : list loc).

(** Pieces of a ring around a cut between [A] and [B]. *)
Lemma ring_cut m this A B :
  ring m this (A ++ B) ->
  exists p n, last (this :: A) = Some p /\ head (B ++ [this]) = Some n /\
    linked m p n /\
    chain m (this :: A) /\ chain m (B ++ [this]) /\
    (p ∉ removelast (this :: A)) /\ (n ∉ tail (B ++ [this])) /\
    (p ∉ B) /\ (n ∉ A) /\ NoDup (this :: A) /\ NoDup (B ++ [this]).
Proof.
  intros [Hnd Hc].
  assert (exists p, last (this :: A) = Some p) as [p Hp].
  { destruct (last (this :: A)) eqn:E; [eauto|]. by apply last_None in E. }
  assert (exists n, head (B ++ [this]) = Some n) as [n Hn].
  { destruct B; simpl; eauto. }
  exists p, n.
  replace (this :: (A ++ B) ++ [this]) with ((this :: A) ++ (B ++ [this])) in Hc
    by (simpl; by rewrite <- app_assoc).
  apply chain_app in Hc as (HcA & HcB & Hl).
  assert (NoDup (this :: A)) as HndA.
  { rewrite app_comm_cons in Hnd. by apply NoDup_app in Hnd as (? & _ & _). }
  assert (NoDup (B ++ [this])) as HndB.
  { apply NoDup_app. apply NoDup_cons in Hnd as [Hni Hnd].
    apply NoDup_app in Hnd as (_ & _ & ?). split_and!; [done| |apply NoDup_singleton].
    intros x Hx ->%list_elem_of_singleton. apply Hni. set_solver. }
  assert (forall x, x ∈ this :: A -> x ∉ B) as Hdisj.
  { rewrite app_comm_cons in Hnd. by apply NoDup_app in Hnd as (_ & ? & _). }
  assert (forall x, x ∈ B ++ [this] -> x ∉ A) as Hdisj'.
  { intros x [Hx| ->%list_elem_of_singleton]%elem_of_app Hx'.
    - apply (Hdisj x); [by right|done].
    - apply NoDup_cons in HndA as [? _]. done. }
  split_and!; try done.
  - by apply Hl.
  - by apply NoDup_last_removelast.
  - by apply NoDup_head_tail.
  - apply Hdisj. by apply last_elem_of.
  - apply Hdisj'. by apply head_elem_of.
Qed.

(** Removing node [i] from the ring: only [p.next_] and [n.prev_] change. *)
Lemma ring_unlink m m1 this A i B p n :
  ring m this (A ++ i :: B) ->
  prevf m i = Some p -> nextf m i = Some n ->
  (forall q, nextf m1 q = if decide (q = p) then Some n else nextf m q) ->
  (forall q, prevf m1 q = if decide (q = n) then Some p else prevf m q) ->
  ring m1 this (A ++ B).
Proof.
  intros Hr Hp Hn Hnx Hpv.
  destruct (ring_neighbours _ _ _ _ _ Hr)
    as (p' & n' & Hlp & Hhn & [_ Hp'] & [Hn' _] & _ & _).
  assert (p' = p) as -> by congruence. assert (n' = n) as -> by congruence.
  destruct Hr as [Hnd Hc].
  assert (NoDup (this :: A ++ B)) as Hnd'.
  { apply NoDup_cons in Hnd as [Hni Hnd]. apply NoDup_cons. split; [set_solver|].
    apply NoDup_app in Hnd as (? & Hd & [_ ?]%NoDup_cons).
    apply NoDup_app. split_and!; [done| |done]. intros x Hx Hx'. apply (Hd x Hx). by right. }
  split; [done|].
  rewrite ring_list_split in Hc. apply chain_app in Hc as (HcA & HcB & _).
  apply chain_tail in HcB.
  assert (NoDup (this :: A)) as HndA.
  { rewrite app_comm_cons in Hnd'. by apply NoDup_app in Hnd' as (? & _ & _). }
  assert (NoDup (B ++ [this])) as HndB.
  { apply NoDup_app. apply NoDup_cons in Hnd' as [Hni Hnd'].
    apply NoDup_app in Hnd' as (_ & _ & ?). split_and!; [done| |apply NoDup_singleton].
    intros x Hx ->%list_elem_of_singleton. apply Hni. set_solver. }
  assert (forall x, x ∈ this :: A -> x ∉ B) as Hdisj.
  { rewrite app_comm_cons in Hnd'. by apply NoDup_app in Hnd' as (_ & ? & _). }
  replace (this :: (A ++ B) ++ [this]) with ((this :: A) ++ (B ++ [this]))
    by (simpl; by rewrite <- app_assoc).
  apply chain_app. split_and!.
  - eapply chain_frame; [exact HcA| |].
    + intros a Ha. rewrite Hnx. rewrite decide_False; [done|].
      intros ->. by apply (NoDup_last_removelast p (this :: A)).
    + intros b Hb. rewrite Hpv. rewrite decide_False; [done|].
      intros ->. simpl in Hb. apply head_elem_of in Hhn.
      apply elem_of_app in Hhn as [Hhn| ->%list_elem_of_singleton].
      * apply (Hdisj n); [by right|done].
      * by apply NoDup_cons in HndA as [? _].
  - eapply chain_frame; [exact HcB| |].
    + intros a Ha. rewrite Hnx. rewrite decide_False; [done|].
      intros ->. rewrite removelast_last in Ha. apply last_elem_of in Hlp.
      by apply (Hdisj p).
    + intros b Hb. rewrite Hpv. rewrite decide_False; [done|].
      intros ->. by apply (NoDup_head_tail n (B ++ [this])).
  - intros a b Ha Hb. assert (a = p) as -> by congruence.
    assert (b = n) as -> by congruence.
    split; [rewrite Hnx|rewrite Hpv]; by rewrite decide_True.
Qed.

(** Splicing node [i] in front of [at_] (the head of [B], or the sentinel):
    only [p.next_], [at_.prev_] and the links of [i] change. *)
Lemma ring_insert m m2 this A B i p at_ :
  ring m this (A ++ B) ->
  head (B ++ [this]) = Some at_ -> prevf m at_ = Some p ->
  i ∉ this :: A ++ B ->
  (forall q, nextf m2 q = if decide (q = p) then Some i
                          else if decide (q = i) then Some at_ else nextf m q) ->
  (forall q, prevf m2 q = if decide (q = at_) then Some i
                          else if decide (q = i) then Some p else prevf m q) ->
  ring m2 this (A ++ i :: B).
Proof.
  intros Hr Hat Hp Hi Hnx Hpv.
  destruct (ring_cut _ _ _ _ Hr)
    as (p' & n & Hlp & Hhn & [_ Hp'] & HcA & HcB & HpA & HnB & HpB & HnA & HndA & HndB).
  assert (n = at_) as -> by congruence. assert (p' = p) as -> by congruence.
  assert (i ≠ p) as Hip.
  { intros ->. apply Hi. apply last_elem_of in Hlp. set_solver. }
  assert (i ≠ at_) as Hia.
  { intros ->. apply Hi. apply head_elem_of in Hhn. set_solver. }
  destruct Hr as [Hnd Hc]. split.
  - apply NoDup_cons in Hnd as [Hni Hnd]. apply NoDup_cons. split; [set_solver|].
    apply NoDup_app in Hnd as (? & Hd & ?). apply NoDup_app. split_and!; [done| |].
    + intros x Hx [->|Hx']%elem_of_cons; [set_solver|by apply (Hd x)].
    + apply NoDup_cons. split; [set_solver|done].
  - rewrite ring_list_split. apply chain_app. split_and!.
    + eapply chain_frame; [exact HcA| |].
      * intros a Ha. rewrite Hnx. rewrite decide_False by (by intros ->).
        rewrite decide_False; [done|]. intros ->. apply Hi.
        apply elem_of_removelast in Ha. set_solver.
      * intros b Hb. simpl in Hb. rewrite Hpv.
        rewrite decide_False by (by intros ->).
        rewrite decide_False; [done|]. intros ->. apply Hi. set_solver.
    + assert (chain m2 (B ++ [this])) as HcB'.
      { eapply chain_frame; [exact HcB| |].
        - intros a Ha. rewrite removelast_last in Ha. rewrite Hnx.
          rewrite decide_False by (by intros ->).
          rewrite decide_False; [done|]. intros ->. apply Hi. set_solver.
        - intros b Hb. rewrite Hpv. rewrite decide_False by (by intros ->).
          rewrite decide_False; [done|]. intros ->. apply Hi.
          apply elem_of_tail in Hb. set_solver. }
      destruct (B ++ [this]) as [|b l'] eqn:E; [done|].
      simpl in Hhn. injection Hhn as ->. split; [|done].
      split; [rewrite Hnx|rewrite Hpv].
      * rewrite decide_False by done. by rewrite decide_True.
      * by rewrite decide_True.
    + intros a b Ha [= <-]. assert (a = p) as -> by congruence.
      split; [rewrite Hnx|rewrite Hpv].
      * by rewrite decide_True.
      * rewrite decide_False by done. by rewrite decide_True.
Qed.

(** A ring only depends on the links of its own addresses. *)
Lemma ring_frame m m' this ps :
  ring m this ps ->
  (forall q, q ∈ this :: ps -> nextf m' q = nextf m q /\ prevf m' q = prevf m q) ->
  ring m' this ps.
Proof.
  intros [Hnd Hc] Hsame. split; [done|].
  eapply chain_frame; [exact Hc| |].
  - intros a Ha. apply Hsame.
    change (this :: ps ++ [this]) with ((this :: ps) ++ [this]) in Ha.
    by rewrite removelast_last in Ha.
  - intros b Hb. apply Hsame. simpl in Hb. set_solver.
Qed.

End Surgery.

(** ** Updates that only rewrite links *)

Section LinksOnly.
Context {T : Type} `{Element T}.
Implicit Types (m : Mem T) (p q a b : loc).

Lemma links_only_refl m : links_only m m.
Proof. by repeat split. Qed.

Lemma links_only_trans m1 m2 m3 :
  links_only m1 m2 -> links_only m2 m3 -> links_only m1 m3.
Proof.
  intros (Hd & Hdom & Hs & Ha) (Hd' & Hdom' & Hs' & Ha'). repeat split.
  - intros q. by rewrite Hd', Hd.
  - by rewrite Hdom', Hdom.
  - by rewrite Hs', Hs.
  - by rewrite Ha', Ha.
Qed.

Lemma links_only_is_node m m' q :
  links_only m m' -> is_Some (node_at m' q) <-> is_Some (node_at m q).
Proof.
  intros (Hd & _). specialize (Hd q). unfold dataf in Hd.
  destruct (node_at m' q), (node_at m q); simpl in Hd; try done.
  all: split; intros [? ?]; done.
Qed.

Lemma links_only_upd_next m p v : links_only m (upd_next p v m).
Proof.
  repeat split; simpl.
  - intros q. apply dataf_upd_next.
  - apply dom_alter_L.
Qed.

Lemma links_only_upd_prev m p v : links_only m (upd_prev p v m).
Proof.
  repeat split; simpl.
  - intros q. apply dataf_upd_prev.
  - apply dom_alter_L.
Qed.

Lemma key_links_only m m' q : links_only m m' -> key m' q = key m q.
Proof. intros (Hd & _). unfold key. by rewrite Hd. Qed.

End LinksOnly.

(** ** erase *)

Section Erase.
Context {T : Type} `{Element T}.
Implicit Types (m : Mem T) (p q a b : loc).

Lemma node_at_free_cell m p q :
  node_at (free_cell p m) q = if decide (q = p) then None else node_at m q.
Proof.
  unfold node_at, free_cell. simpl. case_decide.
  - subst. by rewrite lookup_delete_eq.
  - by rewrite lookup_delete_ne.
Qed.

Lemma obj_destruct_Ok m this p :
  p <> nullptr -> p <> this -> is_Some (node_at m p) ->
  obj_destruct this p m = Ok tt (free_cell p m).
Proof.
  intros Hp Hpt [n Hn]. unfold obj_destruct. rewrite !decide_False by done.
  by rewrite Hn.
Qed.

Lemma get_sz_Ok m l z : szs m !! l = Some z -> get_sz l m = Ok z m.
Proof. unfold get_sz. by intros ->. Qed.
Lemma set_sz_Ok m l z : is_Some (szs m !! l) -> set_sz l z m = Ok tt (upd_sz l z m).
Proof. unfold set_sz. by intros [? ->]. Qed.

Lemma decr_sz_Ok m l z :
  szs m !! l = Some z -> decr_sz l m = Ok tt (upd_sz l (wrap (z - 1)) m).
Proof.
  intros Hz. unfold decr_sz. rewrite (bind_Ok _ _ _ _ _ (get_sz_Ok _ _ _ Hz)).
  apply set_sz_Ok. by rewrite Hz.
Qed.
Lemma incr_sz_Ok m l z :
  szs m !! l = Some z -> incr_sz l m = Ok tt (upd_sz l (wrap (z + 1)) m).
Proof.
  intros Hz. unfold incr_sz. rewrite (bind_Ok _ _ _ _ _ (get_sz_Ok _ _ _ Hz)).
  apply set_sz_Ok. by rewrite Hz.
Qed.

Lemma wrap_small z : 0 <= z < size_max -> wrap z = z.
Proof. intros. unfold wrap. by apply Z.mod_small. Qed.

(** Values seen on a ring. *)
Lemma values_nodes m (ps : list loc) :
  (forall q, q ∈ ps -> is_Some (node_at m q)) ->
  values m ps = Some (map (key m) ps).
Proof.
  intros Hn. unfold values. apply mapM_Some. induction ps as [|a ps IH]; simpl.
  - constructor.
  - constructor.
    + unfold key. destruct (is_node_dataf m a) as [d ->]; [|done].
      apply Hn. left.
    + apply IH. intros q Hq. apply Hn. by right.
Qed.

Lemma to_list_ring m this ps fuel :
  ring m this ps -> (length ps < fuel)%nat ->
  to_list fuel m this = Some (map (key m) ps).
Proof.
  intros Hr Hf. unfold to_list. rewrite (nodes_of_ring _ _ _ _ Hr Hf).
  apply values_nodes. intros q Hq. eapply ring_is_node; [done|by right].
Qed.

Lemma erase_spec m this A i B :
  is_list m this (A ++ i :: B) ->
  exists m',
    erase this (mkIt i) m = Ok (mkIt i) m' /\
    is_list m' this (A ++ B) /\
    heap m' !! i = None /\
    (forall q, q <> i -> dataf m' q = dataf m q) /\
    size this m' = Some (Z.of_nat (length (A ++ i :: B)) - 1).
Proof.
  intros (Hr & Hnull & Hsz & Hbound).
  destruct (ring_neighbours _ _ _ _ _ Hr)
    as (p & n & Hlp & Hhn & [Hpn Hip] & [Hin Hni] & Hpi & Hni').
  assert (is_Some (node_at m p)) as Hnp by (by eapply nextf_is_node).
  assert (is_Some (node_at m n)) as Hnn by (by eapply prevf_is_node).
  assert (is_Some (node_at m i)) as Hnni by (by eapply nextf_is_node).
  assert (i <> nullptr) as Hi0 by (intros ->; apply Hnull; set_solver).
  set (m1 := upd_next p n m). set (m2 := upd_prev n p m1).
  set (m3 := free_cell i m2).
  set (m4 := upd_sz this (Z.of_nat (length (A ++ i :: B)) - 1) m3).
  assert (forall q, nextf m2 q = if decide (q = p) then Some n else nextf m q) as Hnx.
  { intros q. unfold m2, m1. rewrite nextf_upd_prev. by apply nextf_upd_next_node. }
  assert (forall q, prevf m2 q = if decide (q = n) then Some p else prevf m q) as Hpv.
  { intros q. unfold m2, m1. rewrite prevf_upd_prev_node.
    - case_decide; [done|]. apply prevf_upd_next.
    - by apply is_node_upd_next. }
  assert (ring m2 this (A ++ B)) as Hr2 by (by eapply ring_unlink).
  assert (i ∉ this :: A ++ B) as HiAB by (destruct Hr; by apply NoDup_mid_notin).
  exists m4. split_and!.
  - unfold erase. simpl.
    rewrite (bind_Ok _ _ _ _ _ (get_prev_Ok _ _ _ Hip)).
    rewrite (bind_Ok _ _ _ _ _ (get_next_Ok _ _ _ Hin)).
    rewrite (bind_Ok _ _ _ _ _ (set_next_Ok _ _ n Hnp)). fold m1.
    assert (nextf m1 i = Some n) as Hin1.
    { unfold m1. rewrite nextf_upd_next_node by done. by rewrite decide_False. }
    assert (prevf m1 i = Some p) as Hip1 by (unfold m1; by rewrite prevf_upd_next).
    rewrite (bind_Ok _ _ _ _ _ (get_next_Ok _ _ _ Hin1)).
    rewrite (bind_Ok _ _ _ _ _ (get_prev_Ok _ _ _ Hip1)).
    assert (is_Some (node_at m1 n)) as Hnn1 by (by apply is_node_upd_next).
    rewrite (bind_Ok _ _ _ _ _ (set_prev_Ok _ _ p Hnn1)). fold m2.
    assert (is_Some (node_at m2 i)) as Hni2.
    { unfold m2, m1. by apply is_node_upd_prev, is_node_upd_next. }
    rewrite (bind_Ok _ _ _ _ _ (obj_destruct_Ok _ this _ Hi0 ltac:(set_solver) Hni2)). fold m3.
    rewrite (bind_Ok _ _ _ _ _ (decr_sz_Ok m3 _ _ Hsz)).
    unfold ret, m4. rewrite wrap_small; [done|].
    rewrite length_app in *. simpl in *. lia.
  - split_and!.
    + eapply ring_frame; [exact Hr2|]. intros q Hq.
      assert (q <> i) by (by intros ->).
      unfold m4, m3, nextf, prevf. simpl. change (szs m2) with (szs m).
      unfold upd_sz, nextf, prevf, node_at at 1 3. simpl.
      rewrite lookup_delete_ne by done. done.
    + intros Hn0. apply Hnull. set_solver.
    + simpl. rewrite lookup_insert_eq. f_equal.
      rewrite !length_app. simpl. lia.
    + rewrite !length_app in *. simpl in *. lia.
  - simpl. apply lookup_delete_eq.
  - intros q Hq. unfold m4, m3, dataf, node_at. simpl.
    rewrite lookup_delete_ne by done.
    change (dataf m2 q = dataf m q). unfold m2, m1.
    by rewrite dataf_upd_prev, dataf_upd_next.
  - unfold size. simpl. apply lookup_insert_eq.
Qed.

End Erase.

(** ** reverse *)

Section Reverse.
Context {T : Type} `{Element T}.
Implicit Types (m : Mem T) (p q a b : loc) (ps : list loc).

Lemma swap_links_Ok m p a b :
  nextf m p = Some a -> prevf m p = Some b ->
  exists m', swap_links p m = Ok tt m' /\ links_only m m' /\
    (forall q, nextf m' q = if decide (q = p) then Some b else nextf m q) /\
    (forall q, prevf m' q = if decide (q = p) then Some a else prevf m q).
Proof.
  intros Ha Hb. exists (upd_prev p a (upd_next p b m)).
  assert (is_Some (node_at m p)) as Hn by (by eapply nextf_is_node).
  split_and!.
  - unfold swap_links.
    rewrite (bind_Ok _ _ _ _ _ (get_next_Ok _ _ _ Ha)).
    rewrite (bind_Ok _ _ _ _ _ (get_prev_Ok _ _ _ Hb)).
    rewrite (bind_Ok _ _ _ _ _ (set_next_Ok _ _ b Hn)).
    apply set_prev_Ok. by apply is_node_upd_next.
  - eapply links_only_trans; [apply links_only_upd_next|apply links_only_upd_prev].
  - intros q. rewrite nextf_upd_prev. by apply nextf_upd_next_node.
  - intros q. rewrite prevf_upd_prev_node by (by apply is_node_upd_next).
    case_decide; [done|]. apply prevf_upd_next.
Qed.

Lemma flipped_step S m0 m m' p :
  flipped S m0 m -> p ∉ S ->
  is_Some (node_at m0 p) ->
  (forall q, nextf m' q = if decide (q = p) then prevf m p else nextf m q) ->
  (forall q, prevf m' q = if decide (q = p) then nextf m p else prevf m q) ->
  flipped (S ++ [p]) m0 m'.
Proof.
  intros Hf Hp Hn Hnx Hpv q. rewrite Hnx, Hpv.
  destruct (Hf q) as [Hq1 Hq2]. destruct (Hf p) as [Hp1 Hp2].
  rewrite decide_False in Hp1, Hp2 by done.
  destruct (decide (q = p)) as [->|Hne].
  - rewrite !decide_True by set_solver. by rewrite Hp1, Hp2.
  - rewrite Hq1, Hq2. destruct (decide (q ∈ S)).
    + by rewrite !decide_True by set_solver.
    + by rewrite !decide_False by set_solver.
Qed.

Lemma reverse_loop_spec m0 this ps :
  ring m0 this ps ->
  forall B A m fuel it,
    ps = A ++ B -> flipped A m0 m -> links_only m0 m ->
    head (B ++ [this]) = Some it -> (length B < fuel)%nat ->
    exists m', reverse_loop fuel this it m = Ok tt m' /\
               flipped ps m0 m' /\ links_only m0 m'.
Proof.
  intros Hr. induction B as [|b B IH]; intros A m fuel it -> Hf Hl Hit Hfuel.
  - simpl in Hit. injection Hit as <-. destruct fuel; [simpl in Hfuel; lia|].
    exists m. simpl. rewrite decide_True by done. rewrite app_nil_r. done.
  - simpl in Hit. injection Hit as <-. destruct fuel; [simpl in Hfuel; lia|].
    destruct (ring_neighbours _ _ _ _ _ Hr)
      as (p & n & Hlp & Hhn & [Hpb Hbp] & [Hbn Hnb] & _ & _).
    assert (b ∉ this :: A ++ B) as HbAB by (destruct Hr; by apply NoDup_mid_notin).
    assert (b <> this) as Hbt by set_solver.
    assert (b ∉ A) as HbA by set_solver.
    destruct (Hf b) as [Hb1 Hb2]. rewrite decide_False in Hb1, Hb2 by done.
    rewrite Hbn in Hb1. rewrite Hbp in Hb2.
    destruct (swap_links_Ok m b n p Hb1 Hb2) as (m1 & Hsw & Hl1 & Hnx & Hpv).
    destruct (IH (A ++ [b]) m1 fuel n) as (m' & Hloop & Hf' & Hl').
    + by rewrite <- app_assoc.
    + eapply flipped_step; [done|done|by eapply nextf_is_node| |].
      * intros q. rewrite Hnx. by rewrite Hb2.
      * intros q. rewrite Hpv. by rewrite Hb1.
    + by eapply links_only_trans.
    + done.
    + simpl in Hfuel. lia.
    + exists m'. split; [|done]. simpl. unfold end_.
      rewrite decide_False by done.
      rewrite (bind_Ok _ _ _ _ _ Hsw).
      assert (prevf m1 b = Some n) as Hpb1 by (rewrite Hpv; by rewrite decide_True).
      by rewrite (bind_Ok _ _ _ _ _ (get_prev_Ok _ _ _ Hpb1)).
Qed.

(** Exchanging both links of every address of a chain reverses it. *)
Lemma chain_rev m0 m xs :
  chain m0 xs ->
  (forall q, q ∈ xs -> nextf m q = prevf m0 q /\ prevf m q = nextf m0 q) ->
  chain m (rev xs).
Proof.
  induction xs as [|a [|b xs] IH]; [done|done|].
  intros [[Hn Hp] Hc] Hfl.
  change (rev (a :: b :: xs)) with (rev (b :: xs) ++ [a]).
  apply chain_app. split_and!.
  - apply IH; [done|]. intros q Hq. apply Hfl. by right.
  - done.
  - intros x y Hx [= <-]. simpl in Hx. rewrite last_snoc in Hx.
    injection Hx as <-. split.
    + destruct (Hfl b) as [-> _]; [set_solver|done].
    + destruct (Hfl a) as [_ ->]; [set_solver|done].
Qed.

Lemma reverse_ring m this ps fuel :
  ring m this ps -> (length ps < fuel)%nat ->
  exists m', reverse fuel this m = Ok tt m' /\
             ring m' this (rev ps) /\ links_only m m'.
Proof.
  intros Hr Hfuel.
  assert (exists it, head (ps ++ [this]) = Some it) as [it Hit].
  { destruct ps; simpl; eauto. }
  assert (nextf m this = Some it) as Hb.
  { destruct Hr as [_ Hc]. simpl in Hc.
    destruct (ps ++ [this]) as [|c l'] eqn:E; [done|].
    simpl in Hit. injection Hit as ->. by destruct Hc as [[? _] _]. }
  destruct (reverse_loop_spec m this ps Hr ps [] m fuel it)
    as (m1 & Hloop & Hf & Hl); [done| |apply links_only_refl|done|done|].
  { intros q. by rewrite decide_False by set_solver. }
  assert (this ∉ ps) as Htp by (destruct Hr as [[? _]%NoDup_cons _]; done).
  destruct (Hf this) as [Ht1 Ht2]. rewrite decide_False in Ht1, Ht2 by done.
  destruct (is_node_prevf m this) as [e He]; [eapply ring_is_node; [done|left]|].
  rewrite Hb in Ht1. rewrite He in Ht2.
  destruct (swap_links_Ok m1 this it e Ht1 Ht2) as (m2 & Hsw & Hl2 & Hnx & Hpv).
  exists m2. split_and!.
  - unfold reverse, begin.
    rewrite (bind_Ok _ _ _ _ _ (get_next_Ok _ _ _ Hb)).
    by rewrite (bind_Ok _ _ _ _ _ Hloop).
  - destruct Hr as [Hnd Hc]. split.
    + apply NoDup_cons in Hnd as [? ?]. apply NoDup_cons.
      split; [by rewrite list_elem_of_In, <- in_rev, <- list_elem_of_In|].
      by apply NoDup_ListNoDup, List.NoDup_rev, NoDup_ListNoDup.
    + replace (this :: rev ps ++ [this]) with (rev (this :: ps ++ [this])).
      2:{ simpl. rewrite rev_app_distr. done. }
      eapply chain_rev; [exact Hc|]. intros q Hq.
      rewrite Hnx, Hpv. destruct (Hf q) as [Hq1 Hq2].
      destruct (decide (q = this)) as [->|Hne].
      * by rewrite He, Hb.
      * rewrite decide_True in Hq1, Hq2 by set_solver. done.
  - by eapply links_only_trans.
Qed.

End Reverse.

(** ** sort: the order of nodes the loops produce *)

Section SortModel.
Context {T : Type}.
Variables (lamb lamb_t : T -> T -> bool) (k : loc -> T).

#[local] Abbreviation scan := (scan lamb lamb_t k).
#[local] Abbreviation place := (place lamb lamb_t k).
#[local] Abbreviation passes := (passes lamb lamb_t k).
#[local] Abbreviation sorted_order := (sorted_order lamb lamb_t k).
#[local] Abbreviation ordered := (ordered lamb_t k).
#[local] Abbreviation tied := (tied lamb_t k).

Lemma scan_cons x j rP' B :
  scan x (j :: rP') B =
  if lamb (k x) (k j) &&
     match rP' with [] => true | n :: _ => lamb_t (k n) (k x) end
  then Some (rev rP' ++ x :: j :: B)
  else scan x rP' (j :: B).
Proof. done. Qed.

(** What [scan] returns, whatever the prefix. *)
Lemma scan_none x rP B :
  (forall p, p ∈ rP -> lamb (k x) (k p) = false) -> scan x rP B = None.
Proof.
  revert B. induction rP as [|j rP IH]; intros B Hall; [done|].
  simpl. rewrite (Hall j) by left. simpl. apply IH.
  intros p Hp. apply Hall. by right.
Qed.

Lemma scan_some x S rP1 B :
  (forall a b, lamb a b = negb (lamb_t b a)) ->
  S <> [] ->
  (forall s, s ∈ S -> lamb (k x) (k s) = true) ->
  match rP1 with [] => True | n :: _ => lamb_t (k n) (k x) = true end ->
  scan x (S ++ rP1) B = Some (rev rP1 ++ x :: rev S ++ B).
Proof.
  intros Hneg HS Hall Hb. revert B.
  induction S as [|j [|j' S] IH]; intros B; [done| |].
  - simpl. rewrite (Hall j) by left. simpl.
    destruct rP1 as [|n rP1]; [done|]. by rewrite Hb.
  - change ((j :: j' :: S) ++ rP1) with (j :: (j' :: S) ++ rP1).
    rewrite scan_cons. rewrite (Hall j) by left.
    assert (lamb_t (k j') (k x) = false) as Hj'.
    { specialize (Hall j'). rewrite Hneg in Hall.
      apply negb_true_iff, Hall. right. left. }
    cbn [app andb]. rewrite Hj'.
    change (j' :: S ++ rP1) with ((j' :: S) ++ rP1).
    rewrite IH; [|done|intros s Hs; apply Hall; by right].
    f_equal. f_equal. f_equal. simpl. by rewrite <- !app_assoc.
Qed.

(** [place] only adds [x]. *)
Lemma scan_perm x rP B P' :
  scan x rP B = Some P' -> Permutation (x :: rev rP ++ B) P'.
Proof.
  revert B. induction rP as [|j rP IH]; intros B; [done|].
  simpl. destruct (_ && _).
  - intros [= <-]. rewrite <- app_assoc. simpl.
    by rewrite Permutation_middle.
  - intros Hs. apply IH in Hs. rewrite <- Hs.
    by rewrite <- app_assoc.
Qed.

Lemma place_perm x P : Permutation (P ++ [x]) (place x P).
Proof.
  unfold place. destruct (scan x (rev P) []) as [P'|] eqn:E; [|done].
  apply scan_perm in E. rewrite rev_involutive, app_nil_r in E.
  rewrite <- E. by rewrite Permutation_app_comm.
Qed.

Lemma passes_perm P rest : Permutation (P ++ rest) (passes P rest).
Proof.
  revert P. induction rest as [|x rest IH]; intros P; simpl.
  - by rewrite app_nil_r.
  - rewrite <- IH, <- place_perm. by rewrite <- app_assoc.
Qed.

Lemma sorted_order_perm ps : Permutation ps (sorted_order ps).
Proof. destruct ps as [|a rest]; [done|]. apply (passes_perm [a] rest). Qed.

(** *** On a sorted prefix *)

Hypothesis lamb_neg : forall a b, lamb a b = negb (lamb_t b a).
Hypothesis lamb_t_total : forall a b, lamb_t a b = true \/ lamb_t b a = true.
Hypothesis lamb_t_trans :
  forall a b c, lamb_t a b = true -> lamb_t b c = true -> lamb_t a c = true.

(** A sorted prefix splits into the nodes not after [x] and those after. *)
Lemma sorted_split x P :
  StronglySorted ordered P ->
  exists P1 P2, P = P1 ++ P2 /\
    (forall p, p ∈ P1 -> lamb_t (k p) (k x) = true) /\
    (forall p, p ∈ P2 -> lamb (k x) (k p) = true).
Proof.
  induction 1 as [|a P HP IH Hall].
  - exists [], []. split_and!; [done|intros ? ?%elem_of_nil..]; done.
  - destruct (lamb_t (k a) (k x)) eqn:E.
    + destruct IH as (P1 & P2 & -> & H1 & H2).
      exists (a :: P1), P2. split_and!; [done| |done].
      intros p [->|?]%elem_of_cons; [done|by apply H1].
    + exists [], (a :: P). split_and!; [done|intros ? ?%elem_of_nil; done|].
      assert (forall p, ordered a p -> lamb (k x) (k p) = true) as Hafter.
      { intros p Hap. rewrite lamb_neg. apply negb_true_iff.
        destruct (lamb_t (k p) (k x)) eqn:E'; [|done].
        rewrite <- E. symmetry. by apply (lamb_t_trans _ (k p)). }
      intros p [->|Hp]%elem_of_cons.
      * rewrite lamb_neg. by rewrite E.
      * apply Hafter. rewrite Forall_forall in Hall. by apply Hall.
Qed.

Lemma place_split x P1 P2 :
  (forall p, p ∈ P1 -> lamb_t (k p) (k x) = true) ->
  (forall p, p ∈ P2 -> lamb (k x) (k p) = true) ->
  place x (P1 ++ P2) = P1 ++ x :: P2.
Proof.
  intros H1 H2. unfold place. destruct P2 as [|b P2].
  - rewrite app_nil_r. rewrite scan_none; [done|].
    intros p Hp. rewrite lamb_neg. apply negb_false_iff, H1.
    by rewrite list_elem_of_In, in_rev, <- list_elem_of_In.
  - rewrite rev_app_distr. rewrite scan_some.
    + by rewrite !rev_involutive, app_nil_r.
    + done.
    + simpl. by destruct (rev P2).
    + intros s Hs. apply H2.
      by rewrite list_elem_of_In, in_rev, <- list_elem_of_In.
    + destruct (rev P1) as [|n l'] eqn:E; [done|]. apply H1.
      rewrite list_elem_of_In, in_rev, <- list_elem_of_In. rewrite E. left.
Qed.

Lemma StronglySorted_mid (R : loc -> loc -> Prop) x P1 P2 :
  StronglySorted R (P1 ++ P2) ->
  (forall p, p ∈ P1 -> R p x) -> (forall p, p ∈ P2 -> R x p) ->
  StronglySorted R (P1 ++ x :: P2).
Proof.
  induction P1 as [|a P1 IH]; simpl; intros Hs H1 H2.
  - constructor; [done|]. apply Forall_forall. intros p Hp. by apply H2.
  - apply StronglySorted_inv in Hs as [Hs Ha]. constructor.
    + apply IH; [done| |done]. intros p Hp. apply H1. by right.
    + rewrite Forall_forall in *.
      intros p [Hp|[->|Hp]%elem_of_cons]%elem_of_app.
      * apply Ha. set_solver.
      * apply H1. left.
      * apply Ha. set_solver.
Qed.

Lemma lamb_ordered x p : lamb (k x) (k p) = true -> ordered x p.
Proof.
  rewrite lamb_neg. intros Hn%negb_true_iff. unfold ordered.
  destruct (lamb_t_total (k x) (k p)); [done|congruence].
Qed.

Lemma place_sorted x P :
  StronglySorted ordered P -> StronglySorted ordered (place x P).
Proof.
  intros Hs. destruct (sorted_split x P Hs) as (P1 & P2 & -> & H1 & H2).
  rewrite place_split by done. apply StronglySorted_mid; [done|done|].
  intros p Hp. by apply lamb_ordered, H2.
Qed.

(** Nodes tied with [x] all stay in front of it. *)
Lemma place_stable x P (y : T) :
  StronglySorted ordered P ->
  List.filter (tied y) (place x P) = List.filter (tied y) (P ++ [x]).
Proof.
  intros Hs. destruct (sorted_split x P Hs) as (P1 & P2 & -> & H1 & H2).
  rewrite place_split by done.
  rewrite !List.filter_app. simpl. rewrite <- app_assoc. f_equal.
  destruct (tied y x) eqn:E; [|by rewrite app_nil_r].
  assert (List.filter (tied y) P2 = []) as ->; [|done].
  clear Hs. induction P2 as [|b P2 IH]; [done|]. simpl.
  assert (tied y b = false) as ->.
  { apply andb_prop in E as [Hyx Hxy]. unfold tied.
    destruct (lamb_t (k b) y) eqn:Eb; [|by rewrite andb_false_r].
    assert (lamb (k x) (k b) = true) as Hxb by (apply H2; left).
    assert (lamb_t (k b) (k x) = true) as Hbx by (by apply (lamb_t_trans _ y)).
    rewrite lamb_neg, Hbx in Hxb. discriminate. }
  apply IH. intros p Hp. apply H2. by right.
Qed.

Lemma passes_sorted P rest :
  StronglySorted ordered P -> StronglySorted ordered (passes P rest).
Proof.
  revert P. induction rest as [|x rest IH]; intros P HP; [done|].
  simpl. by apply IH, place_sorted.
Qed.

Lemma passes_stable P rest (y : T) :
  StronglySorted ordered P ->
  List.filter (tied y) (passes P rest) = List.filter (tied y) (P ++ rest).
Proof.
  revert P. induction rest as [|x rest IH]; intros P HP; simpl.
  - by rewrite app_nil_r.
  - rewrite IH by (by apply place_sorted).
    rewrite List.filter_app, place_stable by done.
    rewrite <- List.filter_app. by rewrite <- app_assoc.
Qed.

(** Sortedness of the nodes is sortedness of their payloads. *)
Lemma sorted_keys P :
  StronglySorted ordered P ->
  StronglySorted (fun a b => lamb_t a b = true) (map k P).
Proof.
  induction 1 as [|a P HP IH Hall]; simpl; constructor; [done|].
  rewrite Forall_forall in Hall. apply Forall_forall.
  intros v (p & -> & Hp)%list_elem_of_fmap. by apply Hall.
Qed.

Lemma sorted_order_sorted ps : StronglySorted ordered (sorted_order ps).
Proof.
  destruct ps as [|a rest]; [constructor|]. apply passes_sorted.
  repeat constructor.
Qed.

Lemma sorted_order_stable ps (y : T) :
  List.filter (tied y) (sorted_order ps) = List.filter (tied y) ps.
Proof.
  destruct ps as [|a rest]; [done|]. apply (passes_stable [a] rest).
  repeat constructor.
Qed.

End SortModel.

(** ** sort on the memory *)

Section SortHeap.
Context {T : Type} `{Element T}.
Implicit Types (m : Mem T) (p q a b : loc) (ps : list loc).

Lemma insert_node_Ok m old new p :
  prevf m old = Some p -> is_Some (node_at m new) -> is_Some (node_at m p) ->
  new <> old -> new <> p ->
  exists m', insert_node old new m = Ok tt m' /\ links_only m m' /\
    (forall q, nextf m' q = if decide (q = p) then Some new
                            else if decide (q = new) then Some old else nextf m q) /\
    (forall q, prevf m' q = if decide (q = old) then Some new
                            else if decide (q = new) then Some p else prevf m q).
Proof.
  intros Hp Hnew Hnp Hno Hnp'.
  assert (is_Some (node_at m old)) as Hnold by (by eapply prevf_is_node).
  set (m1 := upd_next new old m). set (m2 := upd_prev new p m1).
  set (m3 := upd_next p new m2). set (m4 := upd_prev old new m3).
  assert (is_Some (node_at m1 new)) as Hn1 by (by apply is_node_upd_next).
  assert (is_Some (node_at m2 p)) as Hn2 by (by apply is_node_upd_prev, is_node_upd_next).
  assert (is_Some (node_at m3 old)) as Hn3
    by (by apply is_node_upd_next, is_node_upd_prev, is_node_upd_next).
  assert (prevf m1 old = Some p) as Hp1 by (unfold m1; by rewrite prevf_upd_next).
  assert (prevf m2 old = Some p) as Hp2.
  { unfold m2. rewrite prevf_upd_prev_node by done. by rewrite decide_False. }
  exists m4. split_and!.
  - unfold insert_node.
    rewrite (bind_Ok _ _ _ _ _ (set_next_Ok _ _ old Hnew)). fold m1.
    rewrite (bind_Ok _ _ _ _ _ (get_prev_Ok _ _ _ Hp1)).
    rewrite (bind_Ok _ _ _ _ _ (set_prev_Ok _ _ p Hn1)). fold m2.
    rewrite (bind_Ok _ _ _ _ _ (get_prev_Ok _ _ _ Hp2)).
    rewrite (bind_Ok _ _ _ _ _ (set_next_Ok _ _ new Hn2)). fold m3.
    by apply set_prev_Ok.
  - eapply links_only_trans; [|apply links_only_upd_prev].
    eapply links_only_trans; [|apply links_only_upd_next].
    eapply links_only_trans; [apply links_only_upd_next|apply links_only_upd_prev].
  - intros q. unfold m4. rewrite nextf_upd_prev. unfold m3.
    rewrite nextf_upd_next_node by done. case_decide; [done|].
    unfold m2. rewrite nextf_upd_prev. unfold m1.
    by rewrite nextf_upd_next_node.
  - intros q. unfold m4. rewrite prevf_upd_prev_node by done.
    case_decide; [done|]. unfold m3. rewrite prevf_upd_next. unfold m2.
    rewrite prevf_upd_prev_node by done. case_decide; [done|].
    unfold m1. by rewrite prevf_upd_next.
Qed.

Lemma last_rev_head (this : loc) l : last (this :: rev l) = head (l ++ [this]).
Proof.
  destruct l as [|n l]; [done|]. simpl.
  change (this :: rev l ++ [n]) with ((this :: rev l) ++ [n]).
  by rewrite last_snoc.
Qed.

Lemma dataf_key m0 m q :
  links_only m0 m -> is_Some (node_at m q) -> dataf m q = Some (key m0 q).
Proof.
  intros Hl Hn. destruct (is_node_dataf _ _ Hn) as [d Hd].
  rewrite Hd. unfold key. destruct Hl as (Hdata & _).
  by rewrite <- Hdata, Hd.
Qed.

(** The relocation block of the inner loop: unlink [it_i], splice it in
    front of [it_j]. *)
Lemma relocate_Ok m this A j B i C :
  ring m this (A ++ j :: B ++ i :: C) ->
  exists m' it_s,
    (it_s <- get_next i ;;
     n <- get_next i ;; p <- get_prev i ;; set_prev n p ;;
     p <- get_prev i ;; n <- get_next i ;; set_next p n ;;
     insert_node j i ;;
     ret (Some it_s)) m = Ok (Some it_s) m' /\
    ring m' this (A ++ i :: j :: B ++ C) /\ links_only m m' /\
    head (C ++ [this]) = Some it_s.
Proof.
  intros Hr.
  assert (ring m this ((A ++ j :: B) ++ i :: C)) as Hr'.
  { by rewrite <- app_assoc. }
  destruct (ring_neighbours _ _ _ _ _ Hr')
    as (pi & ni & Hlpi & Hhni & [Hpii Hipi] & [Hini Hnii] & Hpi & Hni).
  destruct (ring_neighbours _ _ _ _ _ Hr)
    as (pj & nj & Hlpj & _ & [Hpjj Hjpj] & _ & Hpj & _).
  assert (i ∉ this :: (A ++ j :: B) ++ C) as HiN
    by (destruct Hr'; by apply NoDup_mid_notin).
  assert (j ∉ this :: A ++ (B ++ i :: C)) as HjN
    by (destruct Hr; by apply NoDup_mid_notin).
  assert (j <> ni) as Hjni.
  { intros ->. apply HjN. apply head_elem_of in Hhni. set_solver. }
  assert (i <> pj) as Hipj.
  { intros ->. apply HiN. apply last_elem_of in Hlpj. set_solver. }
  assert (i <> j) as Hij by set_solver.
  assert (is_Some (node_at m ni)) as Hnni by (by eapply prevf_is_node).
  assert (is_Some (node_at m pi)) as Hnpi by (by eapply nextf_is_node).
  assert (is_Some (node_at m pj)) as Hnpj by (by eapply nextf_is_node).
  assert (is_Some (node_at m i)) as Hnodei by (by eapply nextf_is_node).
  set (m1 := upd_prev ni pi m). set (m2 := upd_next pi ni m1).
  assert (forall q, nextf m2 q = if decide (q = pi) then Some ni else nextf m q) as Hnx.
  { intros q. unfold m2. rewrite nextf_upd_next_node by (by apply is_node_upd_prev).
    case_decide; [done|]. apply nextf_upd_prev. }
  assert (forall q, prevf m2 q = if decide (q = ni) then Some pi else prevf m q) as Hpv.
  { intros q. unfold m2. rewrite prevf_upd_next. by apply prevf_upd_prev_node. }
  assert (ring m2 this ((A ++ j :: B) ++ C)) as Hr2 by (by eapply ring_unlink).
  rewrite <- app_assoc in Hr2. simpl in Hr2.
  assert (prevf m2 j = Some pj) as Hjpj2 by (rewrite Hpv; by rewrite decide_False).
  assert (links_only m m2) as Hl2.
  { eapply links_only_trans; [apply links_only_upd_prev|apply links_only_upd_next]. }
  destruct (insert_node_Ok m2 j i pj) as (m3 & Hins & Hl3 & Hnx3 & Hpv3); try done.
  { by apply links_only_is_node with m. }
  { by apply links_only_is_node with m. }
  exists m3, ni. split_and!.
  - rewrite (bind_Ok _ _ _ _ _ (get_next_Ok _ _ _ Hini)).
    rewrite (bind_Ok _ _ _ _ _ (get_next_Ok _ _ _ Hini)).
    rewrite (bind_Ok _ _ _ _ _ (get_prev_Ok _ _ _ Hipi)).
    rewrite (bind_Ok _ _ _ _ _ (set_prev_Ok _ _ pi Hnni)). fold m1.
    assert (prevf m1 i = Some pi) as Hipi1.
    { unfold m1. rewrite prevf_upd_prev_node by done. by rewrite decide_False. }
    assert (nextf m1 i = Some ni) as Hini1 by (unfold m1; by rewrite nextf_upd_prev).
    rewrite (bind_Ok _ _ _ _ _ (get_prev_Ok _ _ _ Hipi1)).
    rewrite (bind_Ok _ _ _ _ _ (get_next_Ok _ _ _ Hini1)).
    assert (is_Some (node_at m1 pi)) as Hnpi1 by (by apply is_node_upd_prev).
    rewrite (bind_Ok _ _ _ _ _ (set_next_Ok _ _ ni Hnpi1)). fold m2.
    by rewrite (bind_Ok _ _ _ _ _ Hins).
  - eapply (ring_insert m2 m3 this A (j :: B ++ C) i pj j); try done.
    rewrite <- app_assoc in HiN. exact HiN.
  - by eapply links_only_trans.
  - done.
Qed.

(** The inner loop follows [scan]. *)
Lemma sort_inner_spec m0 lamb lamb_t this i C :
  forall rP B m fuel it_j,
    ring m this (rev rP ++ B ++ i :: C) -> links_only m0 m ->
    head (rP ++ [this]) = Some it_j -> (length rP < fuel)%nat ->
    match scan lamb lamb_t (key m0) i rP B with
    | None => sort_inner fuel lamb lamb_t this i it_j m = Ok None m
    | Some P' =>
        exists m' it_s,
          sort_inner fuel lamb lamb_t this i it_j m = Ok (Some it_s) m' /\
          ring m' this (P' ++ C) /\ links_only m0 m' /\
          head (C ++ [this]) = Some it_s
    end.
Proof.
  induction rP as [|j rP IH]; intros B m fuel it_j Hr Hl Hj Hfuel.
  - simpl in Hj. injection Hj as <-. destruct fuel; [simpl in Hfuel; lia|].
    simpl. by rewrite decide_True.
  - simpl in Hj. injection Hj as <-. destruct fuel; [simpl in Hfuel; lia|].
    assert (ring m this (rev rP ++ j :: B ++ i :: C)) as Hr1.
    { simpl in Hr. by rewrite <- app_assoc in Hr. }
    assert (ring m this ((rev rP ++ j :: B) ++ i :: C)) as Hr2.
    { by rewrite <- app_assoc. }
    destruct (ring_neighbours _ _ _ _ _ Hr1)
      as (p & _ & Hlp & _ & [Hpj Hjp] & _ & _ & _).
    rewrite last_rev_head in Hlp.
    assert (j ∉ this :: rev rP ++ (B ++ i :: C)) as HjN
      by (destruct Hr1; by apply NoDup_mid_notin).
    assert (j <> this) as Hjt by set_solver.
    assert (is_Some (node_at m i)) as Hni by (eapply ring_is_node; [exact Hr2|set_solver]).
    assert (is_Some (node_at m j)) as Hnj by (by eapply prevf_is_node).
    assert (is_Some (node_at m p)) as Hnp by (by eapply nextf_is_node).
    pose proof (dataf_key _ _ _ Hl Hni) as Hdi.
    pose proof (dataf_key _ _ _ Hl Hnj) as Hdj.
    pose proof (dataf_key _ _ _ Hl Hnp) as Hdp.
    rewrite scan_cons. cbn [sort_inner]. unfold end_.
    rewrite decide_False by done.
    rewrite (bind_Ok _ _ _ _ _ (get_prev_Ok _ _ _ Hjp)).
    rewrite (bind_Ok _ _ _ _ _ (get_data_Ok _ _ _ Hdi)).
    rewrite (bind_Ok _ _ _ _ _ (get_data_Ok _ _ _ Hdj)).
    set (c := lamb (key m0 i) (key m0 j) &&
              match rP with [] => true | n :: _ => lamb_t (key m0 n) (key m0 i) end).
    assert ((if lamb (key m0 i) (key m0 j)
             then if decide (p = this) then ret true
                  else dn <- get_data p ;; di <- get_data i ;; ret (lamb_t dn di)
             else ret false) m = Ok c m) as Hc.
    { unfold c. destruct (lamb (key m0 i) (key m0 j)); [|done]. simpl.
      destruct rP as [|n rP'].
      - simpl in Hlp. injection Hlp as <-. by rewrite decide_True.
      - simpl in Hlp. injection Hlp as <-.
        assert (n <> this) as Hnt.
        { intros ->. destruct Hr1 as [[Hni' _]%NoDup_cons _]. apply Hni'.
          simpl. rewrite <- !app_assoc. set_solver. }
        rewrite decide_False by done.
        rewrite (bind_Ok _ _ _ _ _ (get_data_Ok _ _ _ Hdp)).
        by rewrite (bind_Ok _ _ _ _ _ (get_data_Ok _ _ _ Hdi)). }
    rewrite (bind_Ok _ _ _ _ _ Hc). destruct c.
    + destruct (relocate_Ok m this (rev rP) j B i C Hr1)
        as (m' & it_s & Hrel & Hr' & Hl' & Hs).
      exists m', it_s. split_and!; [exact Hrel| | |done].
      * rewrite <- app_assoc. exact Hr'.
      * by eapply links_only_trans.
    + rewrite (bind_Ok _ _ _ _ _ (get_prev_Ok _ _ _ Hjp)).
      apply (IH (j :: B) m fuel p); [exact Hr1|done|done|simpl in Hfuel; lia].
Qed.

(** The outer loop follows [passes]. *)
Lemma sort_outer_spec m0 lamb lamb_t this :
  forall C P m fuel ifuel it_i,
    ring m this (P ++ C) -> links_only m0 m ->
    head (C ++ [this]) = Some it_i ->
    (length C < fuel)%nat -> (length (P ++ C) < ifuel)%nat ->
    exists m',
      sort_outer fuel ifuel lamb lamb_t this it_i m = Ok tt m' /\
      ring m' this (passes lamb lamb_t (key m0) P C) /\ links_only m0 m'.
Proof.
  induction C as [|i C IH]; intros P m fuel ifuel it_i Hr Hl Hi Hfuel Hifuel.
  - simpl in Hi. injection Hi as <-. destruct fuel; [simpl in Hfuel; lia|].
    exists m. simpl. rewrite decide_True by done. rewrite app_nil_r in Hr. done.
  - simpl in Hi. injection Hi as <-. destruct fuel; [simpl in Hfuel; lia|].
    destruct (ring_neighbours _ _ _ _ _ Hr)
      as (p & n & Hlp & Hhn & [Hpi Hip] & [Hin Hni] & _ & _).
    assert (i ∉ this :: P ++ C) as HiN by (destruct Hr; by apply NoDup_mid_notin).
    assert (i <> this) as Hit by set_solver.
    assert (length P < ifuel)%nat as HPf by (rewrite length_app in Hifuel; lia).
    assert (head (rev P ++ [this]) = Some p) as Hhp.
    { rewrite <- last_rev_head. by rewrite rev_involutive. }
    assert (ring m this (rev (rev P) ++ [] ++ i :: C)) as Hr0.
    { by rewrite rev_involutive. }
    rewrite <- (length_rev P) in HPf.
    pose proof (sort_inner_spec m0 lamb lamb_t this i C (rev P) [] m ifuel p
                  Hr0 Hl Hhp HPf) as Hinner.
    cbn [sort_outer passes]. unfold end_. rewrite decide_False by done.
    rewrite (bind_Ok _ _ _ _ _ (get_prev_Ok _ _ _ Hip)).
    unfold place. destruct (scan lamb lamb_t (key m0) i (rev P) []) as [P'|] eqn:E.
    + destruct Hinner as (m1 & it_s & Hin1 & Hr1 & Hl1 & Hs).
      assert (length P' = S (length P)) as HlenP'.
      { apply scan_perm in E. apply Permutation_length in E.
        rewrite <- E. simpl. rewrite app_nil_r, rev_involutive. done. }
      destruct (IH P' m1 fuel ifuel it_s Hr1 Hl1 Hs) as (m' & Hout & Hr' & Hl').
      { simpl in Hfuel. lia. }
      { rewrite length_app in *. simpl in Hifuel. lia. }
      exists m'. split; [|done].
      rewrite (bind_Ok _ _ _ _ _ Hin1). unfold ret at 1.
      by rewrite (bind_Ok _ _ _ _ _ (eq_refl : ret it_s m1 = Ok it_s m1)).
    + assert (ring m this ((P ++ [i]) ++ C)) as Hr1 by (by rewrite <- app_assoc).
      destruct (IH (P ++ [i]) m fuel ifuel n Hr1 Hl Hhn) as (m' & Hout & Hr' & Hl').
      { simpl in Hfuel. lia. }
      { rewrite !length_app in *. simpl in *. lia. }
      exists m'. split; [|done].
      rewrite (bind_Ok _ _ _ _ _ Hinner).
      by rewrite (bind_Ok _ _ _ _ _ (get_next_Ok _ _ _ Hin)).
Qed.

(** [sort] puts the nodes of a well-formed container in [sorted_order],
    rewriting links only; below two elements it touches nothing. *)
Lemma sort_ring m this ps (ascending : bool) fuel :
  is_list m this ps -> (length ps < fuel)%nat ->
  let lamb : T -> T -> bool := if ascending then lt else gt in
  let lamb_t : T -> T -> bool := if ascending then le else ge in
  exists m',
    sort fuel this ascending m = Ok tt m' /\
    is_list m' this (sorted_order lamb lamb_t (key m) ps) /\
    links_only m m' /\
    ((length ps < 2)%nat -> m' = m).
Proof.
  intros (Hr & Hnull & Hsz & Hbound) Hfuel lamb lamb_t.
  unfold sort. rewrite (bind_Ok _ _ _ _ _ (get_sz_Ok _ _ _ Hsz)).
  destruct ps as [|a [|b rest]].
  - exists m. simpl. by split_and!.
  - exists m. simpl. by split_and!.
  - assert ((Z.of_nat (length (a :: b :: rest)) <? 2) = false) as ->.
    { apply Z.ltb_ge. simpl length. lia. }
    destruct (ring_neighbours m this [] a (b :: rest) Hr)
      as (p & n & Hlp & Hhn & [Hpa _] & [Han _] & _ & _).
    simpl in Hlp, Hhn. injection Hlp as <-. injection Hhn as <-.
    destruct (sort_outer_spec m lamb lamb_t this (b :: rest) [a] m fuel fuel b)
      as (m' & Hout & Hr' & Hl'); [done|apply links_only_refl|done|simpl in *; lia..|].
    exists m'. split_and!.
    + unfold begin. rewrite (bind_Ok _ _ _ _ _ (get_next_Ok _ _ _ Hpa)).
      by rewrite (bind_Ok _ _ _ _ _ (get_next_Ok _ _ _ Han)).
    + pose proof (sorted_order_perm lamb lamb_t (key m) (a :: b :: rest)) as Hperm.
      split_and!.
      * exact Hr'.
      * intros H0. apply Hnull. rewrite list_elem_of_In in *.
        eapply Permutation_in; [symmetry; exact Hperm|done].
      * destruct Hl' as (_ & _ & -> & _). rewrite Hsz.
        by rewrite (Permutation_length Hperm).
      * by rewrite <- (Permutation_length Hperm).
    + done.
    + simpl. lia.
Qed.

End SortHeap.

(** ** Failure of node construction *)

Section Failure.
Context {T : Type} `{Element T}.
Implicit Types (m : Mem T) (p q : loc).

#[local] Abbreviation never_throws c := (@never_throws T _ c).

Lemma never_throws_bind {A B} (c : M T A) (k : A -> M T B) :
  never_throws c -> (forall a, never_throws (k a)) -> never_throws (bind c k).
Proof.
  intros Hc Hk m m'. unfold bind. destruct (c m) as [a m1|m1| |] eqn:E; try done.
  - apply Hk.
  - by apply Hc in E.
Qed.

Lemma never_throws_ret {A} (a : A) : never_throws (ret a : M T A).
Proof. done. Qed.
Lemma never_throws_get_next p : never_throws (get_next p).
Proof. intros m m'. unfold get_next. by destruct (nextf m p). Qed.
Lemma never_throws_get_prev p : never_throws (get_prev p).
Proof. intros m m'. unfold get_prev. by destruct (prevf m p). Qed.
Lemma never_throws_set_next p v : never_throws (set_next p v).
Proof. intros m m'. unfold set_next. by destruct (node_at m p). Qed.
Lemma never_throws_set_prev p v : never_throws (set_prev p v).
Proof. intros m m'. unfold set_prev. by destruct (node_at m p). Qed.
Lemma never_throws_get_sz p : never_throws (get_sz p).
Proof. intros m m'. unfold get_sz. by destruct (szs m !! p). Qed.
Lemma never_throws_set_sz p z : never_throws (set_sz p z).
Proof. intros m m'. unfold set_sz. by destruct (szs m !! p). Qed.

Lemma never_throws_insert_node old new : never_throws (insert_node old new).
Proof.
  unfold insert_node.
  repeat first [apply never_throws_bind; [|intros ?]
               |apply never_throws_set_next|apply never_throws_set_prev
               |apply never_throws_get_prev].
Qed.

Lemma never_throws_incr_sz this : never_throws (incr_sz this).
Proof.
  unfold incr_sz. apply never_throws_bind; [apply never_throws_get_sz|].
  intros ?. apply never_throws_set_sz.
Qed.

(** What memory an exception out of [obj_construct] leaves behind: either
    [allocate] threw and nothing changed, or the constructor threw and the
    storage just allocated is still there, raw. *)
Lemma obj_construct_Throw m el m' :
  obj_construct el m = Throw m' ->
  (alloc_left m = Some O /\ m' = m) \/
  (copy_throws el = true /\ alloc_left m <> Some O /\
   let p := fresh ({[nullptr]} ∪ dom (heap m)) in
   heap m !! p = None /\ heap m' = <[p := Raw]> (heap m) /\ szs m' = szs m).
Proof.
  unfold obj_construct, bind, allocate, construct.
  set (p := fresh ({[nullptr]} ∪ dom (heap m))).
  assert (heap m !! p = None) as Hfresh.
  { apply not_elem_of_dom. pose proof (is_fresh ({[nullptr]} ∪ dom (heap m))) as Hf.
    fold p in Hf. set_solver. }
  destruct (alloc_left m) as [[|n]|] eqn:E; simpl.
  - intros [= <-]. by left.
  - rewrite lookup_insert_eq. destruct (copy_throws el); [|done].
    intros [= <-]. right. by split_and!.
  - rewrite lookup_insert_eq. destruct (copy_throws el); [|done].
    intros [= <-]. right. by split_and!.
Qed.

(** The three single-node insertions share their failure paths. *)
Lemma guarded_construct_Throw {A} this el (k : loc -> M T A) m m' :
  (forall p, never_throws (k p)) ->
  (new_node <- try_catch (obj_construct el) (obj_destruct this nullptr ;; throw) ;;
   k new_node) m = Throw m' ->
  obj_construct el m = Throw m'.
Proof.
  intros Hk. unfold bind at 1. unfold try_catch at 1.
  destruct (obj_construct el m) as [p m1|m1| |] eqn:E; try done.
  - intros Hthrow. by apply Hk in Hthrow.
  - unfold bind, obj_destruct, throw. rewrite decide_True by done.
    by intros [= <-].
Qed.

Lemma never_throws_guarded {A} (body : M T A) (handler : M T A) :
  never_throws body -> never_throws (try_catch body handler).
Proof.
  intros Hb m m'. unfold try_catch.
  destruct (body m) eqn:E; try done. by apply Hb in E.
Qed.

Lemma push_back_Throw m this el m' :
  push_back this el m = Throw m' -> obj_construct el m = Throw m'.
Proof.
  apply guarded_construct_Throw. intros p. apply never_throws_guarded.
  apply never_throws_bind; [apply never_throws_insert_node|].
  intros _. apply never_throws_incr_sz.
Qed.

Lemma push_front_Throw m this el m' :
  push_front this el m = Throw m' -> obj_construct el m = Throw m'.
Proof.
  apply guarded_construct_Throw. intros p. apply never_throws_guarded.
  apply never_throws_bind; [apply never_throws_get_next|]. intros first.
  apply never_throws_bind; [apply never_throws_insert_node|].
  intros _. apply never_throws_incr_sz.
Qed.

Lemma insert_Throw m this it el m' :
  insert this it el m = Throw m' -> obj_construct el m = Throw m'.
Proof.
  apply guarded_construct_Throw. intros p.
  apply never_throws_bind; [|intros ?; apply never_throws_ret].
  apply never_throws_guarded.
  apply never_throws_bind; [apply never_throws_insert_node|].
  intros _. apply never_throws_incr_sz.
Qed.

End Failure.

(** ** clear, and what the assignments do in general *)

Section Lifecycle.
Context {T : Type} `{Element T}.
Implicit Types (m : Mem T) (p q : loc) (ps : list loc).

Lemma chain_nchain m xs : chain m xs -> nchain m xs.
Proof.
  induction xs as [|a [|b xs] IH]; [done|done|].
  intros [[Hn _] Hc]. split; [done|by apply IH].
Qed.

Lemma nchain_tail m a xs : nchain m (a :: xs) -> nchain m xs.
Proof. destruct xs; [done|]. by intros [_ ?]. Qed.

Lemma nchain_frame m m' xs :
  nchain m xs ->
  (forall a, a ∈ removelast xs -> nextf m' a = nextf m a) ->
  nchain m' xs.
Proof.
  induction xs as [|a [|b xs] IH]; [done|done|].
  intros [Hn Hc] Hnext. split.
  - rewrite Hnext; [done|]. simpl. left.
  - apply IH; [done|]. intros c Hc'. apply Hnext. simpl. by right.
Qed.

Lemma nchain_app m xs ys :
  nchain m (xs ++ ys) <->
  nchain m xs /\ nchain m ys /\
  (forall a b, last xs = Some a -> head ys = Some b -> nextf m a = Some b).
Proof.
  induction xs as [|a [|a' xs] IH].
  - simpl. split; [intros ?; by split_and!|by intros (_ & ? & _)].
  - simpl. destruct ys as [|b ys]; simpl.
    + split; [intros _; by split_and!|done].
    + split.
      * intros [? ?]. split_and!; [done|done|]. by intros ? ? [= <-] [= <-].
      * intros (_ & ? & Hl). split; [|done]. by apply Hl.
  - change (nchain m (a :: (a' :: xs) ++ ys) <->
            nchain m (a :: a' :: xs) /\ nchain m ys /\
            (forall a0 b, last (a' :: xs) = Some a0 -> head ys = Some b ->
                          nextf m a0 = Some b)).
    change (a :: (a' :: xs) ++ ys) with (a :: a' :: (xs ++ ys)).
    change (nchain m (a :: a' :: xs ++ ys))
      with (nextf m a = Some a' /\ nchain m ((a' :: xs) ++ ys)).
    change (nchain m (a :: a' :: xs))
      with (nextf m a = Some a' /\ nchain m (a' :: xs)).
    rewrite IH. tauto.
Qed.

Lemma walk_nchain m this xs fuel a :
  nchain m (a :: xs ++ [this]) -> this ∉ xs -> (length xs < fuel)%nat ->
  exists b, head (xs ++ [this]) = Some b /\ walk fuel m this b = Some xs.
Proof.
  revert a fuel. induction xs as [|b xs IH]; intros a fuel Hc Hni Hf.
  - exists this. split; [done|]. destruct fuel; [simpl in Hf; lia|].
    simpl. by rewrite decide_True.
  - exists b. split; [done|]. destruct fuel; [simpl in Hf; lia|].
    simpl. unfold end_. rewrite decide_False by set_solver.
    simpl in Hc. destruct Hc as [_ Hc].
    destruct (IH b fuel Hc) as (c & Hhd & Hw); [set_solver|simpl in Hf; lia|].
    assert (nextf m b = Some c) as ->.
    { destruct (xs ++ [this]) as [|c' l'] eqn:E; [done|].
      simpl in Hhd. injection Hhd as ->. by destruct Hc as [? _]. }
    by rewrite Hw.
Qed.

Lemma heap_upd_next_ne m p v q : q <> p -> heap (upd_next p v m) !! q = heap m !! q.
Proof. intros Hne. simpl. by rewrite lookup_alter_ne. Qed.
Lemma heap_upd_prev_ne m p v q : q <> p -> heap (upd_prev p v m) !! q = heap m !! q.
Proof. intros Hne. simpl. by rewrite lookup_alter_ne. Qed.

Lemma nextf_free_cell m p q : q <> p -> nextf (free_cell p m) q = nextf m q.
Proof. intros Hne. unfold nextf. rewrite node_at_free_cell. by rewrite decide_False. Qed.
Lemma prevf_free_cell m p q : q <> p -> prevf (free_cell p m) q = prevf m q.
Proof. intros Hne. unfold prevf. rewrite node_at_free_cell. by rewrite decide_False. Qed.
Lemma dataf_free_cell m p q : q <> p -> dataf (free_cell p m) q = dataf m q.
Proof. intros Hne. unfold dataf. rewrite node_at_free_cell. by rewrite decide_False. Qed.

(** The loop of [clear] frees the nodes it walks over, one by one. *)
Lemma clear_loop_spec this :
  forall B m fuel del_node,
    nchain m (this :: B ++ [this]) -> NoDup (this :: B) -> nullptr ∉ B ->
    head (B ++ [this]) = Some del_node -> (length B < fuel)%nat ->
    exists m',
      clear_loop fuel this del_node m = Ok tt m' /\
      nextf m' this = Some this /\
      prevf m' this = prevf m this /\ dataf m' this = dataf m this /\
      (forall q, q ∈ B -> heap m' !! q = None) /\
      (forall q, q ∉ this :: B -> heap m' !! q = heap m !! q) /\
      szs m' = szs m /\ alloc_left m' = alloc_left m.
Proof.
  induction B as [|b B IH]; intros m fuel del_node Hc Hnd Hnull Hdel Hfuel.
  - simpl in Hdel. injection Hdel as <-. destruct fuel; [simpl in Hfuel; lia|].
    exists m. simpl. rewrite decide_True by done. simpl in Hc.
    split_and!; try done. by destruct Hc. by intros ? ?%elem_of_nil.
  - simpl in Hdel. injection Hdel as <-. destruct fuel; [simpl in Hfuel; lia|].
    assert (b <> this) as Hbt.
    { intros ->. apply NoDup_cons in Hnd as [Hni _]. apply Hni. left. }
    assert (b <> nullptr) as Hb0 by (intros ->; apply Hnull; left).
    assert (b ∉ B) as HbB.
    { apply NoDup_cons in Hnd as [_ Hnd]. by apply NoDup_cons in Hnd as [? _]. }
    simpl in Hc. destruct Hc as [Htb Hc].
    assert (exists nn, head (B ++ [this]) = Some nn) as [nn Hnn].
    { destruct B; simpl; eauto. }
    assert (nextf m b = Some nn) as Hbn.
    { destruct (B ++ [this]) as [|c l'] eqn:E; [done|].
      simpl in Hnn. injection Hnn as ->. by destruct Hc as [? _]. }
    assert (is_Some (node_at m this)) as Hnt by (by eapply nextf_is_node).
    assert (is_Some (node_at m b)) as Hnb by (by eapply nextf_is_node).
    set (m1 := upd_next this nn m). set (m2 := free_cell b m1).
    assert (nextf m2 this = Some nn) as Htn2.
    { unfold m2. rewrite nextf_free_cell by done. unfold m1.
      rewrite nextf_upd_next_node by done. by rewrite decide_True. }
    destruct (IH m2 fuel nn) as (m' & Hloop & Hself & Hpv & Hdt & Hfreed & Hframe & Hs & Ha).
    + assert (nchain m2 (B ++ [this])) as Hc2.
      { eapply nchain_frame; [exact (nchain_tail _ _ _ Hc)|].
        intros a Ha. rewrite removelast_last in Ha.
        assert (a <> b) by (by intros ->).
        assert (a <> this).
        { intros ->. apply NoDup_cons in Hnd as [Hni _]. apply Hni. by right. }
        unfold m2. rewrite nextf_free_cell by done. unfold m1.
        rewrite nextf_upd_next_node by done. by rewrite decide_False. }
      destruct (B ++ [this]) as [|c l'] eqn:E; [done|].
      simpl in Hnn. injection Hnn as ->. split; [done|exact Hc2].
    + apply NoDup_cons in Hnd as [Hni Hnd]. apply NoDup_cons in Hnd as [_ Hnd].
      apply NoDup_cons. split; [|done]. intros ?. apply Hni. by right.
    + intros ?. apply Hnull. by right.
    + done.
    + simpl in Hfuel. lia.
    + exists m'. split_and!.
      * simpl. unfold end_. rewrite decide_False by done.
        rewrite (bind_Ok _ _ _ _ _ (get_next_Ok _ _ _ Htb)).
        rewrite (bind_Ok _ _ _ _ _ (get_next_Ok _ _ _ Hbn)).
        rewrite (bind_Ok _ _ _ _ _ (set_next_Ok _ _ nn Hnt)). fold m1.
        assert (is_Some (node_at m1 b)) as Hnb1 by (by apply is_node_upd_next).
        rewrite (bind_Ok _ _ _ _ _ (obj_destruct_Ok _ this _ Hb0 ltac:(done) Hnb1)). fold m2.
        by rewrite (bind_Ok _ _ _ _ _ (get_next_Ok _ _ _ Htn2)).
      * done.
      * rewrite Hpv. unfold m2. rewrite prevf_free_cell by done.
        unfold m1. by rewrite prevf_upd_next.
      * rewrite Hdt. unfold m2. rewrite dataf_free_cell by done.
        unfold m1. by rewrite dataf_upd_next.
      * intros q [->|Hq]%elem_of_cons; [|by apply Hfreed].
        rewrite Hframe by set_solver. simpl. apply lookup_delete_eq.
      * intros q Hq. rewrite Hframe by set_solver.
        simpl. rewrite lookup_delete_ne by set_solver.
        rewrite lookup_alter_ne by set_solver. done.
      * by rewrite Hs.
      * by rewrite Ha.
Qed.

(** A container only depends on its own cells and its own [sz_]. *)
Lemma is_list_frame m m' l ps :
  is_list m l ps ->
  (forall q, q ∈ l :: ps -> heap m' !! q = heap m !! q) ->
  szs m' !! l = szs m !! l ->
  is_list m' l ps.
Proof.
  intros (Hr & Hnull & Hsz & Hb) Hsame Hs. split_and!; try done.
  - eapply ring_frame; [exact Hr|]. intros q Hq.
    unfold nextf, prevf, node_at. by rewrite Hsame.
  - by rewrite Hs.
Qed.

Lemma clear_spec m this ps fuel :
  is_list m this ps -> (length ps < fuel)%nat ->
  exists m',
    clear fuel this m = Ok tt m' /\
    is_list m' this [] /\
    dataf m' this = dataf m this /\
    (forall q, q ∈ ps -> heap m' !! q = None) /\
    (forall q, q ∉ this :: ps -> heap m' !! q = heap m !! q) /\
    (forall l, l <> this -> szs m' !! l = szs m !! l) /\
    alloc_left m' = alloc_left m.
Proof.
  intros ([Hnd Hc] & Hnull & Hsz & Hb) Hfuel.
  assert (exists d, head (ps ++ [this]) = Some d) as [d Hd].
  { destruct ps; simpl; eauto. }
  assert (nextf m this = Some d) as Htd.
  { simpl in Hc. destruct (ps ++ [this]) as [|c l'] eqn:E; [done|].
    simpl in Hd. injection Hd as ->. by destruct Hc as [[? _] _]. }
  destruct (clear_loop_spec this ps m fuel d)
    as (m1 & Hloop & Hself & Hpv & Hdt & Hfreed & Hframe & Hs & Ha);
    [by apply chain_nchain|done..|].
  assert (is_Some (node_at m1 this)) as Hnt by (by eapply nextf_is_node).
  exists (upd_sz this 0 (upd_prev this this m1)). split_and!.
  - unfold clear. rewrite (bind_Ok _ _ _ _ _ (get_next_Ok _ _ _ Htd)).
    rewrite (bind_Ok _ _ _ _ _ Hloop).
    rewrite (bind_Ok _ _ _ _ _ (set_prev_Ok _ _ this Hnt)).
    apply set_sz_Ok. simpl. rewrite Hs, Hsz. done.
  - split_and!.
    + split; [apply NoDup_singleton|]. simpl. split; [|done]. split.
      * rewrite nextf_upd_sz, nextf_upd_prev. done.
      * rewrite prevf_upd_sz, prevf_upd_prev_node by done. by rewrite decide_True.
    + by intros ?%elem_of_nil.
    + simpl. by rewrite lookup_insert_eq.
    + simpl. done.
  - by rewrite dataf_upd_sz, dataf_upd_prev.
  - intros q Hq. simpl. rewrite lookup_alter_ne; [by apply Hfreed|].
    intros ->. apply NoDup_cons in Hnd as [Hni _]. done.
  - intros q Hq. simpl. rewrite lookup_alter_ne by set_solver. by apply Hframe.
  - intros l Hl. simpl. rewrite lookup_insert_ne by done. by rewrite Hs.
  - done.
Qed.

(** Copy assignment of a container to itself clears it, whatever it held. *)
Lemma copy_self_assign_clears m this ps fuel :
  is_list m this ps -> (length ps < fuel)%nat ->
  exists m',
    copy_assign fuel this this m = Ok tt m' /\
    is_list m' this [] /\ (forall q, q ∈ ps -> heap m' !! q = None).
Proof.
  intros Hlist Hfuel.
  destruct (clear_spec m this ps fuel Hlist Hfuel)
    as (m' & Hclear & Hlist' & _ & Hfreed & _).
  exists m'. split_and!; [|done..].
  unfold copy_assign. rewrite (bind_Ok _ _ _ _ _ Hclear).
  destruct Hlist' as ([_ [[Hn _] _]] & _).
  unfold begin. rewrite (bind_Ok _ _ _ _ _ (get_next_Ok _ _ _ Hn)).
  destruct fuel; [lia|]. simpl. by rewrite decide_True.
Qed.

(** The link transfer of move assignment (after [clear]): the links of
    the source's sentinel are adopted and the two nodes they name are
    pointed back at the destination, whether or not they are real nodes. *)
Lemma move_links_Ok m this other fb lb sa sb :
  nextf m other = Some fb -> prevf m other = Some lb ->
  is_Some (node_at m this) -> is_Some (node_at m fb) -> is_Some (node_at m lb) ->
  this <> fb ->
  szs m !! this = Some sa -> szs m !! other = Some sb ->
  exists m',
    (n <- get_next other ;; set_next this n ;;
     p <- get_prev other ;; set_prev this p ;;
     n <- get_next this ;; set_prev n this ;;
     p <- get_prev this ;; set_next p this ;;
     set_next other other ;;
     set_prev other other ;;
     s <- get_sz other ;; set_sz this s ;;
     set_sz other 0) m = Ok tt m' /\
    (forall q, nextf m' q = if decide (q = other) then Some other
                            else if decide (q = lb) then Some this
                            else if decide (q = this) then Some fb
                            else nextf m q) /\
    (forall q, prevf m' q = if decide (q = other) then Some other
                            else if decide (q = fb) then Some this
                            else if decide (q = this) then Some lb
                            else prevf m q) /\
    (forall q, dataf m' q = dataf m q) /\
    szs m' = <[other := 0]> (<[this := sb]> (szs m)) /\
    alloc_left m' = alloc_left m.
Proof.
  intros Hfb Hlb Hnt Hnfb Hnlb Htfb Hsa Hsb.
  assert (is_Some (node_at m other)) as Hno by (by eapply nextf_is_node).
  set (m1 := upd_next this fb m). set (m2 := upd_prev this lb m1).
  set (m3 := upd_prev fb this m2). set (m4 := upd_next lb this m3).
  set (m5 := upd_next other other m4). set (m6 := upd_prev other other m5).
  assert (forall q, is_Some (node_at m q) -> is_Some (node_at m1 q)) as N1
    by (intros; by apply is_node_upd_next).
  assert (forall q, is_Some (node_at m q) -> is_Some (node_at m2 q)) as N2
    by (intros; by apply is_node_upd_prev, N1).
  assert (forall q, is_Some (node_at m q) -> is_Some (node_at m3 q)) as N3
    by (intros; by apply is_node_upd_prev, N2).
  assert (forall q, is_Some (node_at m q) -> is_Some (node_at m4 q)) as N4
    by (intros; by apply is_node_upd_next, N3).
  assert (forall q, is_Some (node_at m q) -> is_Some (node_at m5 q)) as N5
    by (intros; by apply is_node_upd_next, N4).
  assert (prevf m1 other = Some lb) as Hlb1 by (unfold m1; by rewrite prevf_upd_next).
  assert (nextf m2 this = Some fb) as Hfb2.
  { unfold m2, m1. rewrite nextf_upd_prev, nextf_upd_next_node by done.
    by rewrite decide_True. }
  assert (prevf m3 this = Some lb) as Hlb3.
  { unfold m3. rewrite prevf_upd_prev_node by (by apply N2).
    rewrite decide_False by done. unfold m2.
    rewrite prevf_upd_prev_node by (by apply N1). by rewrite decide_True. }
  exists (upd_sz other 0 (upd_sz this sb m6)). split_and!.
  - rewrite (bind_Ok _ _ _ _ _ (get_next_Ok _ _ _ Hfb)).
    rewrite (bind_Ok _ _ _ _ _ (set_next_Ok _ _ fb Hnt)). fold m1.
    rewrite (bind_Ok _ _ _ _ _ (get_prev_Ok _ _ _ Hlb1)).
    rewrite (bind_Ok _ _ _ _ _ (set_prev_Ok _ _ lb (N1 _ Hnt))). fold m2.
    rewrite (bind_Ok _ _ _ _ _ (get_next_Ok _ _ _ Hfb2)).
    rewrite (bind_Ok _ _ _ _ _ (set_prev_Ok _ _ this (N2 _ Hnfb))). fold m3.
    rewrite (bind_Ok _ _ _ _ _ (get_prev_Ok _ _ _ Hlb3)).
    rewrite (bind_Ok _ _ _ _ _ (set_next_Ok _ _ this (N3 _ Hnlb))). fold m4.
    rewrite (bind_Ok _ _ _ _ _ (set_next_Ok _ _ other (N4 _ Hno))). fold m5.
    rewrite (bind_Ok _ _ _ _ _ (set_prev_Ok _ _ other (N5 _ Hno))). fold m6.
    rewrite (bind_Ok _ _ _ _ _ (get_sz_Ok m6 _ _ Hsb)).
    rewrite (bind_Ok _ _ _ _ _ (set_sz_Ok m6 this sb (mk_is_Some _ _ Hsa))).
    apply set_sz_Ok. simpl. destruct (decide (this = other)) as [->|Hne].
    + by rewrite lookup_insert_eq.
    + rewrite lookup_insert_ne by done. exact (mk_is_Some _ _ Hsb).
  - intros q. rewrite !nextf_upd_sz. unfold m6. rewrite nextf_upd_prev.
    unfold m5. rewrite nextf_upd_next_node by (by apply N4).
    case_decide; [done|]. unfold m4.
    rewrite nextf_upd_next_node by (by apply N3). case_decide; [done|].
    unfold m3, m2. rewrite !nextf_upd_prev. unfold m1.
    by rewrite nextf_upd_next_node.
  - intros q. rewrite !prevf_upd_sz. unfold m6.
    rewrite prevf_upd_prev_node by (by apply N5). case_decide; [done|].
    unfold m5, m4. rewrite !prevf_upd_next. unfold m3.
    rewrite prevf_upd_prev_node by (by apply N2). case_decide; [done|].
    unfold m2. rewrite prevf_upd_prev_node by (by apply N1).
    case_decide; [done|]. unfold m1. by rewrite prevf_upd_next.
  - intros q. rewrite !dataf_upd_sz. unfold m6, m5, m4, m3, m2, m1.
    by rewrite dataf_upd_prev, !dataf_upd_next, !dataf_upd_prev, dataf_upd_next.
  - done.
  - done.
Qed.

(** The two ends of a ring, seen from its sentinel. *)
Lemma ring_ends m this ps :
  ring m this ps ->
  exists fb lb, head (ps ++ [this]) = Some fb /\ last (this :: ps) = Some lb /\
                nextf m this = Some fb /\ prevf m this = Some lb.
Proof.
  intros Hr.
  destruct (ring_cut m this [] ps Hr) as (p & n & Hp & Hn & [Hl1 _] & _).
  simpl in Hp. injection Hp as <-.
  assert (ring m this (ps ++ [])) as Hr' by (by rewrite app_nil_r).
  destruct (ring_cut m this ps [] Hr') as (p' & n' & Hp' & Hn' & [_ Hl2] & _).
  simpl in Hn'. injection Hn' as <-. by exists n, p'.
Qed.

(** Move assignment between two distinct well-formed containers: the
    source ends up empty; the destination takes over the source's nodes
    when there are any, and is left pointing at the source's sentinel
    when there are none. *)
Lemma move_assign_spec m a b psa psb fuel :
  is_list m a psa -> is_list m b psb ->
  (forall q, q ∈ a :: psa -> q ∉ b :: psb) ->
  (length psa < fuel)%nat ->
  exists m',
    move_assign fuel a b m = Ok tt m' /\
    is_list m' b [] /\
    (psb <> [] -> is_list m' a psb /\ forall q, q ∈ psb -> dataf m' q = dataf m q) /\
    (psb = [] -> nextf m' a = Some b /\ prevf m' a = Some b /\
                 nextf m' b = Some b).
Proof.
  intros Ha Hb Hdisj Hfuel.
  assert (a <> b) as Hab by (intros ->; apply (Hdisj b); left).
  destruct (clear_spec m a psa fuel Ha Hfuel)
    as (m1 & Hclear & Ha1 & _ & _ & Hframe & Hszs & _).
  assert (forall q, q ∈ b :: psb -> heap m1 !! q = heap m !! q) as Hsame.
  { intros q Hq. apply Hframe. intros Hq'. by apply (Hdisj q). }
  assert (is_list m1 b psb) as Hb1.
  { eapply is_list_frame; [exact Hb|done|]. by apply Hszs. }
  destruct Hb1 as (Hrb & Hnullb & Hszb & Hbb).
  destruct (ring_ends _ _ _ Hrb) as (fb & lb & Hfb & Hlb & Hnfb & Hplb).
  assert (fb ∈ b :: psb) as Hfbin.
  { apply head_elem_of in Hfb. set_solver. }
  assert (lb ∈ b :: psb) as Hlbin by (by apply last_elem_of).
  assert (a <> fb) as Hafb by (intros <-; apply (Hdisj a); [left|done]).
  assert (a <> lb) as Halb by (intros <-; apply (Hdisj a); [left|done]).
  destruct Ha1 as (Hra1 & _ & Hsza1 & _).
  simpl in Hsza1.
  destruct (move_links_Ok m1 a b fb lb 0 (Z.of_nat (length psb)) Hnfb Hplb)
    as (m' & Hmove & Hnx & Hpv & Hdt & Hs & Hal); try done.
  { eapply ring_is_node; [exact Hra1|left]. }
  { by eapply ring_is_node. }
  { by eapply ring_is_node. }
  exists m'. split_and!.
  - unfold move_assign. by rewrite (bind_Ok _ _ _ _ _ Hclear).
  - split_and!.
    + split; [apply NoDup_singleton|]. simpl. split; [|done].
      split; [rewrite Hnx|rewrite Hpv]; by rewrite decide_True.
    + by intros ?%elem_of_nil.
    + rewrite Hs. by rewrite lookup_insert_eq.
    + done.
  - intros Hne.
    assert (fb ∈ psb) as Hfb'.
    { destruct psb as [|x psb']; [done|]. simpl in Hfb. injection Hfb as <-. left. }
    assert (lb ∈ psb) as Hlb'.
    { destruct psb as [|x psb'] using rev_ind; [done|].
      rewrite app_comm_cons, last_snoc in Hlb. injection Hlb as <-. set_solver. }
    destruct Hrb as [Hndb Hcb].
    assert (b ∉ psb) as Hbn by (by apply NoDup_cons in Hndb as [? _]).
    assert (NoDup psb) as Hndp by (by apply NoDup_cons in Hndb as [_ ?]).
    assert (a ∉ psb) as Han.
    { intros Hin. apply (Hdisj a); [left|by right]. }
    assert (head psb = Some fb) as Hhd.
    { destruct psb as [|x psb']; [done|]. simpl in Hfb. by injection Hfb as <-. }
    assert (last psb = Some lb) as Hla.
    { destruct psb as [|x psb'] using rev_ind; [done|].
      rewrite app_comm_cons, last_snoc in Hlb. by rewrite last_snoc. }
    split.
    + split_and!; try done.
      * split; [by apply NoDup_cons|].
        change (a :: psb ++ [a]) with ([a] ++ psb ++ [a]).
        apply chain_app. split_and!; [done| |].
        -- apply chain_app. split_and!; [|done|].
           ++ change (b :: psb ++ [b]) with ([b] ++ psb ++ [b]) in Hcb.
              apply chain_app in Hcb as (_ & Hcb & _).
              apply chain_app in Hcb as (Hcb & _ & _).
              eapply chain_frame; [exact Hcb| |].
              ** intros x Hx. rewrite Hnx.
                 pose proof (NoDup_last_removelast lb psb Hndp Hla) as Hlr.
                 apply elem_of_removelast in Hx as Hx'.
                 rewrite decide_False by (by intros ->).
                 rewrite decide_False by (by intros ->).
                 by rewrite decide_False by (by intros ->).
              ** intros x Hx. rewrite Hpv.
                 pose proof (NoDup_head_tail fb psb Hndp Hhd) as Hht.
                 apply elem_of_tail in Hx as Hx'.
                 rewrite decide_False by (by intros ->).
                 rewrite decide_False by (by intros ->).
                 by rewrite decide_False by (by intros ->).
           ++ intros x y Hx [= <-]. assert (x = lb) as -> by congruence.
              split; [rewrite Hnx|rewrite Hpv].
              ** rewrite decide_False by (by intros ->). by rewrite decide_True.
              ** rewrite decide_False by done.
                 rewrite decide_False by done. by rewrite decide_True.
        -- intros x y [= <-] Hy.
           assert (y = fb) as ->.
           { destruct psb as [|z psb']; [done|]. simpl in Hy, Hhd. congruence. }
           split; [rewrite Hnx|rewrite Hpv].
           ++ rewrite decide_False by done.
              rewrite decide_False by done. by rewrite decide_True.
           ++ rewrite decide_False by (by intros ->). by rewrite decide_True.
      * rewrite Hs. rewrite lookup_insert_ne by done. by rewrite lookup_insert_eq.
    + intros q Hq. rewrite Hdt. unfold dataf, node_at.
      rewrite Hsame; [done|by right].
  - intros ->. simpl in Hfb, Hlb. injection Hfb as <-. injection Hlb as <-.
    split_and!.
    + rewrite Hnx. rewrite decide_False by done.
      rewrite decide_False by done. by rewrite decide_True.
    + rewrite Hpv. rewrite decide_False by done.
      rewrite decide_False by done. by rewrite decide_True.
    + rewrite Hnx. by rewrite decide_True.
Qed.

(** Once two sentinels have exchanged their [next_], forward iteration
    from [a] runs through [b]'s nodes, over [b]'s sentinel (their last
    node still points at it) and on through [a]'s own nodes. *)
Lemma crossed_walk m m' a b psa psb fa fb fuel :
  ring m a psa -> ring m b psb ->
  (forall q, q ∈ a :: psa -> q ∉ b :: psb) ->
  nextf m a = Some fa -> nextf m b = Some fb ->
  (forall q, nextf m' q = if decide (q = b) then Some fa
                          else if decide (q = a) then Some fb else nextf m q) ->
  (length psa + length psb + 1 < fuel)%nat ->
  nodes_of fuel m' a = Some (psb ++ b :: psa).
Proof.
  intros [Hnda Hca] [Hndb Hcb] Hdisj Hfa Hfb Hnx Hfuel.
  assert (a <> b) as Hab by (intros ->; apply (Hdisj b); left).
  assert (head (psa ++ [a]) = Some fa) as Hha.
  { simpl in Hca. destruct (psa ++ [a]) as [|c l'] eqn:E; [by destruct psa|].
    destruct Hca as [[Hn _] _]. simpl. congruence. }
  assert (head (psb ++ [b]) = Some fb) as Hhb.
  { simpl in Hcb. destruct (psb ++ [b]) as [|c l'] eqn:E; [by destruct psb|].
    destruct Hcb as [[Hn _] _]. simpl. congruence. }
  assert (nchain m' ((a :: psb ++ [b]) ++ (psa ++ [a]))) as Hc.
  { apply nchain_app. split_and!.
    - change (a :: psb ++ [b]) with ([a] ++ (psb ++ [b])).
      apply nchain_app. split_and!; [done| |].
      + eapply nchain_frame; [exact (nchain_tail _ _ _ (chain_nchain _ _ Hcb))|].
        intros x Hx. rewrite removelast_last in Hx. rewrite Hnx.
        rewrite decide_False.
        * rewrite decide_False; [done|]. intros ->. apply (Hdisj a); [left|by right].
        * intros ->. by apply NoDup_cons in Hndb as [? _].
      + intros x y [= <-] Hy. rewrite Hnx. rewrite decide_False by done.
        rewrite decide_True by done. congruence.
    - eapply nchain_frame; [exact (nchain_tail _ _ _ (chain_nchain _ _ Hca))|].
      intros x Hx. rewrite removelast_last in Hx. rewrite Hnx.
      rewrite decide_False.
      + rewrite decide_False; [done|]. intros ->.
        by apply NoDup_cons in Hnda as [? _].
      + intros ->. apply (Hdisj b); [by right|left].
    - intros x y Hx Hy. rewrite app_comm_cons, last_snoc in Hx.
      injection Hx as <-. rewrite Hnx. rewrite decide_True by done. congruence. }
  replace ((a :: psb ++ [b]) ++ psa ++ [a]) with (a :: (psb ++ b :: psa) ++ [a]) in Hc.
  2:{ simpl. by rewrite <- !app_assoc. }
  destruct (walk_nchain m' a (psb ++ b :: psa) fuel a Hc) as (x & Hx & Hw).
  - intros [Hin|[->|Hin]%elem_of_cons]%elem_of_app.
    + apply (Hdisj a); [left|by right].
    + done.
    + by apply NoDup_cons in Hnda as [? _].
  - rewrite length_app. simpl. lia.
  - unfold nodes_of. rewrite Hnx. rewrite decide_False by done.
    rewrite decide_True by done.
    assert (x = fb) as ->; [|done].
    rewrite <- app_assoc in Hx.
    destruct psb as [|z psb']; simpl in Hx, Hhb; congruence.
Qed.

(** swap between any two distinct well-formed containers: sizes are
    exchanged, but each container's forward iteration runs through the
    other's nodes, the other's sentinel, and then its own old nodes. *)
Lemma swap_spec m a b psa psb fuel :
  is_list m a psa -> is_list m b psb ->
  (forall q, q ∈ a :: psa -> q ∉ b :: psb) ->
  (length psa + length psb + 1 < fuel)%nat ->
  exists m',
    swap a b m = Ok tt m' /\
    nodes_of fuel m' a = Some (psb ++ b :: psa) /\
    nodes_of fuel m' b = Some (psa ++ a :: psb) /\
    (forall q, dataf m' q = dataf m q) /\
    size a m' = size b m /\ size b m' = size a m.
Proof.
  intros (Hra & _ & Hsa & _) (Hrb & _ & Hsb & _) Hdisj Hfuel.
  assert (a <> b) as Hab by (intros ->; apply (Hdisj b); left).
  destruct (ring_ends _ _ _ Hra) as (fa & la & _ & _ & Hfa & Hla).
  destruct (ring_ends _ _ _ Hrb) as (fb & lb & _ & _ & Hfb & Hlb).
  assert (is_Some (node_at m a)) as Hna by (by eapply nextf_is_node).
  assert (is_Some (node_at m b)) as Hnb by (by eapply nextf_is_node).
  set (m1 := upd_next a fb m). set (m2 := upd_next b fa m1).
  set (m3 := upd_prev a lb m2). set (m4 := upd_prev b la m3).
  set (sa := Z.of_nat (length psa)) in *. set (sb := Z.of_nat (length psb)) in *.
  assert (is_Some (node_at m1 b)) as Hnb1 by (by apply is_node_upd_next).
  assert (is_Some (node_at m2 a)) as Hna2 by (by apply is_node_upd_next, is_node_upd_next).
  assert (is_Some (node_at m3 b)) as Hnb3
    by (by apply is_node_upd_prev, is_node_upd_next).
  assert (prevf m2 a = Some la) as Hla2 by (unfold m2, m1; by rewrite !prevf_upd_next).
  assert (prevf m2 b = Some lb) as Hlb2 by (unfold m2, m1; by rewrite !prevf_upd_next).
  assert (forall q, nextf m4 q = if decide (q = b) then Some fa
                                 else if decide (q = a) then Some fb else nextf m q) as Hnx.
  { intros q. unfold m4, m3. rewrite !nextf_upd_prev. unfold m2.
    rewrite nextf_upd_next_node by done. case_decide; [done|].
    unfold m1. by rewrite nextf_upd_next_node. }
  exists (upd_sz b sa (upd_sz a sb m4)). split_and!.
  - unfold swap. rewrite decide_False by done.
    rewrite (bind_Ok _ _ _ _ _ (get_next_Ok _ _ _ Hfa)).
    rewrite (bind_Ok _ _ _ _ _ (get_next_Ok _ _ _ Hfb)).
    rewrite (bind_Ok _ _ _ _ _ (set_next_Ok _ _ fb Hna)). fold m1.
    rewrite (bind_Ok _ _ _ _ _ (set_next_Ok _ _ fa Hnb1)). fold m2.
    rewrite (bind_Ok _ _ _ _ _ (get_prev_Ok _ _ _ Hla2)).
    rewrite (bind_Ok _ _ _ _ _ (get_prev_Ok _ _ _ Hlb2)).
    rewrite (bind_Ok _ _ _ _ _ (set_prev_Ok _ _ lb Hna2)). fold m3.
    rewrite (bind_Ok _ _ _ _ _ (set_prev_Ok _ _ la Hnb3)). fold m4.
    rewrite (bind_Ok _ _ _ _ _ (get_sz_Ok m4 _ _ Hsa)).
    rewrite (bind_Ok _ _ _ _ _ (get_sz_Ok m4 _ _ Hsb)).
    rewrite (bind_Ok _ _ _ _ _ (set_sz_Ok m4 a sb (mk_is_Some _ _ Hsa))).
    apply set_sz_Ok. simpl. rewrite lookup_insert_ne by done.
    exact (mk_is_Some _ _ Hsb).
  - eapply (crossed_walk m _ a b psa psb fa fb); try done.
  - eapply (crossed_walk m _ b a psb psa fb fa); try done.
    + intros q Hq Hq'. by apply (Hdisj q).
    + intros q. rewrite !nextf_upd_sz, Hnx.
      destruct (decide (q = a)) as [->|]; [by rewrite decide_False|done].
    + lia.
  - intros q. rewrite !dataf_upd_sz. unfold m4, m3, m2, m1.
    by rewrite !dataf_upd_prev, !dataf_upd_next.
  - unfold size. simpl. rewrite lookup_insert_ne by done.
    by rewrite lookup_insert_eq.
  - unfold size. simpl. by rewrite lookup_insert_eq.
Qed.

(** [obj_construct] when neither the allocator nor the constructor
    fails: a fresh, non-null cell holds the new node, with null links. *)
Lemma obj_construct_Ok m el :
  alloc_left m = None -> copy_throws el = false ->
  exists p m1,
    obj_construct el m = Ok p m1 /\
    p <> nullptr /\ heap m !! p = None /\
    heap m1 = <[p := Obj (mkNode el nullptr nullptr)]> (heap m) /\
    szs m1 = szs m /\ alloc_left m1 = None.
Proof.
  intros Hal Hct. set (p := fresh ({[nullptr]} ∪ dom (heap m))).
  pose proof (is_fresh ({[nullptr]} ∪ dom (heap m))) as Hf. fold p in Hf.
  exists p, (mkMem (<[p := Obj (mkNode el nullptr nullptr)]> (heap m)) (szs m) None).
  split_and!; try done.
  - unfold obj_construct, bind, allocate, construct. fold p. rewrite Hal. simpl.
    rewrite lookup_insert_eq, Hct. unfold ret. f_equal.
    by rewrite insert_insert_eq.
  - intros Hp. apply Hf. rewrite Hp. set_solver.
  - apply not_elem_of_dom. set_solver.
Qed.

Lemma node_at_fresh m m1 p n q :
  heap m1 = <[p := Obj n]> (heap m) ->
  node_at m1 q = if decide (q = p) then Some n else node_at m q.
Proof.
  intros Hh. unfold node_at. rewrite Hh. case_decide.
  - subst. by rewrite lookup_insert_eq.
  - by rewrite lookup_insert_ne.
Qed.

(** The loop of copy-merge. *)
Lemma merge_loop_spec a b psb :
  forall C D m psA fuel it nn,
    psb = D ++ C ->
    ring m a psA -> ring m b psb ->
    (forall q, q ∈ a :: psA -> q ∉ b :: psb) ->
    alloc_left m = None ->
    (forall q, q ∈ C -> copy_throws (key m q) = false) ->
    head (C ++ [b]) = Some it -> (length C < fuel)%nat ->
    exists m' news,
      merge_loop fuel a b it nn m = Ok tt m' /\
      ring m' a (psA ++ news) /\ ring m' b psb /\
      map (key m') news = map (key m) C /\
      (forall q, q ∈ a :: psA ++ b :: psb -> dataf m' q = dataf m q) /\
      (forall q, q ∈ news -> heap m !! q = None /\ q <> nullptr) /\
      szs m' = szs m /\ alloc_left m' = None.
Proof.
  induction C as [|c C IH]; intros D m psA fuel it nn -> Hra Hrb Hdisj Hal Hct Hit Hfuel.
  - simpl in Hit. injection Hit as <-. destruct fuel; [simpl in Hfuel; lia|].
    exists m, []. simpl. rewrite decide_True by done. rewrite app_nil_r.
    split_and!; try done. by intros ? ?%elem_of_nil.
  - simpl in Hit. injection Hit as <-. destruct fuel; [simpl in Hfuel; lia|].
    destruct (ring_neighbours _ _ _ _ _ Hrb)
      as (pc & n & _ & Hhn & _ & [Hcn _] & _ & _).
    assert (c ∉ b :: D ++ C) as HcN by (destruct Hrb; by apply NoDup_mid_notin).
    assert (c <> b) as Hcb by set_solver.
    assert (is_Some (node_at m c)) as Hnc by (by eapply nextf_is_node).
    assert (dataf m c = Some (key m c)) as Hdc.
    { apply dataf_key; [apply links_only_refl|done]. }
    destruct (obj_construct_Ok m (key m c) Hal) as (p & m1 & Hoc & Hp0 & Hpf & Hh1 & Hs1 & Hal1).
    { apply Hct. left. }
    assert (forall q, node_at m1 q =
              if decide (q = p) then Some (mkNode (key m c) nullptr nullptr)
              else node_at m q) as Hn1 by (intros q; by apply node_at_fresh).
    assert (forall q, is_Some (node_at m q) -> q <> p) as Hfresh.
    { intros q [x Hx] ->. unfold node_at in Hx. by rewrite Hpf in Hx. }
    assert (forall q, is_Some (node_at m q) -> node_at m1 q = node_at m q) as Hold.
    { intros q Hq. rewrite Hn1. rewrite decide_False; [done|by apply Hfresh]. }
    destruct (ring_ends _ _ _ Hra) as (fa & la & _ & Hla & _ & Hpla).
    assert (is_Some (node_at m a)) as Hna by (eapply ring_is_node; [exact Hra|left]).
    assert (is_Some (node_at m la)) as Hnla.
    { eapply ring_is_node; [exact Hra|by apply last_elem_of]. }
    assert (prevf m1 a = Some la) as Hpla1 by (unfold prevf; by rewrite Hold).
    destruct (insert_node_Ok m1 a p la Hpla1) as (m2 & Hins & Hl2 & Hnx2 & Hpv2).
    { rewrite Hn1. by rewrite decide_True. }
    { by rewrite Hold. }
    { intros ->. by apply (Hfresh a). }
    { intros ->. by apply (Hfresh la). }
    assert (forall q, q ∈ a :: psA ++ b :: D ++ c :: C -> is_Some (node_at m q)) as Hnodes.
    { intros q [->|[Hq|Hq]%elem_of_app]%elem_of_cons.
      - done.
      - eapply ring_is_node; [exact Hra|by right].
      - by apply (ring_is_node m b (D ++ c :: C)). }
    assert (ring m1 a psA) as Hra1.
    { eapply ring_frame; [exact Hra|]. intros q Hq. unfold nextf, prevf.
      rewrite Hold; [done|]. by apply (ring_is_node m a psA). }
    assert (ring m2 a (psA ++ [p])) as Hra2.
    { eapply (ring_insert m1 m2 a psA [] p la a); try done.
      - by rewrite app_nil_r.
      - rewrite app_nil_r. intros Hin. apply (Hfresh p); [|done].
        by apply (ring_is_node m a psA). }
    assert (forall q, q ∈ b :: D ++ c :: C ->
              nextf m2 q = nextf m q /\ prevf m2 q = prevf m q) as Hb2.
    { intros q Hq.
      assert (is_Some (node_at m q)) as Hnq
        by (by apply (ring_is_node m b (D ++ c :: C))).
      assert (q <> p) by (by apply Hfresh).
      assert (q <> la).
      { intros ->. apply (Hdisj la); [by apply last_elem_of|done]. }
      assert (q <> a) by (intros ->; apply (Hdisj a); [left|done]).
      rewrite Hnx2, Hpv2. rewrite !decide_False by done.
      unfold nextf, prevf. by rewrite Hold. }
    assert (ring m2 b (D ++ c :: C)) as Hrb2 by (by eapply ring_frame).
    assert (forall q, is_Some (node_at m q) -> dataf m2 q = dataf m q) as Hd2.
    { intros q Hq. destruct Hl2 as (Hd & _). rewrite Hd. unfold dataf. by rewrite Hold. }
    assert (nextf m2 c = Some n) as Hcn2.
    { destruct (Hb2 c) as [-> _]; [set_solver|done]. }
    destruct (IH (D ++ [c]) m2 (psA ++ [p]) fuel n p)
      as (m' & news & Hloop & Hra' & Hrb' & Hvals & Hdata & Hnews & Hs' & Hal').
    + by rewrite <- app_assoc.
    + done.
    + done.
    + intros q [->|[Hq| ->%list_elem_of_singleton]%elem_of_app]%elem_of_cons Hq'.
      * apply (Hdisj a); [left|done].
      * apply (Hdisj q); [by right|done].
      * apply (Hfresh p); [by apply (ring_is_node m b (D ++ c :: C))|done].
    + destruct Hl2 as (_ & _ & _ & ->). done.
    + intros q Hq. unfold key. rewrite Hd2.
      * apply Hct. by right.
      * eapply ring_is_node; [exact Hrb|]. set_solver.
    + done.
    + simpl in Hfuel. lia.
    + exists m', (p :: news). split_and!.
      * cbn [merge_loop]. unfold end_. rewrite decide_False by done.
        rewrite (bind_Ok _ _ _ _ _ (get_data_Ok _ _ _ Hdc)).
        assert (try_catch (obj_construct (key m c)) (obj_destruct a nn ;; throw) m
                = Ok p m1) as Htc by (unfold try_catch; by rewrite Hoc).
        rewrite (bind_Ok _ _ _ _ _ Htc).
        assert (try_catch (insert_node a p) (obj_destruct a p ;; throw) m1
                = Ok tt m2) as Htc2 by (unfold try_catch; by rewrite Hins).
        rewrite (bind_Ok _ _ _ _ _ Htc2).
        by rewrite (bind_Ok _ _ _ _ _ (get_next_Ok _ _ _ Hcn2)).
      * by rewrite <- app_assoc in Hra'.
      * done.
      * simpl. rewrite Hvals. f_equal.
        -- unfold key. rewrite Hdata by set_solver.
           destruct Hl2 as (Hd & _). rewrite Hd. unfold dataf.
           rewrite Hn1. by rewrite decide_True.
        -- apply map_ext_in. intros q Hq. unfold key. rewrite Hd2; [done|].
           eapply ring_is_node; [exact Hrb|]. apply list_elem_of_In in Hq. set_solver.
      * intros q Hq. rewrite Hdata.
        -- apply Hd2. by apply Hnodes.
        -- rewrite <- app_assoc. set_solver.
      * intros q [->|Hq]%elem_of_cons; [done|].
        destruct (Hnews q Hq) as [Hq1 Hq2]. split; [|done].
        assert (heap m1 !! q = None) as Hq1'.
        { destruct Hl2 as (_ & Hdom & _). apply not_elem_of_dom.
          rewrite <- Hdom. by apply not_elem_of_dom. }
        rewrite Hh1 in Hq1'. apply lookup_insert_None in Hq1'. by destruct Hq1'.
      * rewrite Hs'. destruct Hl2 as (_ & _ & -> & _). done.
      * done.
Qed.

(** Copy-merge between two distinct well-formed containers, when no
    allocation or construction fails: copies of [b]'s elements are
    linked after [a]'s, [b] is unchanged, and so is [a.sz_]. *)
Lemma merge_spec m a b psa psb fuel :
  is_list m a psa -> is_list m b psb ->
  (forall q, q ∈ a :: psa -> q ∉ b :: psb) ->
  alloc_left m = None ->
  (forall q, q ∈ psb -> copy_throws (key m q) = false) ->
  (length psb < fuel)%nat ->
  exists m' news,
    merge fuel a b m = Ok tt m' /\
    ring m' a (psa ++ news) /\
    map (key m') (psa ++ news) = map (key m) psa ++ map (key m) psb /\
    is_list m' b psb /\ map (key m') psb = map (key m) psb /\
    size a m' = size a m.
Proof.
  intros (Hra & _ & Hsa & _) (Hrb & Hnullb & Hsb & Hbb) Hdisj Hal Hct Hfuel.
  assert (a <> b) as Hab by (intros ->; apply (Hdisj b); left).
  destruct (ring_ends _ _ _ Hrb) as (fb & lb & Hfb & _ & Hnfb & _).
  destruct (merge_loop_spec a b psb psb [] m psa fuel fb nullptr)
    as (m' & news & Hloop & Hra' & Hrb' & Hvals & Hdata & _ & Hs & _); try done.
  exists m', news. split_and!.
  - unfold merge. rewrite decide_False by done. unfold begin.
    by rewrite (bind_Ok _ _ _ _ _ (get_next_Ok _ _ _ Hnfb)).
  - done.
  - rewrite map_app, Hvals. f_equal. apply map_ext_in. intros q Hq.
    unfold key. rewrite Hdata; [done|]. apply list_elem_of_In in Hq. set_solver.
  - split_and!; try done. by rewrite Hs.
  - apply map_ext_in. intros q Hq.
    unfold key. rewrite Hdata; [done|]. apply list_elem_of_In in Hq. set_solver.
  - unfold size. by rewrite Hs.
Qed.

(** [List()] makes an empty well-formed container. *)
Lemma List_ctor_spec m this :
  exists m', List_ctor this m = Ok tt m' /\ is_list m' this [].
Proof.
  eexists. split; [done|]. split_and!.
  - split; [apply NoDup_singleton|]. simpl. split; [|done].
    unfold linked, nextf, prevf, node_at. simpl. by rewrite lookup_insert_eq.
  - by intros ?%elem_of_nil.
  - simpl. by rewrite lookup_insert_eq.
  - done.
Qed.

(** [push_back] when nothing fails: the new node is linked last and
    [sz_] counts it. *)
Lemma push_back_spec m this ps el :
  is_list m this ps -> alloc_left m = None -> copy_throws el = false ->
  Z.of_nat (length ps) + 1 < size_max ->
  exists m' p,
    push_back this el m = Ok tt m' /\
    is_list m' this (ps ++ [p]) /\
    heap m !! p = None /\ dataf m' p = Some el /\
    (forall q, q ∈ this :: ps -> dataf m' q = dataf m q).
Proof.
  intros (Hr & Hnull & Hsz & Hb) Hal Hct Hlen.
  destruct (obj_construct_Ok m el Hal Hct) as (p & m1 & Hoc & Hp0 & Hpf & Hh1 & Hs1 & Hal1).
  assert (forall q, node_at m1 q =
            if decide (q = p) then Some (mkNode el nullptr nullptr)
            else node_at m q) as Hn1 by (intros q; by apply node_at_fresh).
  assert (forall q, is_Some (node_at m q) -> q <> p) as Hfresh.
  { intros q [x Hx] ->. unfold node_at in Hx. by rewrite Hpf in Hx. }
  assert (forall q, is_Some (node_at m q) -> node_at m1 q = node_at m q) as Hold.
  { intros q Hq. rewrite Hn1. rewrite decide_False; [done|by apply Hfresh]. }
  destruct (ring_ends _ _ _ Hr) as (fa & la & _ & Hla & _ & Hpla).
  assert (is_Some (node_at m this)) as Hna by (eapply ring_is_node; [exact Hr|left]).
  assert (is_Some (node_at m la)) as Hnla.
  { eapply ring_is_node; [exact Hr|by apply last_elem_of]. }
  assert (prevf m1 this = Some la) as Hpla1 by (unfold prevf; by rewrite Hold).
  destruct (insert_node_Ok m1 this p la Hpla1) as (m2 & Hins & Hl2 & Hnx2 & Hpv2).
  { rewrite Hn1. by rewrite decide_True. }
  { by rewrite Hold. }
  { intros ->. by apply (Hfresh this). }
  { intros ->. by apply (Hfresh la). }
  assert (ring m1 this ps) as Hr1.
  { eapply ring_frame; [exact Hr|]. intros q Hq. unfold nextf, prevf.
    rewrite Hold; [done|]. by apply (ring_is_node m this ps). }
  assert (ring m2 this (ps ++ [p])) as Hr2.
  { eapply (ring_insert m1 m2 this ps [] p la this); try done.
    - by rewrite app_nil_r.
    - rewrite app_nil_r. intros Hin. apply (Hfresh p); [|done].
      by apply (ring_is_node m this ps). }
  assert (szs m2 !! this = Some (Z.of_nat (length ps))) as Hsz2.
  { destruct Hl2 as (_ & _ & -> & _). by rewrite Hs1. }
  exists (upd_sz this (Z.of_nat (length ps) + 1) m2), p. split_and!.
  - unfold push_back.
    assert (try_catch (obj_construct el) (obj_destruct this nullptr ;; throw) m
            = Ok p m1) as Htc by (unfold try_catch; by rewrite Hoc).
    rewrite (bind_Ok _ _ _ _ _ Htc). unfold try_catch.
    rewrite (bind_Ok _ _ _ _ _ Hins).
    rewrite (incr_sz_Ok m2 _ _ Hsz2). rewrite wrap_small; [done|lia].
  - split_and!.
    + eapply ring_frame; [exact Hr2|]. done.
    + intros [Hin|Heq%list_elem_of_singleton]%elem_of_app; [done|].
      by apply Hp0.
    + simpl. rewrite lookup_insert_eq. f_equal. rewrite length_app. simpl. lia.
    + rewrite length_app. simpl. lia.
  - done.
  - rewrite dataf_upd_sz. destruct Hl2 as (-> & _). unfold dataf.
    rewrite Hn1. by rewrite decide_True.
  - intros q Hq. rewrite dataf_upd_sz. destruct Hl2 as (-> & _).
    unfold dataf. rewrite Hold; [done|]. by apply (ring_is_node m this ps).
Qed.

End Lifecycle.

(** ** An executable well-formedness check *)

Section Check.
Context {T : Type} `{Element T}.
Implicit Types (m : Mem T) (a b : loc) (ps : list loc).

Lemma chainb_sound m xs : chainb m xs = true -> chain m xs.
Proof.
  induction xs as [|a [|b xs] IH]; [done|done|].
  intros [[Hn Hp]%andb_prop Hc]%andb_prop. split; [|by apply IH].
  split; by eapply bool_decide_eq_true_1.
Qed.

Lemma is_listb_sound m this ps : is_listb m this ps = true -> is_list m this ps.
Proof.
  unfold is_listb.
  intros [[[[Hnd Hc]%andb_prop Hn]%andb_prop Hs]%andb_prop Hb%Z.ltb_lt]%andb_prop.
  apply bool_decide_eq_true_1 in Hnd, Hn, Hs.
  repeat split; try done. by apply chainb_sound.
Qed.

End Check.

(** ** Integers as elements *)

#[export] Instance Z_WeakOrder : WeakOrder Z.
Proof.
  split; simpl.
  - intros a b. destruct (Z.leb_spec a b); [by left|right]. apply Z.leb_le. lia.
  - intros a b c ?%Z.leb_le ?%Z.leb_le. apply Z.leb_le. lia.
  - intros a b. apply Z.ltb_antisym.
  - intros a b. apply Z.gtb_ltb.
  - intros a b. apply Z.geb_leb.
Qed.

#[export] Instance Z_TotalOrder : TotalOrder Z.
Proof. split; simpl. intros a b ?%Z.leb_le ?%Z.leb_le. lia. Qed.

(** ** The claims *)

Section Claims.
Context {T : Type} `{Element T}.
Implicit Types (m : Mem T) (p q : loc) (ps : list loc).

Lemma sort_order_facts `{!WeakOrder T} (ascending : bool) :
  let lamb : T -> T -> bool := if ascending then lt else gt in
  let lamb_t : T -> T -> bool := if ascending then le else ge in
  (forall a b, lamb a b = negb (lamb_t b a)) /\
  (forall a b, lamb_t a b = true \/ lamb_t b a = true) /\
  (forall a b c, lamb_t a b = true -> lamb_t b c = true -> lamb_t a c = true).
Proof.
  destruct ascending; simpl; split_and!.
  - apply lt_le.
  - apply le_total.
  - apply le_trans.
  - intros a b. by rewrite gt_lt, lt_le, ge_le.
  - intros a b. rewrite !ge_le. destruct (le_total a b); [by right|by left].
  - intros a b c. rewrite !ge_le. intros ? ?. by apply (le_trans _ b).
Qed.

(** X29. On a well-formed container over a totally ordered element type,
    sort(true) returns with the same nodes relinked so that forward
    iteration is non-decreasing, sort(false) so that it is non-increasing;
    the multiset of elements is unchanged, only links are rewritten, and
    with fewer than two elements the memory is left exactly as it was. *)
Theorem sort_sorts `{!WeakOrder T} `{!TotalOrder T}
    m this ps (ascending : bool) fuel :
  is_list m this ps -> (length ps < fuel)%nat ->
  exists m' ps',
    sort fuel this ascending m = Ok tt m' /\
    is_list m' this ps' /\ links_only m m' /\
    to_list fuel m this = Some (map (key m) ps) /\
    to_list fuel m' this = Some (map (key m) ps') /\
    Permutation (map (key m) ps) (map (key m) ps') /\
    StronglySorted (ord ascending) (map (key m) ps') /\
    ((length ps < 2)%nat -> m' = m).
Proof.
  intros Hlist Hfuel.
  destruct (sort_ring m this ps ascending fuel Hlist Hfuel)
    as (m' & Hsort & Hlist' & Hl & Hsmall).
  destruct (sort_order_facts ascending) as (Hneg & Htot & Htrans).
  set (lamb := if ascending then lt else gt) in *.
  set (lamb_t := if ascending then le else ge) in *.
  pose proof (sorted_order_perm lamb lamb_t (key m) ps) as Hperm.
  exists m', (sorted_order lamb lamb_t (key m) ps). split_and!; try done.
  - apply to_list_ring; [by destruct Hlist|done].
  - rewrite (to_list_ring m' this (sorted_order lamb lamb_t (key m) ps) fuel).
    + f_equal. apply map_ext. intros q. by apply key_links_only.
    + by destruct Hlist'.
    + by rewrite <- (Permutation_length Hperm).
  - by apply Permutation_map.
  - pose proof (sorted_order_sorted lamb lamb_t (key m) Hneg Htot Htrans ps) as Hs.
    apply sorted_keys in Hs. unfold ord. by destruct ascending.
Qed.

(** C8. sort is stable: among the nodes whose payloads compare equal to
    any given value under the selected predicate, the order after sort is
    the order before it. *)
Theorem sort_stable `{!WeakOrder T} m this ps (ascending : bool) fuel :
  is_list m this ps -> (length ps < fuel)%nat ->
  exists m' ps',
    sort fuel this ascending m = Ok tt m' /\
    is_list m' this ps' /\ links_only m m' /\
    forall v : T,
      List.filter (fun p => equal_keys ascending v (key m' p)) ps' =
      List.filter (fun p => equal_keys ascending v (key m p)) ps.
Proof.
  intros Hlist Hfuel.
  destruct (sort_ring m this ps ascending fuel Hlist Hfuel)
    as (m' & Hsort & Hlist' & Hl & _).
  destruct (sort_order_facts ascending) as (Hneg & Htot & Htrans).
  set (lamb := if ascending then lt else gt) in *.
  set (lamb_t := if ascending then le else ge) in *.
  exists m', (sorted_order lamb lamb_t (key m) ps). split_and!; try done.
  intros v.
  pose proof (sorted_order_stable lamb lamb_t (key m) Hneg Htot Htrans ps v) as Hst.
  assert (forall m1 p, equal_keys ascending v (key m1 p) = tied lamb_t (key m1) v p) as Heq.
  { intros m1 p. unfold equal_keys, tied, lamb_t. by destruct ascending. }
  erewrite (List.filter_ext _ (tied lamb_t (key m) v)).
  - rewrite Hst. apply List.filter_ext. intros p. by rewrite Heq.
  - intros p. rewrite Heq. unfold tied. by rewrite (key_links_only _ _ _ Hl).
Qed.

(** C9. reverse() on a well-formed container returns with the nodes in
    reverse order, having rewritten links only (nothing is allocated or
    freed, payloads and size are unchanged), and a second reverse()
    restores the original order. *)
Theorem reverse_reverses m this ps fuel :
  is_list m this ps -> (length ps < fuel)%nat ->
  exists m',
    reverse fuel this m = Ok tt m' /\
    is_list m' this (rev ps) /\ links_only m m' /\
    to_list fuel m this = Some (map (key m) ps) /\
    to_list fuel m' this = Some (rev (map (key m) ps)) /\
    size this m' = size this m /\
    exists m'',
      reverse fuel this m' = Ok tt m'' /\
      is_list m'' this ps /\ links_only m m'' /\
      to_list fuel m'' this = Some (map (key m) ps).
Proof.
  intros (Hr & Hnull & Hsz & Hbound) Hfuel.
  destruct (reverse_ring m this ps fuel Hr Hfuel) as (m' & Hrev & Hr' & Hl).
  assert (length (rev ps) < fuel)%nat as Hfuel' by (by rewrite length_rev).
  destruct (reverse_ring m' this (rev ps) fuel Hr' Hfuel') as (m'' & Hrev' & Hr'' & Hl').
  rewrite rev_involutive in Hr''.
  assert (links_only m m'') as Hl'' by (by eapply links_only_trans).
  exists m'. split_and!; try done.
  - split_and!; [done| | |by rewrite length_rev].
    + by rewrite list_elem_of_In, <- in_rev, <- list_elem_of_In.
    + destruct Hl as (_ & _ & -> & _). by rewrite length_rev.
  - by apply to_list_ring.
  - rewrite (to_list_ring m' this (rev ps) fuel) by done.
    rewrite map_rev. f_equal. f_equal. apply map_ext. intros q.
    by apply key_links_only.
  - unfold size. by destruct Hl as (_ & _ & -> & _).
  - exists m''. split_and!; try done.
    + split_and!; try done. by destruct Hl'' as (_ & _ & -> & _).
    + rewrite (to_list_ring m'' this ps fuel) by done.
      f_equal. apply map_ext. intros q. by apply key_links_only.
Qed.

(** C10 (as amended). erase(it) on a real node of a well-formed container
    unlinks and destroys exactly that node: the remaining elements keep
    their order, size drops by one, and the node is no longer on the chain.
    Nothing is returned and the iterator passed in is left as it was, at
    the address of the destroyed node. *)
Theorem erase_removes m this A i B fuel :
  is_list m this (A ++ i :: B) -> (length (A ++ B) < fuel)%nat ->
  exists m',
    erase this (mkIt i) m = Ok (mkIt i) m' /\
    is_list m' this (A ++ B) /\
    (i ∉ A ++ B) /\
    heap m' !! i = None /\
    to_list fuel m' this = Some (map (key m) A ++ map (key m) B) /\
    size this m' = Some (Z.of_nat (length (A ++ i :: B)) - 1).
Proof.
  intros Hlist Hfuel.
  destruct (erase_spec m this A i B Hlist) as (m' & Her & Hlist' & Hgone & Hdata & Hsz).
  assert (i ∉ this :: A ++ B) as HiN.
  { destruct Hlist as ([? _] & _). by apply NoDup_mid_notin. }
  exists m'. split_and!; try done.
  - set_solver.
  - rewrite (to_list_ring m' this (A ++ B) fuel); [|by destruct Hlist'|done].
    rewrite <- map_app. f_equal. apply map_ext_in. intros q Hq.
    unfold key. rewrite Hdata; [done|]. intros ->. apply HiN.
    right. by apply list_elem_of_In.
Qed.

End Claims.

(** ** The claims on concrete containers *)

Lemma mem_312_is_list : is_list mem_312 100%N [101; 102; 103]%N.
Proof. apply is_listb_sound. vm_compute. reflexivity. Defined.

Lemma mem_123_is_list : is_list mem_123 100%N [101; 102; 103]%N.
Proof. apply is_listb_sound. vm_compute. reflexivity. Defined.

Lemma sort_sorts_witness :
  is_list mem_312 100%N [101; 102; 103]%N /\
  exists m' ps',
    sort 10 100%N true mem_312 = Ok tt m' /\
    is_list m' 100%N ps' /\ links_only mem_312 m' /\
    to_list 10 mem_312 100%N = Some (map (key mem_312) [101; 102; 103]%N) /\
    to_list 10 m' 100%N = Some (map (key mem_312) ps') /\
    Permutation (map (key mem_312) [101; 102; 103]%N) (map (key mem_312) ps') /\
    StronglySorted (ord true) (map (key mem_312) ps') /\
    ((length [101; 102; 103]%N < 2)%nat -> m' = mem_312).
Proof.
  split; [exact mem_312_is_list|].
  apply (sort_sorts mem_312 100%N [101; 102; 103]%N true 10 mem_312_is_list).
  simpl. lia.
Defined.

Lemma mem_2121_is_list : is_list mem_2121 100%N [101; 102; 103; 104]%N.
Proof. apply is_listb_sound. vm_compute. reflexivity. Defined.

Lemma sort_stable_witness :
  is_list mem_2121 100%N [101; 102; 103; 104]%N /\
  exists m' ps',
    sort 10 100%N false mem_2121 = Ok tt m' /\
    is_list m' 100%N ps' /\ links_only mem_2121 m' /\
    forall v : Z,
      List.filter (fun p => equal_keys false v (key m' p)) ps' =
      List.filter (fun p => equal_keys false v (key mem_2121 p))
                  [101; 102; 103; 104]%N.
Proof.
  split; [exact mem_2121_is_list|].
  apply (sort_stable mem_2121 100%N [101; 102; 103; 104]%N false 10 mem_2121_is_list).
  simpl. lia.
Defined.

Lemma reverse_reverses_witness :
  is_list mem_123 100%N [101; 102; 103]%N /\
  exists m',
    reverse 10 100%N mem_123 = Ok tt m' /\
    is_list m' 100%N (rev [101; 102; 103]%N) /\ links_only mem_123 m' /\
    to_list 10 mem_123 100%N = Some (map (key mem_123) [101; 102; 103]%N) /\
    to_list 10 m' 100%N = Some (rev (map (key mem_123) [101; 102; 103]%N)) /\
    size 100%N m' = size 100%N mem_123 /\
    exists m'',
      reverse 10 100%N m' = Ok tt m'' /\
      is_list m'' 100%N [101; 102; 103]%N /\ links_only mem_123 m'' /\
      to_list 10 m'' 100%N = Some (map (key mem_123) [101; 102; 103]%N).
Proof.
  split; [exact mem_123_is_list|].
  apply (reverse_reverses mem_123 100%N [101; 102; 103]%N 10 mem_123_is_list).
  simpl. lia.
Defined.

Lemma erase_removes_witness :
  is_list mem_123 100%N ([101] ++ 102 :: [103])%N /\
  exists m',
    erase 100%N (mkIt 102%N) mem_123 = Ok (mkIt 102%N) m' /\
    is_list m' 100%N ([101] ++ [103])%N /\
    (102%N ∉ [101] ++ [103])%N /\
    heap m' !! 102%N = None /\
    to_list 10 m' 100%N =
      Some (map (key mem_123) [101%N] ++ map (key mem_123) [103%N]) /\
    size 100%N m' = Some (Z.of_nat (length ([101] ++ 102 :: [103])%N) - 1).
Proof.
  split; [exact mem_123_is_list|].
  apply (erase_removes mem_123 100%N [101%N] 102%N [103%N] 10 mem_123_is_list).
  simpl. lia.
Defined.

(** C10, counterexample: erasing the node of value 2 from [1,2,3] leaves
    the iterator at the erased node. *)
Lemma erase_leaves_iterator_dangling :
  to_list 10 mem_123 100%N = Some [1; 2; 3] /\
  dataf mem_123 102%N = Some 2 /\
  ~ erase_gives_new_position mem_123 100%N (mkIt 102%N).
Proof.
  split_and!; [by vm_compute..|].
  intros (it' & m' & He & Hne).
  destruct (erase_spec mem_123 100%N [101%N] 102%N [103%N] mem_123_is_list)
    as (m1 & He1 & _).
  rewrite He1 in He. injection He as <- _. by apply Hne.
Qed.

(** ** Where the code departs from the claims *)

(** C2. Copy-merge appends copies of [b]'s elements and leaves [b] alone,
    but never updates [sz_]: after [a.merge(b)] with [a = [1,2]] and
    [b = [3,4]], [a] iterates as [1,2,3,4] while [a.size()] is still 2. *)
Theorem merge_copy_size_not_updated :
  let m := two_lists [1; 2] [3; 4] in
  exists m',
    merge 10 100%N 200%N m = Ok tt m' /\
    to_list 10 m 100%N = Some [1; 2] /\ size 100%N m = Some 2 /\
    to_list 10 m 200%N = Some [3; 4] /\ size 200%N m = Some 2 /\
    to_list 10 m' 100%N = Some [1; 2; 3; 4] /\
    to_list 10 m' 200%N = Some [3; 4] /\ size 200%N m' = Some 2 /\
    size 100%N m' = Some 2.
Proof.
  intros m. exists (after (merge 10 100%N 200%N) m).
  split_and!; by vm_compute.
Qed.

(** Iteration that enters a node linked to itself never comes back. *)
Lemma walk_self_loop {T} `{Element T} (m : Mem T) this it :
  nextf m it = Some it -> it <> this -> forall fuel, walk fuel m this it = None.
Proof.
  intros Hn Hne. induction fuel as [|fuel IH]; [done|].
  simpl. unfold end_. rewrite decide_False by done. rewrite Hn. by rewrite IH.
Qed.

(** C3. Move assignment from an empty source: the source's sentinel is
    adopted as if it were a node.  Afterwards the source is empty, but the
    destination's [begin()] is the source's sentinel, whose [next_] is
    itself: forward iteration of the destination never reaches its
    [end()].  Move construction goes the same way. *)
Theorem move_assign_from_empty_source :
  let m := two_lists [1; 2] [] in
  exists m',
    move_assign 10 100%N 200%N m = Ok tt m' /\
    to_list 10 m 200%N = Some [] /\
    to_list 10 m' 200%N = Some [] /\ size 200%N m' = Some 0 /\
    size 100%N m' = Some 0 /\
    nextf m' 100%N = Some 200%N /\ prevf m' 100%N = Some 200%N /\
    (forall fuel, to_list fuel m' 100%N = None) /\
    exists m'',
      move_ctor 10 300%N 200%N m = Ok tt m'' /\
      nextf m'' 300%N = Some 200%N /\
      (forall fuel, to_list fuel m'' 300%N = None).
Proof.
  intros m. exists (after (move_assign 10 100%N 200%N) m).
  split_and!; try by vm_compute.
  - intros fuel. unfold to_list, nodes_of.
    assert (nextf (after (move_assign 10 100%N 200%N) m) 100%N = Some 200%N)
      as -> by (by vm_compute).
    rewrite walk_self_loop; [done|by vm_compute|done].
  - exists (after (move_ctor 10 300%N 200%N) m).
    split_and!; try by vm_compute.
    intros fuel. unfold to_list, nodes_of.
    assert (nextf (after (move_ctor 10 300%N 200%N) m) 300%N = Some 200%N)
      as -> by (by vm_compute).
    rewrite walk_self_loop; [done|by vm_compute|done].
Qed.

(** C4. swap exchanges the sentinels' links and the sizes but leaves the
    boundary nodes pointing at their old sentinel: with [a = [1]] and
    [b = [2]], forward iteration of [a] after [a.swap(b)] yields [b]'s
    element, then the payload of [b]'s sentinel, then [a]'s own old
    element. *)
Theorem swap_links_not_fixed_up :
  let m := two_lists [1] [2] in
  exists m',
    swap 100%N 200%N m = Ok tt m' /\
    to_list 10 m 100%N = Some [1] /\ to_list 10 m 200%N = Some [2] /\
    to_list 10 m' 100%N = Some [2; 0; 1] /\
    to_list 10 m' 200%N = Some [1; 0; 2] /\
    nodes_of 10 m' 100%N = Some [201; 200; 101]%N /\
    size 100%N m' = Some 1 /\ size 200%N m' = Some 1.
Proof.
  intros m. exists (after (swap 100%N 200%N) m).
  split_and!; by vm_compute.
Qed.

(** C6. Copy self-assignment clears the container before reading from
    it: [a = a] with [a = [1,2,3]] leaves [a] empty. *)
Theorem copy_self_assign_empties :
  exists m',
    copy_assign 10 100%N 100%N mem_123 = Ok tt m' /\
    to_list 10 mem_123 100%N = Some [1; 2; 3] /\ size 100%N mem_123 = Some 3 /\
    to_list 10 m' 100%N = Some [] /\ size 100%N m' = Some 0.
Proof.
  exists (after (copy_assign 10 100%N 100%N) mem_123).
  split_and!; by vm_compute.
Qed.

(** C5. After a copy-merge into an empty container, one real node hangs
    on the chain of [a] while [a.size()] is 0: no list of nodes makes
    [a] well formed. *)
Theorem size_invariant_broken_by_copy_merge :
  let m := two_lists [] [7] in
  exists m',
    merge 10 100%N 200%N m = Ok tt m' /\
    is_list m 100%N [] /\ is_list m 200%N [201%N] /\
    nodes_of 10 m' 100%N = Some [202%N] /\
    nodes_back_of 10 m' 100%N = Some [202%N] /\
    size 100%N m' = Some 0 /\
    forall ps, ~ is_list m' 100%N ps.
Proof.
  intros m. exists (after (merge 10 100%N 200%N) m).
  split_and!.
  - by vm_compute.
  - apply is_listb_sound. by vm_compute.
  - apply is_listb_sound. by vm_compute.
  - by vm_compute.
  - by vm_compute.
  - by vm_compute.
  - intros ps ([_ Hc] & _ & Hsz & _).
    assert (szs (after (merge 10 100%N 200%N) m) !! 100%N = Some 0) as Hsz0
      by (by vm_compute).
    rewrite Hsz in Hsz0. injection Hsz0 as Hlen.
    destruct ps as [|p ps]; [|simpl in Hlen; lia].
    destruct Hc as [[Hn _] _].
    assert (nextf (after (merge 10 100%N 200%N) m) 100%N = Some 202%N) as Hn'
      by (by vm_compute).
    rewrite Hn in Hn'. discriminate Hn'.
Qed.

(** C1. [sort] decides from [sz_] whether there is anything to do
    ([if (sz_ < 2) return], line 312), and copy-merge never updates [sz_]
    (C2).  With a = [] and b = [3,1,2], both built by [List()] and
    [push_back], a.merge(b) leaves a iterating as [3,1,2] over an intact
    ring (the backward walk visits the same three nodes in reverse) with
    [sz_] still 0; a.sort(true) and a.sort(false) then return at once with
    the memory as it was, and a still iterates as [3,1,2], which is neither
    non-decreasing nor non-increasing. *)
Theorem sort_skipped_after_copy_merge :
  let m := two_lists [] [3; 1; 2] in
  exists m1,
    merge 10 100%N 200%N m = Ok tt m1 /\
    size 100%N m1 = Some 0 /\
    nodes_of 10 m1 100%N = Some [204; 205; 206]%N /\
    nodes_back_of 10 m1 100%N = Some (rev [204; 205; 206]%N) /\
    to_list 10 m1 100%N = Some [3; 1; 2] /\
    sort 10 100%N true m1 = Ok tt m1 /\
    sort 10 100%N false m1 = Ok tt m1 /\
    ~ StronglySorted (ord true) [3; 1; 2] /\
    ~ StronglySorted (ord false) [3; 1; 2].
Proof.
  intros m. exists (after (merge 10 100%N 200%N) m).
  split_and!; try by vm_compute.
  - intros Hs. apply StronglySorted_inv in Hs as [_ Hall].
    apply Forall_cons in Hall as [H31 _]. by vm_compute in H31.
  - intros Hs. apply StronglySorted_inv in Hs as [Hs _].
    apply StronglySorted_inv in Hs as [_ Hall].
    apply Forall_cons in Hall as [H12 _]. by vm_compute in H12.
Qed.


(** C7. A [push_back] whose element constructor throws: the handler runs
    [obj_destruct] on a [new_node] that is still null, so the storage
    obtained from [allocate] is never released.  The container itself is
    unchanged.  [push_front] and [insert] leak the same way. *)
Theorem push_back_leaks_when_copy_throws :
  let E := Fragile_Element in
  let m := after (@build_with E 100%N [5]) (empty_mem None) in
  @copy_throws Z E (-1) = true /\
  exists m',
    @push_back Z E 100%N (-1) m = Throw m' /\
    heap m !! 102%N = None /\
    heap m' !! 102%N = Some Raw /\
    @to_list Z 10 m 100%N = Some [5] /\ @to_list Z 10 m' 100%N = Some [5] /\
    @size Z 100%N m' = Some 1 /\
    @push_front Z E 100%N (-1) m = Throw m' /\
    @insert Z E 100%N (mkIt 101%N) (-1) m = Throw m'.
Proof.
  intros E m. split; [done|].
  exists (after (@push_back Z E 100%N (-1)) m).
  split_and!; by vm_compute.
Qed.

(** ** Single-node insertion when nothing fails *)

Section Insertion.
Context {T : Type} `{Element T}.
Implicit Types (m : Mem T) (p q : loc) (ps : list loc).

(** A container only depends on the links of its own addresses and on
    its own [sz_]. *)
Lemma is_list_frame_links m m' l ps :
  is_list m l ps ->
  (forall q, q ∈ l :: ps -> nextf m' q = nextf m q /\ prevf m' q = prevf m q) ->
  szs m' !! l = szs m !! l ->
  is_list m' l ps.
Proof.
  intros (Hr & Hnull & Hsz & Hb) Hsame Hs. split_and!; try done.
  - by eapply ring_frame.
  - by rewrite Hs.
Qed.

(** [obj_construct], [insert_node] in front of [at_], [++sz_]: the body
    shared by [push_front], [push_back] and [insert]. *)
Lemma construct_splice m this A B el at_ :
  is_list m this (A ++ B) -> head (B ++ [this]) = Some at_ ->
  alloc_left m = None -> copy_throws el = false ->
  Z.of_nat (length (A ++ B)) + 1 < size_max ->
  exists p m1 m',
    obj_construct el m = Ok p m1 /\
    nextf m1 this = nextf m this /\
    (insert_node at_ p ;; incr_sz this) m1 = Ok tt m' /\
    is_list m' this (A ++ p :: B) /\
    heap m !! p = None /\
    key m' p = el /\
    (forall q, q ∈ this :: A ++ B -> key m' q = key m q) /\
    (forall b psb, is_list m b psb ->
       (forall q, q ∈ this :: A ++ B -> q ∉ b :: psb) ->
       is_list m' b psb /\ forall q, q ∈ b :: psb -> key m' q = key m q) /\
    dom (heap m') = {[p]} ∪ dom (heap m) /\ alloc_left m' = None.
Proof.
  intros (Hr & Hnull & Hsz & Hb) Hat Hal Hct Hlen.
  destruct (obj_construct_Ok m el Hal Hct)
    as (p & m1 & Hoc & Hp0 & Hpf & Hh1 & Hs1 & Hal1).
  assert (forall q, node_at m1 q =
            if decide (q = p) then Some (mkNode el nullptr nullptr)
            else node_at m q) as Hn1 by (intros q; by apply node_at_fresh).
  assert (forall q, is_Some (node_at m q) -> q <> p) as Hfresh.
  { intros q [x Hx] ->. unfold node_at in Hx. by rewrite Hpf in Hx. }
  assert (forall q, is_Some (node_at m q) -> node_at m1 q = node_at m q) as Hold.
  { intros q Hq. rewrite Hn1. rewrite decide_False; [done|by apply Hfresh]. }
  destruct (ring_cut m this A B Hr)
    as (la & n & Hla & Hhn & [Hlan Hnla] & _).
  assert (n = at_) as -> by congruence.
  assert (la ∈ this :: A ++ B) as Hlain.
  { apply last_elem_of in Hla. set_solver. }
  assert (at_ ∈ this :: A ++ B) as Hatin.
  { apply head_elem_of in Hhn. set_solver. }
  assert (forall q, q ∈ this :: A ++ B -> is_Some (node_at m q)) as Hnodes.
  { intros q Hq. by apply (ring_is_node m this (A ++ B)). }
  assert (prevf m1 at_ = Some la) as Hpla1.
  { unfold prevf. rewrite Hold by (by apply Hnodes). done. }
  destruct (insert_node_Ok m1 at_ p la Hpla1) as (m2 & Hins & Hl2 & Hnx2 & Hpv2).
  { rewrite Hn1. by rewrite decide_True. }
  { rewrite Hold by (by apply Hnodes). by apply Hnodes. }
  { intros ->. by apply (Hfresh at_); [apply Hnodes|]. }
  { intros ->. by apply (Hfresh la); [apply Hnodes|]. }
  assert (ring m1 this (A ++ B)) as Hr1.
  { eapply ring_frame; [exact Hr|]. intros q Hq. unfold nextf, prevf.
    by rewrite Hold by (by apply Hnodes). }
  assert (ring m2 this (A ++ p :: B)) as Hr2.
  { eapply (ring_insert m1 m2 this A B p la at_); try done.
    intros Hin. by apply (Hfresh p); [apply Hnodes|]. }
  assert (szs m2 !! this = Some (Z.of_nat (length (A ++ B)))) as Hsz2.
  { destruct Hl2 as (_ & _ & -> & _). by rewrite Hs1. }
  assert (forall q, is_Some (node_at m q) -> dataf m2 q = dataf m q) as Hd2.
  { intros q Hq. destruct Hl2 as (-> & _). unfold dataf. by rewrite Hold. }
  exists p, m1, (upd_sz this (Z.of_nat (length (A ++ B)) + 1) m2).
  split_and!.
  - done.
  - unfold nextf. rewrite Hold; [done|]. apply Hnodes. left.
  - rewrite (bind_Ok _ _ _ _ _ Hins).
    rewrite (incr_sz_Ok m2 _ _ Hsz2). rewrite wrap_small; [done|lia].
  - split_and!.
    + eapply ring_frame; [exact Hr2|]. done.
    + intros [Hin|[Heq|Hin]%elem_of_cons]%elem_of_app.
      * apply Hnull. set_solver.
      * by apply Hp0.
      * apply Hnull. set_solver.
    + simpl. rewrite lookup_insert_eq. f_equal.
      rewrite !length_app. simpl. lia.
    + rewrite !length_app in *. simpl. lia.
  - done.
  - unfold key. rewrite dataf_upd_sz. destruct Hl2 as (-> & _). unfold dataf.
    rewrite Hn1. by rewrite decide_True.
  - intros q Hq. unfold key. rewrite dataf_upd_sz.
    by rewrite Hd2 by (by apply Hnodes).
  - intros b psb Hlb Hdisj.
    assert (forall q, q ∈ b :: psb -> is_Some (node_at m q)) as Hnb.
    { intros q Hq. destruct Hlb as (Hrb & _). by apply (ring_is_node m b psb). }
    split.
    + eapply is_list_frame_links; [exact Hlb| |].
      * intros q Hq.
        assert (q <> p) by (by apply Hfresh, Hnb).
        assert (q <> la) by (intros ->; by apply (Hdisj la)).
        assert (q <> at_) by (intros ->; by apply (Hdisj at_)).
        rewrite nextf_upd_sz, prevf_upd_sz, Hnx2, Hpv2.
        rewrite !decide_False by done. unfold nextf, prevf.
        by rewrite Hold by (by apply Hnb).
      * simpl. rewrite lookup_insert_ne.
        -- destruct Hl2 as (_ & _ & -> & _). by rewrite Hs1.
        -- intros ->. apply (Hdisj b); left.
    + intros q Hq. unfold key. rewrite dataf_upd_sz.
      by rewrite Hd2 by (by apply Hnb).
  - simpl. destruct Hl2 as (_ & -> & _). rewrite Hh1. by rewrite dom_insert_L.
  - simpl. destruct Hl2 as (_ & _ & _ & ->). done.
Qed.

Lemma to_list_inserted m m' this A B p el fuel :
  is_list m' this (A ++ p :: B) -> key m' p = el ->
  (forall q, q ∈ this :: A ++ B -> key m' q = key m q) ->
  (length (A ++ B) + 1 < fuel)%nat ->
  to_list fuel m' this = Some (map (key m) A ++ el :: map (key m) B).
Proof.
  intros (Hr & _) Hp Hk Hfuel.
  rewrite (to_list_ring m' this (A ++ p :: B) fuel Hr).
  2:{ rewrite !length_app in *. simpl. lia. }
  rewrite map_app. simpl. rewrite Hp. f_equal. f_equal.
  - apply map_ext_in. intros q Hq%list_elem_of_In. apply Hk. set_solver.
  - f_equal. apply map_ext_in. intros q Hq%list_elem_of_In. apply Hk. set_solver.
Qed.

(** X1. push_back on a well-formed container, when neither the allocator
    nor the element constructor fails: a fresh node holding the element is
    linked last, the container stays well formed with [sz_] one larger,
    forward iteration yields the old sequence followed by the element, and
    every other well-formed container is left as it was. *)
Theorem push_back_appends m this ps el fuel :
  is_list m this ps -> alloc_left m = None -> copy_throws el = false ->
  Z.of_nat (length ps) + 1 < size_max -> (length ps + 1 < fuel)%nat ->
  exists m' p,
    push_back this el m = Ok tt m' /\
    is_list m' this (ps ++ [p]) /\ heap m !! p = None /\
    to_list fuel m' this = Some (map (key m) ps ++ [el]) /\
    size this m' = Some (Z.of_nat (length ps) + 1) /\
    (forall b psb, is_list m b psb ->
       (forall q, q ∈ this :: ps -> q ∉ b :: psb) ->
       is_list m' b psb /\ forall q, q ∈ b :: psb -> key m' q = key m q).
Proof.
  intros Hlist Hal Hct Hlen Hfuel.
  assert (is_list m this (ps ++ [])) as Hlist0 by (by rewrite app_nil_r).
  destruct (construct_splice m this ps [] el this Hlist0)
    as (p & m1 & m' & Hoc & _ & Hbody & Hlist' & Hfresh & Hkp & Hk & Hframe & _);
    [done|done|done|by rewrite app_nil_r|].
  rewrite app_nil_r in Hk, Hframe.
  exists m', p. split_and!; try done.
  - unfold push_back.
    assert (try_catch (obj_construct el) (obj_destruct this nullptr ;; throw) m
            = Ok p m1) as Htc by (unfold try_catch; by rewrite Hoc).
    rewrite (bind_Ok _ _ _ _ _ Htc). unfold try_catch. by rewrite Hbody.
  - rewrite (to_list_inserted m m' this ps [] p el fuel); try done.
    + by rewrite app_nil_r.
    + by rewrite app_nil_r.
  - destruct Hlist' as (_ & _ & Hsz & _). unfold size. rewrite Hsz. f_equal.
    rewrite length_app. simpl. lia.
Qed.

(** X2. push_front under the same conditions: the fresh node is linked
    first, iteration yields the element followed by the old sequence,
    [sz_] is one larger and other containers are untouched. *)
Theorem push_front_prepends m this ps el fuel :
  is_list m this ps -> alloc_left m = None -> copy_throws el = false ->
  Z.of_nat (length ps) + 1 < size_max -> (length ps + 1 < fuel)%nat ->
  exists m' p,
    push_front this el m = Ok tt m' /\
    is_list m' this (p :: ps) /\ heap m !! p = None /\
    to_list fuel m' this = Some (el :: map (key m) ps) /\
    size this m' = Some (Z.of_nat (length ps) + 1) /\
    (forall b psb, is_list m b psb ->
       (forall q, q ∈ this :: ps -> q ∉ b :: psb) ->
       is_list m' b psb /\ forall q, q ∈ b :: psb -> key m' q = key m q).
Proof.
  intros Hlist Hal Hct Hlen Hfuel.
  destruct (ring_ends m this ps) as (fa & _ & Hfa & _ & Hnfa & _); [by destruct Hlist|].
  destruct (construct_splice m this [] ps el fa Hlist)
    as (p & m1 & m' & Hoc & Hnt & Hbody & Hlist' & Hfresh & Hkp & Hk & Hframe & _);
    [done..|].
  exists m', p. split_and!; try done.
  - unfold push_front.
    assert (try_catch (obj_construct el) (obj_destruct this nullptr ;; throw) m
            = Ok p m1) as Htc by (unfold try_catch; by rewrite Hoc).
    rewrite (bind_Ok _ _ _ _ _ Htc). unfold try_catch.
    rewrite Hnfa in Hnt.
    rewrite (bind_Ok _ _ _ _ _ (get_next_Ok _ _ _ Hnt)). by rewrite Hbody.
  - by rewrite (to_list_inserted m m' this [] ps p el fuel).
  - destruct Hlist' as (_ & _ & Hsz & _). unfold size. rewrite Hsz. f_equal.
    simpl length. lia.
Qed.

(** X3. insert(it, el) with [it] at a real node of the container or at
    [end()], when nothing fails: a fresh node holding the element is linked
    directly in front of [it]'s node, the returned iterator refers to it,
    [sz_] is one larger, and the elements before and after keep their
    order. *)
Theorem insert_before m this A B at_ el fuel :
  is_list m this (A ++ B) -> head (B ++ [this]) = Some at_ ->
  alloc_left m = None -> copy_throws el = false ->
  Z.of_nat (length (A ++ B)) + 1 < size_max ->
  (length (A ++ B) + 1 < fuel)%nat ->
  exists m' p,
    insert this (mkIt at_) el m = Ok (mkIt p) m' /\
    is_list m' this (A ++ p :: B) /\ heap m !! p = None /\
    to_list fuel m' this = Some (map (key m) A ++ el :: map (key m) B) /\
    size this m' = Some (Z.of_nat (length (A ++ B)) + 1) /\
    (forall b psb, is_list m b psb ->
       (forall q, q ∈ this :: A ++ B -> q ∉ b :: psb) ->
       is_list m' b psb /\ forall q, q ∈ b :: psb -> key m' q = key m q).
Proof.
  intros Hlist Hat Hal Hct Hlen Hfuel.
  destruct (construct_splice m this A B el at_ Hlist)
    as (p & m1 & m' & Hoc & _ & Hbody & Hlist' & Hfresh & Hkp & Hk & Hframe & _);
    [done..|].
  exists m', p. split_and!; try done.
  - unfold insert. simpl.
    assert (try_catch (obj_construct el) (obj_destruct this nullptr ;; throw) m
            = Ok p m1) as Htc by (unfold try_catch; by rewrite Hoc).
    rewrite (bind_Ok _ _ _ _ _ Htc).
    assert (try_catch (insert_node at_ p ;; incr_sz this)
                      (obj_destruct this p ;; throw) m1 = Ok tt m') as Htc2
      by (unfold try_catch; by rewrite Hbody).
    by rewrite (bind_Ok _ _ _ _ _ Htc2).
  - by rewrite (to_list_inserted m m' this A B p el fuel).
  - destruct Hlist' as (_ & _ & Hsz & _). unfold size. rewrite Hsz. f_equal.
    rewrite !length_app. simpl. lia.
Qed.

End Insertion.

Lemma push_back_appends_witness :
  is_list mem_123 100%N [101; 102; 103]%N /\
  exists m' p,
    push_back 100%N 7 mem_123 = Ok tt m' /\
    is_list m' 100%N ([101; 102; 103]%N ++ [p]) /\ heap mem_123 !! p = None /\
    to_list 10 m' 100%N = Some (map (key mem_123) [101; 102; 103]%N ++ [7]) /\
    size 100%N m' = Some (Z.of_nat (length [101; 102; 103]%N) + 1) /\
    (forall b psb, is_list mem_123 b psb ->
       (forall q, q ∈ 100%N :: [101; 102; 103]%N -> q ∉ b :: psb) ->
       is_list m' b psb /\ forall q, q ∈ b :: psb -> key m' q = key mem_123 q).
Proof.
  split; [exact mem_123_is_list|].
  apply (push_back_appends mem_123 100%N [101; 102; 103]%N 7 10 mem_123_is_list);
    [reflexivity|reflexivity|by vm_compute|simpl; lia].
Defined.

Lemma push_front_prepends_witness :
  is_list mem_123 100%N [101; 102; 103]%N /\
  exists m' p,
    push_front 100%N 7 mem_123 = Ok tt m' /\
    is_list m' 100%N (p :: [101; 102; 103]%N) /\ heap mem_123 !! p = None /\
    to_list 10 m' 100%N = Some (7 :: map (key mem_123) [101; 102; 103]%N) /\
    size 100%N m' = Some (Z.of_nat (length [101; 102; 103]%N) + 1) /\
    (forall b psb, is_list mem_123 b psb ->
       (forall q, q ∈ 100%N :: [101; 102; 103]%N -> q ∉ b :: psb) ->
       is_list m' b psb /\ forall q, q ∈ b :: psb -> key m' q = key mem_123 q).
Proof.
  split; [exact mem_123_is_list|].
  apply (push_front_prepends mem_123 100%N [101; 102; 103]%N 7 10 mem_123_is_list);
    [reflexivity|reflexivity|by vm_compute|simpl; lia].
Defined.

Lemma insert_before_witness :
  is_list mem_123 100%N ([101%N] ++ [102; 103]%N) /\
  exists m' p,
    insert 100%N (mkIt 102%N) 7 mem_123 = Ok (mkIt p) m' /\
    is_list m' 100%N ([101%N] ++ p :: [102; 103]%N) /\ heap mem_123 !! p = None /\
    to_list 10 m' 100%N =
      Some (map (key mem_123) [101%N] ++ 7 :: map (key mem_123) [102; 103]%N) /\
    size 100%N m' = Some (Z.of_nat (length ([101%N] ++ [102; 103]%N)) + 1) /\
    (forall b psb, is_list mem_123 b psb ->
       (forall q, q ∈ 100%N :: [101%N] ++ [102; 103]%N -> q ∉ b :: psb) ->
       is_list m' b psb /\ forall q, q ∈ b :: psb -> key m' q = key mem_123 q).
Proof.
  split; [exact mem_123_is_list|].
  apply (insert_before mem_123 100%N [101%N] [102; 103]%N 102%N 7 10 mem_123_is_list);
    [reflexivity|reflexivity|reflexivity|by vm_compute|simpl; lia].
Defined.

(** ** Single-node removal *)

Section Removal.
Context {T : Type} `{Element T}.
Implicit Types (m : Mem T) (p q : loc) (ps : list loc).

(** Once node [i] is unlinked, freeing it and decrementing [sz_] leaves a
    well-formed container; containers elsewhere never notice. *)
Lemma unlinked_is_list m m2 this A i B p n :
  is_list m this (A ++ i :: B) ->
  prevf m i = Some p -> nextf m i = Some n ->
  (forall q, nextf m2 q = if decide (q = p) then Some n else nextf m q) ->
  (forall q, prevf m2 q = if decide (q = n) then Some p else prevf m q) ->
  (forall q, dataf m2 q = dataf m q) -> szs m2 = szs m ->
  let m4 := upd_sz this (Z.of_nat (length (A ++ i :: B)) - 1) (free_cell i m2) in
  is_list m4 this (A ++ B) /\
  heap m4 !! i = None /\
  (forall q, q <> i -> key m4 q = key m q) /\
  (forall b psb, is_list m b psb ->
     (forall q, q ∈ this :: A ++ i :: B -> q ∉ b :: psb) ->
     is_list m4 b psb).
Proof.
  intros (Hr & Hnull & Hsz & Hbound) Hp Hn Hnx Hpv Hdt Hs m4.
  assert (ring m2 this (A ++ B)) as Hr2 by (by eapply ring_unlink).
  assert (i ∉ this :: A ++ B) as HiAB by (destruct Hr; by apply NoDup_mid_notin).
  destruct (ring_neighbours _ _ _ _ _ Hr)
    as (p' & n' & Hlp & Hhn & [_ Hp'] & [Hn' _] & _ & _).
  assert (p' = p) as -> by congruence. assert (n' = n) as -> by congruence.
  assert (p ∈ this :: A ++ i :: B) as Hpin.
  { apply last_elem_of in Hlp. set_solver. }
  assert (n ∈ this :: A ++ i :: B) as Hnin.
  { apply head_elem_of in Hhn. set_solver. }
  split_and!.
  - split_and!.
    + eapply ring_frame; [exact Hr2|]. intros q Hq.
      assert (q <> i) by (by intros ->).
      unfold m4. rewrite nextf_upd_sz, prevf_upd_sz.
      by rewrite nextf_free_cell, prevf_free_cell.
    + intros Hn0. apply Hnull. set_solver.
    + simpl. rewrite lookup_insert_eq. f_equal. rewrite !length_app. simpl. lia.
    + rewrite !length_app in *. simpl in *. lia.
  - simpl. apply lookup_delete_eq.
  - intros q Hq. unfold key, m4. rewrite dataf_upd_sz, dataf_free_cell by done.
    by rewrite Hdt.
  - intros b psb Hlb Hdisj. eapply is_list_frame_links; [exact Hlb| |].
    + intros q Hq.
      assert (q <> i) by (intros ->; apply (Hdisj i); [set_solver|done]).
      assert (q <> p) by (intros ->; by apply (Hdisj p)).
      assert (q <> n) by (intros ->; by apply (Hdisj n)).
      unfold m4. rewrite nextf_upd_sz, prevf_upd_sz.
      rewrite nextf_free_cell, prevf_free_cell by done.
      rewrite Hnx, Hpv. by rewrite !decide_False by done.
    + simpl. rewrite lookup_insert_ne; [by rewrite Hs|].
      intros ->. apply (Hdisj b); left.
Qed.

Lemma pop_front_spec m this i B :
  is_list m this (i :: B) ->
  exists m',
    pop_front this m = Ok tt m' /\
    is_list m' this B /\ heap m' !! i = None /\
    (forall q, q <> i -> key m' q = key m q) /\
    (forall b psb, is_list m b psb ->
       (forall q, q ∈ this :: i :: B -> q ∉ b :: psb) -> is_list m' b psb).
Proof.
  intros Hlist. pose proof Hlist as (Hr & Hnull & Hsz & Hbound).
  destruct (ring_neighbours m this [] i B Hr)
    as (p & n & Hlp & Hhn & [Hti Hit] & [Hin Hni] & Hpi & Hni').
  simpl in Hlp. injection Hlp as <-.
  assert (is_Some (node_at m this)) as Hnt by (by eapply nextf_is_node).
  assert (is_Some (node_at m n)) as Hnn by (by eapply prevf_is_node).
  assert (is_Some (node_at m i)) as Hnni by (by eapply nextf_is_node).
  assert (i <> nullptr) as Hi0 by (intros ->; apply Hnull; left).
  set (m1 := upd_next this n m). set (m2 := upd_prev n this m1).
  assert (forall q, nextf m2 q = if decide (q = this) then Some n else nextf m q) as Hnx.
  { intros q. unfold m2, m1. rewrite nextf_upd_prev. by apply nextf_upd_next_node. }
  assert (forall q, prevf m2 q = if decide (q = n) then Some this else prevf m q) as Hpv.
  { intros q. unfold m2, m1. rewrite prevf_upd_prev_node by (by apply is_node_upd_next).
    case_decide; [done|]. apply prevf_upd_next. }
  assert (forall q, dataf m2 q = dataf m q) as Hdt.
  { intros q. unfold m2, m1. by rewrite dataf_upd_prev, dataf_upd_next. }
  destruct (unlinked_is_list m m2 this [] i B this n Hlist Hit Hin Hnx Hpv Hdt eq_refl)
    as (Hl4 & Hg4 & Hk4 & Hf4).
  eexists. split_and!; [|exact Hl4|exact Hg4|exact Hk4|exact Hf4].
  unfold pop_front.
  rewrite (bind_Ok _ _ _ _ _ (get_next_Ok _ _ _ Hti)).
  rewrite (bind_Ok _ _ _ _ _ (get_next_Ok _ _ _ Hin)).
  rewrite (bind_Ok _ _ _ _ _ (set_next_Ok _ _ n Hnt)). fold m1.
  assert (nextf m1 i = Some n) as Hin1.
  { unfold m1. rewrite nextf_upd_next_node by done. by rewrite decide_False. }
  rewrite (bind_Ok _ _ _ _ _ (get_next_Ok _ _ _ Hin1)).
  assert (is_Some (node_at m1 n)) as Hnn1 by (by apply is_node_upd_next).
  rewrite (bind_Ok _ _ _ _ _ (set_prev_Ok _ _ this Hnn1)). fold m2.
  assert (is_Some (node_at m2 i)) as Hni2.
  { unfold m2, m1. by apply is_node_upd_prev, is_node_upd_next. }
  rewrite (bind_Ok _ _ _ _ _ (obj_destruct_Ok _ this _ Hi0 ltac:(set_solver) Hni2)).
  rewrite (decr_sz_Ok (free_cell i m2) _ _ Hsz).
  rewrite wrap_small; [done|]. simpl length in *. lia.
Qed.

Lemma pop_back_spec m this A i :
  is_list m this (A ++ [i]) ->
  exists m',
    pop_back this m = Ok tt m' /\
    is_list m' this A /\ heap m' !! i = None /\
    (forall q, q <> i -> key m' q = key m q) /\
    (forall b psb, is_list m b psb ->
       (forall q, q ∈ this :: A ++ [i] -> q ∉ b :: psb) -> is_list m' b psb).
Proof.
  intros Hlist. pose proof Hlist as (Hr & Hnull & Hsz & Hbound).
  destruct (ring_neighbours m this A i [] Hr)
    as (p & n & Hlp & Hhn & [Hpi' Hip] & [Hit Hti] & Hpi & Hni').
  simpl in Hhn. injection Hhn as <-.
  assert (is_Some (node_at m this)) as Hnt by (by eapply prevf_is_node).
  assert (is_Some (node_at m p)) as Hnp by (by eapply nextf_is_node).
  assert (is_Some (node_at m i)) as Hnni by (by eapply nextf_is_node).
  assert (i <> nullptr) as Hi0 by (intros ->; apply Hnull; set_solver).
  set (m1 := upd_prev this p m). set (m2 := upd_next p this m1).
  assert (forall q, nextf m2 q = if decide (q = p) then Some this else nextf m q) as Hnx.
  { intros q. unfold m2, m1. rewrite nextf_upd_next_node by (by apply is_node_upd_prev).
    case_decide; [done|]. apply nextf_upd_prev. }
  assert (forall q, prevf m2 q = if decide (q = this) then Some p else prevf m q) as Hpv.
  { intros q. unfold m2, m1. rewrite prevf_upd_next. by apply prevf_upd_prev_node. }
  assert (forall q, dataf m2 q = dataf m q) as Hdt.
  { intros q. unfold m2, m1. by rewrite dataf_upd_next, dataf_upd_prev. }
  destruct (unlinked_is_list m m2 this A i [] p this Hlist Hip Hit Hnx Hpv Hdt eq_refl)
    as (Hl4 & Hg4 & Hk4 & Hf4).
  rewrite app_nil_r in Hl4.
  eexists. split_and!; [|exact Hl4|exact Hg4|exact Hk4|exact Hf4].
  unfold pop_back.
  rewrite (bind_Ok _ _ _ _ _ (get_prev_Ok _ _ _ Hti)).
  rewrite (bind_Ok _ _ _ _ _ (get_prev_Ok _ _ _ Hip)).
  rewrite (bind_Ok _ _ _ _ _ (set_prev_Ok _ _ p Hnt)). fold m1.
  assert (prevf m1 i = Some p) as Hip1.
  { unfold m1. rewrite prevf_upd_prev_node by done. by rewrite decide_False. }
  rewrite (bind_Ok _ _ _ _ _ (get_prev_Ok _ _ _ Hip1)).
  assert (is_Some (node_at m1 p)) as Hnp1 by (by apply is_node_upd_prev).
  rewrite (bind_Ok _ _ _ _ _ (set_next_Ok _ _ this Hnp1)). fold m2.
  assert (is_Some (node_at m2 i)) as Hni2.
  { unfold m2, m1. by apply is_node_upd_next, is_node_upd_prev. }
  rewrite (bind_Ok _ _ _ _ _ (obj_destruct_Ok _ this _ Hi0 ltac:(set_solver) Hni2)).
  rewrite (decr_sz_Ok (free_cell i m2) _ _ Hsz).
  rewrite wrap_small; [done|]. rewrite length_app in *. simpl in *. lia.
Qed.

End Removal.

Section RemovalTheorems.
Context {T : Type} `{Element T}.
Implicit Types (m : Mem T) (p q : loc) (ps : list loc).

Lemma to_list_kept m m' this ps fuel :
  is_list m' this ps -> (forall q, q ∈ ps -> key m' q = key m q) ->
  (length ps < fuel)%nat ->
  to_list fuel m' this = Some (map (key m) ps).
Proof.
  intros (Hr & _) Hk Hfuel. rewrite (to_list_ring m' this ps fuel Hr Hfuel).
  f_equal. apply map_ext_in. intros q Hq%list_elem_of_In. by apply Hk.
Qed.

(** X4. pop_front on a well-formed, non-empty container unlinks and
    destroys the first node: the remaining elements keep their order,
    [sz_] drops by one, and other containers are untouched (same
    structure, same payloads). *)
Theorem pop_front_removes_first m this i B fuel :
  is_list m this (i :: B) -> (length B < fuel)%nat ->
  exists m',
    pop_front this m = Ok tt m' /\
    is_list m' this B /\ heap m' !! i = None /\
    to_list fuel m' this = Some (map (key m) B) /\
    size this m' = Some (Z.of_nat (length B)) /\
    (forall b psb, is_list m b psb ->
       (forall q, q ∈ this :: i :: B -> q ∉ b :: psb) ->
       is_list m' b psb /\ forall q, q ∈ b :: psb -> key m' q = key m q).
Proof.
  intros Hlist Hfuel.
  destruct (pop_front_spec m this i B Hlist) as (m' & Hpop & Hl' & Hg & Hk & Hf).
  exists m'. split_and!; try done.
  - apply to_list_kept; [done| |done]. intros q Hq. apply Hk. intros ->.
    destruct Hlist as ([Hnd _] & _).
    apply NoDup_cons in Hnd as [_ Hnd]. by apply NoDup_cons in Hnd as [? _].
  - by destruct Hl' as (_ & _ & ? & _).
  - intros b psb Hlb Hdisj. split; [by apply Hf|].
    intros q Hq. apply Hk. intros ->. apply (Hdisj i); [set_solver|done].
Qed.

(** X5. pop_back on a well-formed, non-empty container unlinks and
    destroys the last node: the remaining elements keep their order,
    [sz_] drops by one, and other containers are untouched (same
    structure, same payloads). *)
Theorem pop_back_removes_last m this A i fuel :
  is_list m this (A ++ [i]) -> (length A < fuel)%nat ->
  exists m',
    pop_back this m = Ok tt m' /\
    is_list m' this A /\ heap m' !! i = None /\
    to_list fuel m' this = Some (map (key m) A) /\
    size this m' = Some (Z.of_nat (length A)) /\
    (forall b psb, is_list m b psb ->
       (forall q, q ∈ this :: A ++ [i] -> q ∉ b :: psb) ->
       is_list m' b psb /\ forall q, q ∈ b :: psb -> key m' q = key m q).
Proof.
  intros Hlist Hfuel.
  destruct (pop_back_spec m this A i Hlist) as (m' & Hpop & Hl' & Hg & Hk & Hf).
  exists m'. split_and!; try done.
  - apply to_list_kept; [done| |done]. intros q Hq. apply Hk. intros ->.
    destruct Hlist as ([Hnd _] & _).
    apply NoDup_cons in Hnd as [_ Hnd].
    apply NoDup_app in Hnd as (_ & Hd & _). apply (Hd i Hq). left.
  - by destruct Hl' as (_ & _ & ? & _).
  - intros b psb Hlb Hdisj. split; [by apply Hf|].
    intros q Hq. apply Hk. intros ->. apply (Hdisj i); [set_solver|done].
Qed.

(** X6. pop_back undoes push_back: push_back links a fresh node [p],
    holding the element, as the last node; after the pop_back that
    follows the container is well formed on its old nodes, iterates as
    before with its old size, and [p] has been released. *)
Theorem push_back_pop_back m this ps el fuel :
  is_list m this ps -> alloc_left m = None -> copy_throws el = false ->
  Z.of_nat (length ps) + 1 < size_max -> (length ps < fuel)%nat ->
  exists m' m'' p,
    push_back this el m = Ok tt m' /\
    heap m !! p = None /\ is_list m' this (ps ++ [p]) /\
    dataf m' p = Some el /\
    pop_back this m' = Ok tt m'' /\
    is_list m'' this ps /\ heap m'' !! p = None /\
    to_list fuel m'' this = to_list fuel m this /\
    size this m'' = size this m.
Proof.
  intros Hlist Hal Hct Hlen Hfuel.
  destruct (push_back_spec m this ps el Hlist Hal Hct Hlen)
    as (m' & p & Hpush & Hl' & Hfresh & Hdp & Hd').
  destruct (pop_back_spec m' this ps p Hl') as (m'' & Hpop & Hl'' & Hg & Hk & _).
  assert (p ∉ this :: ps) as Hp.
  { intros Hin. destruct Hlist as (Hr & _).
    destruct (ring_is_node m this ps p Hr Hin) as [x Hx].
    unfold node_at in Hx. by rewrite Hfresh in Hx. }
  exists m', m'', p. split_and!; try done.
  - rewrite (to_list_ring m this ps fuel) by (by destruct Hlist).
    apply to_list_kept; [done| |done]. intros q Hq.
    rewrite Hk by (intros ->; apply Hp; by right).
    unfold key. rewrite Hd'; [done|by right].
  - unfold size. destruct Hl'' as (_ & _ & -> & _).
    by destruct Hlist as (_ & _ & -> & _).
Qed.

(** X7. pop_front undoes push_front: push_front links a fresh node [p],
    holding the element, as the first node; after the pop_front that
    follows the container is well formed on its old nodes, iterates as
    before with its old size, and [p] has been released. *)
Theorem push_front_pop_front m this ps el fuel :
  is_list m this ps -> alloc_left m = None -> copy_throws el = false ->
  Z.of_nat (length ps) + 1 < size_max -> (length ps < fuel)%nat ->
  exists m' m'' p,
    push_front this el m = Ok tt m' /\
    heap m !! p = None /\ is_list m' this (p :: ps) /\
    dataf m' p = Some el /\
    pop_front this m' = Ok tt m'' /\
    is_list m'' this ps /\ heap m'' !! p = None /\
    to_list fuel m'' this = to_list fuel m this /\
    size this m'' = size this m.
Proof.
  intros Hlist Hal Hct Hlen Hfuel.
  destruct (ring_ends m this ps) as (fa & _ & Hfa & _ & Hnfa & _); [by destruct Hlist|].
  destruct (construct_splice m this [] ps el fa Hlist)
    as (p & m1 & m' & Hoc & Hnt & Hbody & Hl' & Hfresh & Hkp & Hk' & _);
    [done..|].
  destruct (pop_front_spec m' this p ps Hl') as (m'' & Hpop & Hl'' & Hg & Hk & _).
  assert (p ∉ this :: ps) as Hp.
  { intros Hin. destruct Hlist as (Hr & _).
    destruct (ring_is_node m this ps p Hr Hin) as [x Hx].
    unfold node_at in Hx. by rewrite Hfresh in Hx. }
  exists m', m'', p. split_and!; try done.
  - unfold push_front.
    assert (try_catch (obj_construct el) (obj_destruct this nullptr ;; throw) m
            = Ok p m1) as Htc by (unfold try_catch; by rewrite Hoc).
    rewrite (bind_Ok _ _ _ _ _ Htc). unfold try_catch.
    rewrite Hnfa in Hnt.
    rewrite (bind_Ok _ _ _ _ _ (get_next_Ok _ _ _ Hnt)). by rewrite Hbody.
  - rewrite <- Hkp. apply dataf_key; [apply links_only_refl|].
    destruct Hl' as (Hr' & _). apply (ring_is_node m' this (p :: ps) p Hr').
    right. left.
  - rewrite (to_list_ring m this ps fuel) by (by destruct Hlist).
    apply to_list_kept; [done| |done]. intros q Hq.
    rewrite Hk by (intros ->; apply Hp; by right).
    apply Hk'. by right.
  - unfold size. destruct Hl'' as (_ & _ & -> & _).
    by destruct Hlist as (_ & _ & -> & _).
Qed.

(** X8. pop_front and pop_back do not check for emptiness: on an empty
    container the node they pick is the sentinel itself, and after
    rewriting its links to itself they hand it to [obj_destruct].  The
    sentinel is a member of the container, not storage from the
    allocator, so both calls are undefined on an empty container. *)
Theorem pop_on_empty_is_undefined m this :
  is_list m this [] -> this <> nullptr ->
  pop_front this m = UB /\ pop_back this m = UB.
Proof.
  intros ([_ [[Hn Hp] _]] & _) Hnn.
  assert (is_Some (node_at m this)) as Hnt by (by eapply nextf_is_node).
  assert (forall m2 : Mem T, (obj_destruct this this ;; decr_sz this) m2 = UB) as Hub.
  { intros m2. unfold bind, obj_destruct.
    rewrite decide_False by done. by rewrite decide_True. }
  split.
  - set (m1 := upd_next this this m).
    assert (nextf m1 this = Some this) as Hn1.
    { unfold m1. rewrite nextf_upd_next_node by done. by rewrite decide_True. }
    assert (is_Some (node_at m1 this)) as Hnt1 by (by apply is_node_upd_next).
    unfold pop_front.
    rewrite (bind_Ok _ _ _ _ _ (get_next_Ok _ _ _ Hn)).
    rewrite (bind_Ok _ _ _ _ _ (get_next_Ok _ _ _ Hn)).
    rewrite (bind_Ok _ _ _ _ _ (set_next_Ok _ _ this Hnt)). fold m1.
    rewrite (bind_Ok _ _ _ _ _ (get_next_Ok _ _ _ Hn1)).
    rewrite (bind_Ok _ _ _ _ _ (set_prev_Ok _ _ this Hnt1)).
    apply Hub.
  - set (m1 := upd_prev this this m).
    assert (prevf m1 this = Some this) as Hp1.
    { unfold m1. rewrite prevf_upd_prev_node by done. by rewrite decide_True. }
    assert (is_Some (node_at m1 this)) as Hnt1 by (by apply is_node_upd_prev).
    unfold pop_back.
    rewrite (bind_Ok _ _ _ _ _ (get_prev_Ok _ _ _ Hp)).
    rewrite (bind_Ok _ _ _ _ _ (get_prev_Ok _ _ _ Hp)).
    rewrite (bind_Ok _ _ _ _ _ (set_prev_Ok _ _ this Hnt)). fold m1.
    rewrite (bind_Ok _ _ _ _ _ (get_prev_Ok _ _ _ Hp1)).
    rewrite (bind_Ok _ _ _ _ _ (set_next_Ok _ _ this Hnt1)).
    apply Hub.
Qed.

End RemovalTheorems.

(** ** Move-merge *)

Section MoveMerge.
Context {T : Type} `{Element T}.
Implicit Types (m : Mem T) (p q : loc) (ps : list loc).

(** The pointer transfer of [merge(List&&)]. *)
Lemma merge_move_links_Ok m this other la fb lb sa sb :
  this <> other ->
  prevf m this = Some la -> nextf m other = Some fb -> prevf m other = Some lb ->
  is_Some (node_at m la) -> is_Some (node_at m fb) -> is_Some (node_at m lb) ->
  this <> fb -> other <> la ->
  szs m !! this = Some sa -> szs m !! other = Some sb ->
  let lb' := if decide (fb = other) then la else lb in
  exists m',
    merge_move this other m = Ok tt m' /\
    (forall q, nextf m' q = if decide (q = other) then Some other
                            else if decide (q = lb') then Some this
                            else if decide (q = la) then Some fb
                            else nextf m q) /\
    (forall q, prevf m' q = if decide (q = other) then Some other
                            else if decide (q = this) then Some lb'
                            else if decide (q = fb) then Some la
                            else prevf m q) /\
    (forall q, dataf m' q = dataf m q) /\
    dom (heap m') = dom (heap m) /\
    szs m' = <[other := 0]> (<[this := wrap (sa + sb)]> (szs m)) /\
    alloc_left m' = alloc_left m.
Proof.
  intros Hto Hla Hfb Hlb Hnla Hnfb Hnlb Htfb Hola Hsa Hsb lb'.
  assert (is_Some (node_at m this)) as Hnt by (by eapply prevf_is_node).
  assert (is_Some (node_at m other)) as Hno by (by eapply nextf_is_node).
  assert (is_Some (node_at m lb')) as Hnlb' by (unfold lb'; by case_decide).
  set (m1 := upd_next la fb m). set (m2 := upd_prev fb la m1).
  set (m3 := upd_prev this lb' m2). set (m4 := upd_next lb' this m3).
  set (m5 := upd_next other other m4). set (m6 := upd_prev other other m5).
  assert (forall q, is_Some (node_at m q) -> is_Some (node_at m1 q)) as N1
    by (intros; by apply is_node_upd_next).
  assert (forall q, is_Some (node_at m q) -> is_Some (node_at m2 q)) as N2
    by (intros; by apply is_node_upd_prev, N1).
  assert (forall q, is_Some (node_at m q) -> is_Some (node_at m3 q)) as N3
    by (intros; by apply is_node_upd_prev, N2).
  assert (forall q, is_Some (node_at m q) -> is_Some (node_at m4 q)) as N4
    by (intros; by apply is_node_upd_next, N3).
  assert (forall q, is_Some (node_at m q) -> is_Some (node_at m5 q)) as N5
    by (intros; by apply is_node_upd_next, N4).
  assert (nextf m1 other = Some fb) as Hfb1.
  { unfold m1. rewrite nextf_upd_next_node by done. by rewrite decide_False. }
  assert (prevf m1 this = Some la) as Hla1 by (unfold m1; by rewrite prevf_upd_next).
  assert (prevf m2 other = Some lb') as Hlb2.
  { unfold m2. rewrite prevf_upd_prev_node by (by apply N1). unfold lb'.
    destruct (decide (fb = other)) as [->|Hne].
    - by rewrite decide_True.
    - rewrite decide_False by done. unfold m1. by rewrite prevf_upd_next. }
  assert (prevf m3 this = Some lb') as Hlb3.
  { unfold m3. rewrite prevf_upd_prev_node by (by apply N2). by rewrite decide_True. }
  exists (upd_sz other 0 (upd_sz this (wrap (sa + sb)) m6)). split_and!.
  - unfold merge_move. rewrite decide_False by done.
    rewrite (bind_Ok _ _ _ _ _ (get_prev_Ok _ _ _ Hla)).
    rewrite (bind_Ok _ _ _ _ _ (get_next_Ok _ _ _ Hfb)).
    rewrite (bind_Ok _ _ _ _ _ (set_next_Ok _ _ fb Hnla)). fold m1.
    rewrite (bind_Ok _ _ _ _ _ (get_next_Ok _ _ _ Hfb1)).
    rewrite (bind_Ok _ _ _ _ _ (get_prev_Ok _ _ _ Hla1)).
    rewrite (bind_Ok _ _ _ _ _ (set_prev_Ok _ _ la (N1 _ Hnfb))). fold m2.
    rewrite (bind_Ok _ _ _ _ _ (get_prev_Ok _ _ _ Hlb2)).
    rewrite (bind_Ok _ _ _ _ _ (set_prev_Ok _ _ lb' (N2 _ Hnt))). fold m3.
    rewrite (bind_Ok _ _ _ _ _ (get_prev_Ok _ _ _ Hlb3)).
    rewrite (bind_Ok _ _ _ _ _ (set_next_Ok _ _ this (N3 _ Hnlb'))). fold m4.
    rewrite (bind_Ok _ _ _ _ _ (set_next_Ok _ _ other (N4 _ Hno))). fold m5.
    rewrite (bind_Ok _ _ _ _ _ (set_prev_Ok _ _ other (N5 _ Hno))). fold m6.
    rewrite (bind_Ok _ _ _ _ _ (get_sz_Ok m6 _ _ Hsa)).
    rewrite (bind_Ok _ _ _ _ _ (get_sz_Ok m6 _ _ Hsb)).
    rewrite (bind_Ok _ _ _ _ _
               (set_sz_Ok m6 this (wrap (sa + sb)) (mk_is_Some _ _ Hsa))).
    apply set_sz_Ok. simpl. rewrite lookup_insert_ne by done.
    exact (mk_is_Some _ _ Hsb).
  - intros q. rewrite !nextf_upd_sz. unfold m6. rewrite nextf_upd_prev.
    unfold m5. rewrite nextf_upd_next_node by (by apply N4).
    case_decide; [done|]. unfold m4.
    rewrite nextf_upd_next_node by (by apply N3). case_decide; [done|].
    unfold m3, m2. rewrite !nextf_upd_prev. unfold m1.
    by rewrite nextf_upd_next_node.
  - intros q. rewrite !prevf_upd_sz. unfold m6.
    rewrite prevf_upd_prev_node by (by apply N5). case_decide; [done|].
    unfold m5, m4. rewrite !prevf_upd_next. unfold m3.
    rewrite prevf_upd_prev_node by (by apply N2). case_decide; [done|].
    unfold m2. rewrite prevf_upd_prev_node by (by apply N1).
    case_decide; [done|]. unfold m1. by rewrite prevf_upd_next.
  - intros q. rewrite !dataf_upd_sz. unfold m6, m5, m4, m3, m2, m1.
    by rewrite dataf_upd_prev, !dataf_upd_next, !dataf_upd_prev, dataf_upd_next.
  - simpl. by rewrite !dom_alter_L.
  - done.
  - done.
Qed.

(** X9. merge(List&&) between two distinct well-formed containers whose
    sizes add up below 2^64: the source's node chain is linked after the
    destination's, by pointer rewriting alone (no cell is allocated or
    freed, no payload changes); the destination iterates as its old
    sequence followed by the source's, with the sizes added, and the source
    is left empty.  An empty source or an empty destination needs no
    special case. *)
Theorem merge_move_splices m a b psa psb fuel :
  is_list m a psa -> is_list m b psb ->
  (forall q, q ∈ a :: psa -> q ∉ b :: psb) ->
  Z.of_nat (length psa) + Z.of_nat (length psb) < size_max ->
  (length psa + length psb < fuel)%nat ->
  exists m',
    merge_move a b m = Ok tt m' /\
    is_list m' a (psa ++ psb) /\ is_list m' b [] /\
    to_list fuel m' a = Some (map (key m) psa ++ map (key m) psb) /\
    to_list fuel m' b = Some [] /\
    size a m' = Some (Z.of_nat (length psa) + Z.of_nat (length psb)) /\
    dom (heap m') = dom (heap m) /\ alloc_left m' = alloc_left m.
Proof.
  intros (Hra & Hnulla & Hsa & Hba) (Hrb & Hnullb & Hsb & Hbb) Hdisj Hlen Hfuel.
  assert (a <> b) as Hab by (intros ->; apply (Hdisj b); left).
  destruct (ring_ends _ _ _ Hra) as (fa & la & Hfa & Hla & Hnfa & Hpla).
  destruct (ring_ends _ _ _ Hrb) as (fb & lb & Hfb & Hlb & Hnfb & Hplb).
  assert (la ∈ a :: psa) as Hlain by (by apply last_elem_of).
  assert (lb ∈ b :: psb) as Hlbin by (by apply last_elem_of).
  assert (fb ∈ b :: psb) as Hfbin by (apply head_elem_of in Hfb; set_solver).
  assert (a <> fb) as Hafb by (intros <-; apply (Hdisj a); [left|done]).
  assert (b <> la) as Hbla by (intros <-; apply (Hdisj b); [done|left]).
  destruct (merge_move_links_Ok m a b la fb lb
              (Z.of_nat (length psa)) (Z.of_nat (length psb)) Hab Hpla Hnfb Hplb)
    as (m' & Hrun & Hnx & Hpv & Hdt & Hdom & Hs & Hal); try done.
  { by apply (ring_is_node m a psa). }
  { by apply (ring_is_node m b psb). }
  { by apply (ring_is_node m b psb). }
  assert (is_list m' b []) as Hlb'.
  { split_and!.
    - split; [apply NoDup_singleton|]. simpl. split; [|done].
      split; [rewrite Hnx|rewrite Hpv]; by rewrite decide_True.
    - by intros ?%elem_of_nil.
    - rewrite Hs. by rewrite lookup_insert_eq.
    - done. }
  assert (is_list m' a (psa ++ psb)) as Hla'.
  { split_and!.
    - destruct psb as [|x psb0].
      + simpl in Hfb, Hlb. injection Hfb as <-. injection Hlb as <-.
        rewrite decide_True in Hnx, Hpv by done. rewrite app_nil_r.
        eapply ring_frame; [exact Hra|]. intros q Hq.
        assert (q <> b) by (intros ->; apply (Hdisj b); [done|left]).
        assert (nextf m la = Some a) as Hlaa.
        { assert (ring m a (psa ++ [])) as Hra0 by (by rewrite app_nil_r).
          destruct (ring_cut m a psa [] Hra0) as (p' & n' & Hp' & Hn' & [Hl1 _] & _).
          simpl in Hn'. injection Hn' as <-. congruence. }
        rewrite Hnx, Hpv. split; repeat case_decide; subst; try done.
      + set (psb := x :: psb0) in *.
        assert (fb <> b) as Hfbb.
        { simpl in Hfb. injection Hfb as <-.
          destruct Hrb as [[Hni _]%NoDup_cons _]. intros ->. apply Hni. left. }
        rewrite decide_False in Hnx, Hpv by done.
        destruct Hra as [Hnda Hca]. destruct Hrb as [Hndb Hcb].
        assert (NoDup psb) as Hndp by (by apply NoDup_cons in Hndb as [_ ?]).
        assert (b ∉ psb) as Hbn by (by apply NoDup_cons in Hndb as [? _]).
        assert (head psb = Some fb) as Hhd by (simpl in Hfb; done).
        assert (last psb = Some lb) as Hlast.
        { unfold psb in *. by rewrite last_cons_cons in Hlb. }
        assert (lb ∈ psb) as Hlbp by (by apply last_elem_of).
        assert (fb ∈ psb) as Hfbp by (by apply head_elem_of).
        assert (forall q, q ∈ psb -> q ∉ a :: psa) as Hdisj'.
        { intros q Hq Hq'. apply (Hdisj q Hq'). by right. }
        assert (forall q, q ∈ a :: psa -> q <> b /\ q <> lb /\ q <> fb) as HA.
        { intros q Hq. split_and!; intros ->.
          - apply (Hdisj b); [done|left].
          - by apply (Hdisj' lb).
          - by apply (Hdisj' fb). }
        assert (forall q, q ∈ psb -> q <> b /\ q <> a /\ q <> la) as HB.
        { intros q Hq. split_and!; intros ->.
          - done.
          - apply (Hdisj' a); [done|left].
          - by apply (Hdisj' la). }
        split.
        * apply NoDup_cons in Hnda as [Hna Hndpa]. apply NoDup_cons. split.
          -- intros [?|?]%elem_of_app; [done|]. apply (Hdisj a); [left|by right].
          -- apply NoDup_app. split_and!; [done| |done].
             intros q Hq Hq'. apply (Hdisj q); by right.
        * replace (a :: (psa ++ psb) ++ [a]) with ((a :: psa) ++ (psb ++ [a]))
            by (simpl; by rewrite <- app_assoc).
          apply chain_app. split_and!.
          -- change (a :: psa ++ [a]) with ((a :: psa) ++ [a]) in Hca.
             apply chain_app in Hca as (Hca & _ & _).
             eapply chain_frame; [exact Hca| |].
             ++ intros q Hq.
                pose proof (NoDup_last_removelast la (a :: psa) Hnda Hla) as Hlr.
                apply elem_of_removelast in Hq as Hq'.
                destruct (HA q Hq') as (? & ? & ?).
                rewrite Hnx. repeat case_decide; subst; done.
             ++ intros q Hq. simpl in Hq.
                destruct (HA q) as (? & ? & ?); [by right|].
                assert (q <> a) by (intros ->; by apply NoDup_cons in Hnda as [? _]).
                rewrite Hpv. repeat case_decide; subst; done.
          -- apply chain_app. split_and!; [|done|].
             ++ change (b :: psb ++ [b]) with ([b] ++ psb ++ [b]) in Hcb.
                apply chain_app in Hcb as (_ & Hcb & _).
                apply chain_app in Hcb as (Hcb & _ & _).
                eapply chain_frame; [exact Hcb| |].
                ** intros q Hq.
                   pose proof (NoDup_last_removelast lb psb Hndp Hlast) as Hlr.
                   apply elem_of_removelast in Hq as Hq'.
                   destruct (HB q Hq') as (? & ? & ?).
                   rewrite Hnx. repeat case_decide; subst; done.
                ** intros q Hq.
                   pose proof (NoDup_head_tail fb psb Hndp Hhd) as Hht.
                   apply elem_of_tail in Hq as Hq'.
                   destruct (HB q Hq') as (? & ? & ?).
                   rewrite Hpv. repeat case_decide; subst; done.
             ++ intros u v Hu [= <-]. assert (u = lb) as -> by congruence.
                destruct (HB lb Hlbp) as (? & ? & ?).
                split; [rewrite Hnx|rewrite Hpv]; repeat case_decide; subst; done.
          -- intros u v Hu Hv. assert (u = la) as -> by congruence.
             assert (v = fb) as ->.
             { unfold psb in Hv. simpl in Hv, Hhd. congruence. }
             destruct (HA la Hlain) as (? & ? & ?).
             destruct (HB fb Hfbp) as (? & ? & ?).
             split; [rewrite Hnx|rewrite Hpv]; repeat case_decide; subst; done.
    - intros [?|?]%elem_of_app; done.
    - rewrite Hs. rewrite lookup_insert_ne by done. rewrite lookup_insert_eq.
      f_equal. rewrite wrap_small by lia. rewrite length_app. lia.
    - rewrite length_app. lia. }
  exists m'. split_and!; try done.
  - rewrite (to_list_ring m' a (psa ++ psb) fuel); [|by destruct Hla'|].
    + rewrite map_app. f_equal. f_equal; apply map_ext; intros q; unfold key;
        by rewrite Hdt.
    + rewrite length_app. lia.
  - rewrite (to_list_ring m' b [] fuel); [done|by destruct Hlb'|simpl; lia].
  - destruct Hla' as (_ & _ & Hsz' & _). unfold size. rewrite Hsz'. f_equal.
    rewrite length_app. lia.
Qed.

End MoveMerge.

(** ** clear, the destructor, accessors and iterator steps *)

Section AccessorTheorems.
Context {T : Type} `{Element T}.
Implicit Types (m : Mem T) (p q : loc) (ps : list loc).

(** X10. clear() on a well-formed container, and the destructor, which
    only calls it: every real node is destroyed and its storage released,
    the container is left empty and well formed (self-linked sentinel,
    size 0), and no cell outside the container is touched, so other
    containers stay as they were. *)
Theorem clear_releases_all_nodes m this ps fuel :
  is_list m this ps -> (length ps < fuel)%nat ->
  exists m',
    clear fuel this m = Ok tt m' /\ List_dtor fuel this m = Ok tt m' /\
    is_list m' this [] /\
    (forall q, q ∈ ps -> heap m' !! q = None) /\
    to_list fuel m' this = Some [] /\ size this m' = Some 0 /\
    (forall q, q ∉ this :: ps -> heap m' !! q = heap m !! q) /\
    (forall b psb, is_list m b psb ->
       (forall q, q ∈ this :: ps -> q ∉ b :: psb) -> is_list m' b psb) /\
    alloc_left m' = alloc_left m.
Proof.
  intros Hlist Hfuel.
  destruct (clear_spec m this ps fuel Hlist Hfuel)
    as (m' & Hclear & Hl' & _ & Hfreed & Hframe & Hszs & Hal).
  exists m'. split_and!; try done.
  - rewrite (to_list_ring m' this [] fuel); [done|by destruct Hl'|simpl; lia].
  - by destruct Hl' as (_ & _ & ? & _).
  - intros b psb Hlb Hdisj. eapply is_list_frame; [exact Hlb| |].
    + intros q Hq. apply Hframe. intros Hq'. by apply (Hdisj q).
    + apply Hszs. intros ->. apply (Hdisj this); left.
Qed.

Lemma dataf_node_key m q : is_Some (node_at m q) -> dataf m q = Some (key m q).
Proof. intros Hn. apply dataf_key; [apply links_only_refl|done]. Qed.

(** X11. On a well-formed, non-empty container front() reads the payload
    of the first node and back() that of the last, leaving the memory as
    it is. *)
Theorem front_back_read_the_ends m this ps x y :
  is_list m this ps -> head ps = Some x -> last ps = Some y ->
  front this m = Ok (key m x) m /\ back this m = Ok (key m y) m.
Proof.
  intros (Hr & _) Hx Hy. split.
  - destruct ps as [|x' mid]; [done|]. simpl in Hx. injection Hx as ->.
    destruct (ring_neighbours m this [] x mid Hr)
      as (p & n & Hlp & _ & [Htx _] & _).
    simpl in Hlp. injection Hlp as <-.
    unfold front, begin. rewrite (bind_Ok _ _ _ _ _ (get_next_Ok _ _ _ Htx)).
    apply get_data_Ok, dataf_node_key.
    apply (ring_is_node m this (x :: mid)); [done|]. right. left.
  - apply last_Some in Hy as [mid ->].
    destruct (ring_neighbours m this mid y [] Hr)
      as (p & n & _ & Hhn & _ & [_ Hty] & _).
    simpl in Hhn. injection Hhn as <-.
    unfold back, end_. rewrite (bind_Ok _ _ _ _ _ (get_prev_Ok _ _ _ Hty)).
    apply get_data_Ok, dataf_node_key.
    apply (ring_is_node m this (mid ++ [y])); [done|]. set_solver.
Qed.

(** X12. front() and back() do not check for emptiness: on an empty
    container both read the sentinel's own payload.  On a container just
    built by the default constructor that payload is the value the
    sentinel was constructed from, T(0). *)
Theorem front_back_on_empty_read_sentinel m this :
  is_list m this [] ->
  front this m = Ok (key m this) m /\ back this m = Ok (key m this) m /\
  (forall m0, List_ctor this m0 = Ok tt m -> key m this = from_zero).
Proof.
  intros ([_ [[Hn Hp] _]] & _).
  assert (is_Some (node_at m this)) as Hnt by (by eapply nextf_is_node).
  split_and!.
  - unfold front, begin. rewrite (bind_Ok _ _ _ _ _ (get_next_Ok _ _ _ Hn)).
    by apply get_data_Ok, dataf_node_key.
  - unfold back, end_. rewrite (bind_Ok _ _ _ _ _ (get_prev_Ok _ _ _ Hp)).
    by apply get_data_Ok, dataf_node_key.
  - intros m0 [= <-]. unfold key, dataf, node_at. simpl.
    by rewrite lookup_insert_eq.
Qed.

(** Every address on a ring has a successor and a predecessor on it. *)
Lemma ring_step m this ps q :
  ring m this ps -> q ∈ this :: ps ->
  exists n p, linked m q n /\ linked m p q /\
              n ∈ this :: ps /\ p ∈ this :: ps.
Proof.
  intros Hr [->|Hq]%elem_of_cons.
  - destruct (ring_cut m this [] ps Hr) as (p & n & Hp & Hn & Hl1 & _).
    simpl in Hp. injection Hp as <-.
    assert (ring m this (ps ++ [])) as Hr' by (by rewrite app_nil_r).
    destruct (ring_cut m this ps [] Hr') as (p' & n' & Hp' & Hn' & Hl2 & _).
    simpl in Hn'. injection Hn' as <-.
    exists n, p'. split_and!; [done|done| |by apply last_elem_of].
    apply head_elem_of in Hn. set_solver.
  - apply list_elem_of_split in Hq as (A & B & ->).
    destruct (ring_neighbours m this A q B Hr)
      as (p & n & Hp & Hn & Hl1 & Hl2 & _).
    exists n, p. split_and!; [done|done| |].
    + apply head_elem_of in Hn. set_solver.
    + apply last_elem_of in Hp. set_solver.
Qed.

(** X13. On a well-formed container the iterator steps are inverse to
    each other at every position, the sentinel included: [--(++it)] and
    [++(--it)] are both [it], and neither step leaves the container's
    nodes or changes the memory. *)
Theorem iterator_steps_are_inverse m this ps q :
  is_list m this ps -> q ∈ this :: ps ->
  exists n p,
    it_incr (mkIt q) m = Ok (mkIt n) m /\ it_decr (mkIt n) m = Ok (mkIt q) m /\
    it_decr (mkIt q) m = Ok (mkIt p) m /\ it_incr (mkIt p) m = Ok (mkIt q) m /\
    n ∈ this :: ps /\ p ∈ this :: ps.
Proof.
  intros (Hr & _) Hq.
  destruct (ring_step m this ps q Hr Hq) as (n & p & [Hqn Hnq] & [Hpq Hqp] & Hn & Hp).
  exists n, p. unfold it_incr, it_decr. simpl. split_and!; try done.
  - by rewrite (bind_Ok _ _ _ _ _ (get_next_Ok _ _ _ Hqn)).
  - by rewrite (bind_Ok _ _ _ _ _ (get_prev_Ok _ _ _ Hnq)).
  - by rewrite (bind_Ok _ _ _ _ _ (get_prev_Ok _ _ _ Hqp)).
  - by rewrite (bind_Ok _ _ _ _ _ (get_next_Ok _ _ _ Hpq)).
Qed.

(** X14. empty() agrees with the links of a well-formed container: it
    answers true exactly when [begin()] is [end()]. *)
Theorem empty_iff_begin_is_end m this ps :
  is_list m this ps ->
  exists e b,
    empty this m = Ok e m /\ begin this m = Ok b m /\
    (e = true <-> ps = []) /\ (it_eq (mkIt b) (mkIt (end_ this)) = e).
Proof.
  intros (Hr & Hnull & Hsz & Hb).
  destruct (ring_ends m this ps Hr) as (fa & _ & Hfa & _ & Hnfa & _).
  exists (Z.of_nat (length ps) =? 0), fa. split_and!.
  - unfold empty. by rewrite (bind_Ok _ _ _ _ _ (get_sz_Ok _ _ _ Hsz)).
  - unfold begin. by apply get_next_Ok.
  - rewrite Z.eqb_eq. destruct ps; simpl; split; intros; try done; lia.
  - unfold it_eq, end_. simpl. destruct ps as [|x ps'].
    + simpl in Hfa. injection Hfa as <-. by rewrite bool_decide_eq_true_2.
    + simpl in Hfa. injection Hfa as <-.
      rewrite bool_decide_eq_false_2; [done|]. intros ->.
      destruct Hr as [[Hni _]%NoDup_cons _]. apply Hni. left.
Qed.

Lemma bind_Throw {A B} (c : M T A) (k : A -> M T B) m m' :
  c m = Throw m' -> bind c k m = Throw m'.
Proof. unfold bind. by intros ->. Qed.

(** X15. When the allocator is exhausted, push_back / push_front / insert
    signal the failure and leave the whole memory exactly as it was. *)
Theorem insertion_alloc_failure_changes_nothing m this it el :
  alloc_left m = Some O ->
  push_back this el m = Throw m /\
  push_front this el m = Throw m /\
  insert this it el m = Throw m.
Proof.
  intros Hal.
  assert (try_catch (obj_construct el) (obj_destruct this nullptr ;; throw) m
          = (Throw m : Res (Mem T) loc)) as Htc.
  { unfold try_catch, obj_construct, bind, allocate. rewrite Hal.
    unfold obj_destruct, throw. by rewrite decide_True. }
  unfold push_back, push_front, insert.
  split_and!; by apply bind_Throw.
Qed.

End AccessorTheorems.

(** ** sort on a container that is already in order *)

Section SortSorted.
Context {T : Type} `{Element T}.
Implicit Types (m : Mem T) (p q : loc) (ps : list loc).

Lemma StronglySorted_before (R : loc -> loc -> Prop) P i C :
  StronglySorted R (P ++ i :: C) -> forall p, p ∈ P -> R p i.
Proof.
  induction P as [|a P IH]; simpl; intros Hs p Hp; [by apply elem_of_nil in Hp|].
  apply StronglySorted_inv in Hs as [Hs Ha].
  apply elem_of_cons in Hp as [->|Hp]; [|by apply IH].
  rewrite Forall_forall in Ha. apply Ha. set_solver.
Qed.

Lemma StronglySorted_keys (R : T -> T -> Prop) (k : loc -> T) P :
  StronglySorted R (map k P) -> StronglySorted (fun a b => R (k a) (k b)) P.
Proof.
  induction P as [|a P IH]; simpl; intros Hs; [constructor|].
  apply StronglySorted_inv in Hs as [Hs Ha]. constructor; [by apply IH|].
  rewrite Forall_forall in Ha. apply Forall_forall. intros p Hp. apply Ha.
  apply list_elem_of_fmap. by exists p.
Qed.

(** With the prefix and the rest in order, no round of the outer loop
    relocates anything. *)
Lemma sort_outer_sorted m lamb lamb_t this :
  (forall a b : T, lamb a b = negb (lamb_t b a)) ->
  forall C P fuel ifuel it_i,
    ring m this (P ++ C) ->
    StronglySorted (ordered lamb_t (key m)) (P ++ C) ->
    head (C ++ [this]) = Some it_i ->
    (length C < fuel)%nat -> (length (P ++ C) < ifuel)%nat ->
    sort_outer fuel ifuel lamb lamb_t this it_i m = Ok tt m.
Proof.
  intros Hneg. induction C as [|i C IH]; intros P fuel ifuel it_i Hr Hs Hi Hfuel Hifuel.
  - simpl in Hi. injection Hi as <-. destruct fuel; [simpl in Hfuel; lia|].
    simpl. by rewrite decide_True.
  - simpl in Hi. injection Hi as <-. destruct fuel; [simpl in Hfuel; lia|].
    destruct (ring_neighbours _ _ _ _ _ Hr)
      as (p & n & Hlp & Hhn & [Hpi Hip] & [Hin Hni] & _ & _).
    assert (i ∉ this :: P ++ C) as HiN by (destruct Hr; by apply NoDup_mid_notin).
    assert (i <> this) as Hit by set_solver.
    assert (length (rev P) < ifuel)%nat as HPf.
    { rewrite length_rev. rewrite length_app in Hifuel. lia. }
    assert (head (rev P ++ [this]) = Some p) as Hhp.
    { rewrite <- last_rev_head. by rewrite rev_involutive. }
    assert (ring m this (rev (rev P) ++ [] ++ i :: C)) as Hr0.
    { by rewrite rev_involutive. }
    pose proof (sort_inner_spec m lamb lamb_t this i C (rev P) [] m ifuel p
                  Hr0 (links_only_refl m) Hhp HPf) as Hinner.
    rewrite scan_none in Hinner.
    2:{ intros x Hx. rewrite Hneg. apply negb_false_iff.
        apply (StronglySorted_before _ P i C Hs).
        by rewrite list_elem_of_In, in_rev, <- list_elem_of_In. }
    cbn [sort_outer]. unfold end_. rewrite decide_False by done.
    rewrite (bind_Ok _ _ _ _ _ (get_prev_Ok _ _ _ Hip)).
    rewrite (bind_Ok _ _ _ _ _ Hinner).
    rewrite (bind_Ok _ _ _ _ _ (get_next_Ok _ _ _ Hin)).
    apply (IH (P ++ [i])).
    + by rewrite <- app_assoc.
    + by rewrite <- app_assoc.
    + done.
    + simpl in Hfuel. lia.
    + rewrite <- app_assoc. done.
Qed.

(** On elements already in the requested order [sort] rewrites nothing. *)
Lemma sort_sorted_same `{!WeakOrder T} m this ps (ascending : bool) fuel :
  is_list m this ps -> (length ps < fuel)%nat ->
  StronglySorted (ord ascending) (map (key m) ps) ->
  sort fuel this ascending m = Ok tt m.
Proof.
  intros (Hr & Hnull & Hsz & Hbound) Hfuel Hs.
  destruct (sort_order_facts ascending) as (Hneg & _ & _).
  set (lamb := if ascending then lt else gt) in *.
  set (lamb_t := if ascending then le else ge) in *.
  unfold sort. rewrite (bind_Ok _ _ _ _ _ (get_sz_Ok _ _ _ Hsz)).
  destruct ps as [|a [|b rest]]; [done|done|].
  assert ((Z.of_nat (length (a :: b :: rest)) <? 2) = false) as ->.
  { apply Z.ltb_ge. simpl length. lia. }
  destruct (ring_neighbours m this [] a (b :: rest) Hr)
    as (p & n & Hlp & Hhn & [Hpa _] & [Han _] & _ & _).
  simpl in Hlp, Hhn. injection Hlp as <-. injection Hhn as <-.
  unfold begin. rewrite (bind_Ok _ _ _ _ _ (get_next_Ok _ _ _ Hpa)).
  rewrite (bind_Ok _ _ _ _ _ (get_next_Ok _ _ _ Han)).
  apply (sort_outer_sorted m lamb lamb_t this Hneg (b :: rest) [a]); try done.
  - apply StronglySorted_keys in Hs. unfold ordered, lamb_t.
    clear -Hs. destruct ascending; exact Hs.
  - simpl in *. lia.
Qed.

(** X16. sort on a well-formed container whose elements are already in
    the requested order (non-decreasing for sort(true), non-increasing
    for sort(false)) returns without rewriting anything: the memory after
    the call is the memory before it. *)
Theorem sort_of_sorted_changes_nothing `{!WeakOrder T}
    m this ps (ascending : bool) fuel :
  is_list m this ps -> (length ps < fuel)%nat ->
  StronglySorted (ord ascending) (map (key m) ps) ->
  sort fuel this ascending m = Ok tt m.
Proof. apply sort_sorted_same. Qed.

(** X24. sort is idempotent: on any well-formed container, a second
    sort in the same direction finds everything in place and leaves the
    memory produced by the first exactly as it is. *)
Theorem sort_is_idempotent `{!WeakOrder T} m this ps (ascending : bool) fuel :
  is_list m this ps -> (length ps < fuel)%nat ->
  exists m',
    sort fuel this ascending m = Ok tt m' /\
    sort fuel this ascending m' = Ok tt m'.
Proof.
  intros Hlist Hfuel.
  destruct (sort_ring m this ps ascending fuel Hlist Hfuel)
    as (m' & Hsort & Hlist' & Hl & _).
  destruct (sort_order_facts ascending) as (Hneg & Htot & Htrans).
  set (lamb := if ascending then lt else gt) in *.
  set (lamb_t := if ascending then le else ge) in *.
  pose proof (sorted_order_perm lamb lamb_t (key m) ps) as Hperm.
  exists m'. split; [done|].
  apply (sort_sorted_same m' this (sorted_order lamb lamb_t (key m) ps)
           ascending fuel Hlist').
  - by rewrite <- (Permutation_length Hperm).
  - pose proof (sorted_order_sorted lamb lamb_t (key m) Hneg Htot Htrans ps) as Hs.
    apply sorted_keys in Hs.
    rewrite (map_ext (key m') (key m)) by (intros; by apply key_links_only).
    unfold ord, lamb_t in *. clear -Hs. destruct ascending; exact Hs.
Qed.

End SortSorted.

(** ** Copying *)

Section Copying.
Context {T : Type} `{Element T}.
Implicit Types (m : Mem T) (p q : loc) (ps : list loc).

(** The loop of copy assignment: one [push_back] per element of the
    source. *)
Lemma copy_loop_spec a b psb :
  forall C D m psA fuel it,
    psb = D ++ C ->
    is_list m a psA -> is_list m b psb ->
    (forall q, q ∈ a :: psA -> q ∉ b :: psb) ->
    alloc_left m = None ->
    (forall q, q ∈ C -> copy_throws (key m q) = false) ->
    Z.of_nat (length psA) + Z.of_nat (length C) < size_max ->
    head (C ++ [b]) = Some it -> (length C < fuel)%nat ->
    exists m' news,
      copy_loop fuel a b it m = Ok tt m' /\
      is_list m' a (psA ++ news) /\ is_list m' b psb /\
      map (key m') news = map (key m) C /\
      (forall q, q ∈ a :: psA ++ b :: psb -> key m' q = key m q) /\
      (forall q, q ∈ news -> q ∉ b :: psb) /\
      alloc_left m' = None /\
      dom (heap m') = (list_to_set news : gset loc) ∪ dom (heap m).
Proof.
  induction C as [|c C IH];
    intros D m psA fuel it -> Hla Hlb Hdisj Hal Hct Hlen Hit Hfuel.
  - simpl in Hit. injection Hit as <-. destruct fuel; [simpl in Hfuel; lia|].
    exists m, []. simpl. rewrite decide_True by done. rewrite app_nil_r.
    split_and!; try done; [by intros ? ?%elem_of_nil|set_solver].
  - simpl in Hit. injection Hit as <-. destruct fuel; [simpl in Hfuel; lia|].
    pose proof Hlb as (Hrb & _).
    assert (c ∉ b :: D ++ C) as HcN by (destruct Hrb; by apply NoDup_mid_notin).
    assert (c <> b) as Hcb by set_solver.
    assert (is_Some (node_at m c)) as Hnc.
    { apply (ring_is_node m b (D ++ c :: C)); [done|]. set_solver. }
    assert (is_list m a (psA ++ [])) as Hla0 by (by rewrite app_nil_r).
    destruct (construct_splice m a psA [] (key m c) a Hla0)
      as (p & m1 & m2 & Hoc & _ & Hbody & Hla2 & Hfresh & Hkp & Hk & Hframe & Hdom & Hal2).
    { done. } { done. } { apply Hct. left. }
    { rewrite app_nil_r. simpl length in Hlen. lia. }
    rewrite app_nil_r in Hk, Hframe.
    destruct (Hframe b (D ++ c :: C) Hlb Hdisj) as [Hlb2 Hkb].
    destruct Hlb2 as (Hrb2 & Hlb2').
    destruct (ring_neighbours _ _ _ _ _ Hrb2)
      as (pc & n & _ & Hhn & _ & [Hcn _] & _ & _).
    assert (p ∉ b :: D ++ c :: C) as Hpb.
    { intros Hin. destruct (ring_is_node m b _ p Hrb Hin) as [x Hx].
      unfold node_at in Hx. by rewrite Hfresh in Hx. }
    destruct (IH (D ++ [c]) m2 (psA ++ [p]) fuel n)
      as (m' & news & Hloop & Hla' & Hlb' & Hvals & Hdata & Hnews & Hal' & Hdom').
    + by rewrite <- app_assoc.
    + done.
    + by split.
    + intros q [->|[Hq| ->%list_elem_of_singleton]%elem_of_app]%elem_of_cons Hq'.
      * apply (Hdisj a); [left|done].
      * apply (Hdisj q); [by right|done].
      * done.
    + done.
    + intros q Hq. rewrite Hkb by set_solver. apply Hct. by right.
    + rewrite length_app. simpl length in *. lia.
    + done.
    + simpl in Hfuel. lia.
    + exists m', (p :: news). split_and!.
      * cbn [copy_loop]. unfold end_. rewrite decide_False by done.
        rewrite (bind_Ok _ _ _ _ _ (get_data_Ok _ _ _ (dataf_node_key m c Hnc))).
        assert (push_back a (key m c) m = Ok tt m2) as Hpush.
        { unfold push_back.
          assert (try_catch (obj_construct (key m c))
                    (obj_destruct a nullptr ;; throw) m = Ok p m1) as Htc
            by (unfold try_catch; by rewrite Hoc).
          rewrite (bind_Ok _ _ _ _ _ Htc). unfold try_catch. by rewrite Hbody. }
        rewrite (bind_Ok _ _ _ _ _ Hpush).
        by rewrite (bind_Ok _ _ _ _ _ (get_next_Ok _ _ _ Hcn)).
      * by rewrite <- app_assoc in Hla'.
      * done.
      * simpl. rewrite Hvals. f_equal.
        -- rewrite Hdata by set_solver. done.
        -- apply map_ext_in. intros q Hq%list_elem_of_In. apply Hkb. set_solver.
      * intros q Hq. rewrite Hdata.
        -- apply elem_of_cons in Hq as [->|[Hq|Hq]%elem_of_app].
           ++ apply Hk. left.
           ++ apply Hk. by right.
           ++ by apply Hkb.
        -- rewrite <- app_assoc. set_solver.
      * intros q [->|Hq]%elem_of_cons; [done|by apply Hnews].
      * done.
      * rewrite Hdom', Hdom. set_solver.
Qed.

(** Copy assignment between two distinct well-formed containers, when
    no allocation or construction fails. *)
Lemma copy_assign_spec m a b psa psb fuel :
  is_list m a psa -> is_list m b psb ->
  (forall q, q ∈ a :: psa -> q ∉ b :: psb) ->
  alloc_left m = None ->
  (forall q, q ∈ psb -> copy_throws (key m q) = false) ->
  (length psa < fuel)%nat -> (length psb < fuel)%nat ->
  exists m' news,
    copy_assign fuel a b m = Ok tt m' /\
    is_list m' a news /\ is_list m' b psb /\
    (forall q, q ∈ a :: news -> q ∉ b :: psb) /\
    map (key m') news = map (key m) psb /\
    (forall q, q ∈ b :: psb -> key m' q = key m q) /\
    dom (heap m') =
      (list_to_set news : gset loc) ∪ (dom (heap m) ∖ list_to_set psa).
Proof.
  intros Hla Hlb Hdisj Hal Hct Hfa Hfb.
  assert (a <> b) as Hab by (intros ->; apply (Hdisj b); left).
  destruct (clear_spec m a psa fuel Hla Hfa)
    as (m1 & Hclear & Hla1 & _ & Hfreed & Hframe & Hszs & Hal1).
  assert (forall mm : Mem T, forall q, is_Some (node_at mm q) ->
            is_Some (heap mm !! q)) as Hcell.
  { intros mm q [x Hx]. unfold node_at in Hx.
    destruct (heap mm !! q); [eauto|done]. }
  assert (dom (heap m1) = dom (heap m) ∖ list_to_set psa) as Hdom1.
  { apply set_eq. intros q.
    rewrite elem_of_difference, !elem_of_dom, elem_of_list_to_set.
    destruct (decide (q ∈ psa)) as [Hq|Hq].
    - rewrite (Hfreed q Hq). split; [by intros [? ?]|by intros [_ ?]].
    - destruct (decide (q = a)) as [->|Hqa].
      + split; intros _.
        * split; [|done]. apply Hcell. destruct Hla as (Hra & _).
          apply (ring_is_node m a psa a Hra). left.
        * apply Hcell. destruct Hla1 as (Hra1 & _).
          apply (ring_is_node m1 a [] a Hra1). left.
      + rewrite Hframe by set_solver. split; [by intros ?|by intros [? _]]. }
  assert (forall q, q ∈ b :: psb -> heap m1 !! q = heap m !! q) as Hsame.
  { intros q Hq. apply Hframe. intros Hq'. by apply (Hdisj q). }
  assert (is_list m1 b psb) as Hlb1.
  { eapply is_list_frame; [exact Hlb|done|]. by apply Hszs. }
  assert (forall q, q ∈ b :: psb -> key m1 q = key m q) as Hk1.
  { intros q Hq. unfold key, dataf, node_at. by rewrite Hsame. }
  pose proof Hlb1 as (Hrb1 & _ & Hszb1 & Hbb).
  destruct (ring_ends _ _ _ Hrb1) as (fb & lb & Hfb' & _ & Hnfb & _).
  destruct (copy_loop_spec a b psb psb [] m1 [] fuel fb)
    as (m' & news & Hloop & Hla' & Hlb' & Hvals & Hdata & Hnews & _ & Hdom');
    try done.
  { intros q [->|Hq]%elem_of_cons; [|by apply elem_of_nil in Hq].
    intros Hq. apply (Hdisj a); [left|done]. }
  { by rewrite Hal1. }
  { intros q Hq. rewrite Hk1 by (by right). by apply Hct. }
  simpl in Hla'.
  exists m', news. split_and!; try done.
  - unfold copy_assign. rewrite (bind_Ok _ _ _ _ _ Hclear).
    unfold begin. by rewrite (bind_Ok _ _ _ _ _ (get_next_Ok _ _ _ Hnfb)).
  - intros q [->|Hq]%elem_of_cons; [|by apply Hnews].
    intros Hq. apply (Hdisj a); [left|done].
  - rewrite Hvals. apply map_ext_in. intros q Hq%list_elem_of_In.
    apply Hk1. by right.
  - intros q Hq. rewrite Hdata by set_solver. by apply Hk1.
  - by rewrite Hdom', Hdom1.
Qed.

(** What a finished copy looks like from outside. *)
Lemma copy_observed m m' a b news psb fuel :
  is_list m b psb -> is_list m' a news -> is_list m' b psb ->
  map (key m') news = map (key m) psb ->
  (forall q, q ∈ b :: psb -> key m' q = key m q) ->
  (length psb < fuel)%nat ->
  to_list fuel m' a = Some (map (key m) psb) /\
  to_list fuel m' b = Some (map (key m) psb) /\
  size a m' = size b m /\ size b m' = size b m.
Proof.
  intros Hlb Hla' Hlb' Hvals Hk Hfuel.
  assert (length news = length psb) as Hlen.
  { apply (f_equal (@length T)) in Hvals. by rewrite !length_map in Hvals. }
  split_and!.
  - rewrite (to_list_ring m' a news fuel); [|by destruct Hla'|by rewrite Hlen].
    by rewrite Hvals.
  - apply to_list_kept; [done| |done]. intros q Hq. apply Hk. by right.
  - unfold size. destruct Hla' as (_ & _ & -> & _).
    destruct Hlb as (_ & _ & -> & _). by rewrite Hlen.
  - unfold size. destruct Hlb' as (_ & _ & -> & _).
    by destruct Hlb as (_ & _ & -> & _).
Qed.

(** X17. Copy assignment between two distinct well-formed containers,
    when no allocation or construction fails: the destination's old nodes
    are destroyed and it is rebuilt from newly allocated nodes, none shared
    with the source.  The cells allocated afterwards are exactly those
    allocated before, less the destination's old nodes, plus its new ones
    (the allocator may give a released address out again); an old node
    whose address was not given out again is free.  The destination then
    iterates as the source does, with the source's size, and the source is
    unchanged. *)
Theorem copy_assign_copies m a b psa psb fuel :
  is_list m a psa -> is_list m b psb ->
  (forall q, q ∈ a :: psa -> q ∉ b :: psb) ->
  alloc_left m = None ->
  (forall q, q ∈ psb -> copy_throws (key m q) = false) ->
  (length psa < fuel)%nat -> (length psb < fuel)%nat ->
  exists m' news,
    copy_assign fuel a b m = Ok tt m' /\
    is_list m' a news /\ is_list m' b psb /\
    (forall q, q ∈ a :: news -> q ∉ b :: psb) /\
    dom (heap m') =
      (list_to_set news : gset loc) ∪ (dom (heap m) ∖ list_to_set psa) /\
    (forall q, q ∈ psa -> q ∉ news -> heap m' !! q = None) /\
    to_list fuel m' a = Some (map (key m) psb) /\
    to_list fuel m' b = Some (map (key m) psb) /\
    size a m' = size b m /\ size b m' = size b m.
Proof.
  intros Hla Hlb Hdisj Hal Hct Hfa Hfb.
  destruct (copy_assign_spec m a b psa psb fuel Hla Hlb Hdisj Hal Hct Hfa Hfb)
    as (m' & news & Hrun & Hla' & Hlb' & Hdisj' & Hvals & Hk & Hdom).
  destruct (copy_observed m m' a b news psb fuel) as (? & ? & ? & ?); try done.
  exists m', news. split_and!; try done.
  intros q Hq Hqn. apply not_elem_of_dom. rewrite Hdom. set_solver.
Qed.

(** X18. Copy construction at an address outside the source: the new
    container is built from fresh nodes, iterates as the source does with
    the source's size, and the source is unchanged. *)
Theorem copy_ctor_copies m this b psb fuel :
  is_list m b psb -> this ∉ b :: psb ->
  alloc_left m = None ->
  (forall q, q ∈ psb -> copy_throws (key m q) = false) ->
  (length psb < fuel)%nat ->
  exists m' news,
    copy_ctor fuel this b m = Ok tt m' /\
    is_list m' this news /\ is_list m' b psb /\
    (forall q, q ∈ this :: news -> q ∉ b :: psb) /\
    to_list fuel m' this = Some (map (key m) psb) /\
    to_list fuel m' b = Some (map (key m) psb) /\
    size this m' = size b m.
Proof.
  intros Hlb Hthis Hal Hct Hfuel.
  destruct (List_ctor_spec m this) as (m1 & Hctor & Hl1).
  assert (heap m1 = <[this := Obj (mkNode from_zero this this)]> (heap m) /\
          szs m1 = <[this := 0]> (szs m) /\ alloc_left m1 = alloc_left m)
    as (Hh1 & Hs1 & Hal1) by (by injection Hctor as <-).
  assert (this <> b) as Htb by (intros ->; apply Hthis; left).
  assert (forall q, q ∈ b :: psb -> heap m1 !! q = heap m !! q) as Hsame.
  { intros q Hq. rewrite Hh1. rewrite lookup_insert_ne; [done|].
    by intros ->. }
  assert (is_list m1 b psb) as Hlb1.
  { eapply is_list_frame; [exact Hlb|done|].
    rewrite Hs1. by rewrite lookup_insert_ne. }
  assert (forall q, q ∈ b :: psb -> key m1 q = key m q) as Hk1.
  { intros q Hq. unfold key, dataf, node_at. by rewrite Hsame. }
  destruct (copy_assign_spec m1 this b [] psb fuel)
    as (m' & news & Hrun & Hl' & Hlb' & Hdisj' & Hvals & Hk & _); try done.
  { intros q [->|Hq]%elem_of_cons; [done|by apply elem_of_nil in Hq]. }
  { by rewrite Hal1. }
  { intros q Hq. rewrite Hk1 by (by right). by apply Hct. }
  { simpl. lia. }
  destruct (copy_observed m m' this b news psb fuel) as (? & ? & ? & ?); try done.
  { rewrite Hvals. apply map_ext_in. intros q Hq%list_elem_of_In.
    apply Hk1. by right. }
  { intros q Hq. rewrite Hk by done. by apply Hk1. }
  exists m', news. split_and!; try done.
  unfold copy_ctor. by rewrite (bind_Ok _ _ _ _ _ Hctor).
Qed.

End Copying.

(** ** Self-move *)

Section SelfMove.
Context {T : Type} `{Element T}.
Implicit Types (m : Mem T) (p q : loc) (ps : list loc).

(** Writing a link that is already there changes no view of the memory. *)
Lemma upd_next_same m p v :
  nextf m p = Some v ->
  forall q, nextf (upd_next p v m) q = nextf m q /\
            prevf (upd_next p v m) q = prevf m q /\
            dataf (upd_next p v m) q = dataf m q.
Proof.
  intros Hv q. rewrite prevf_upd_next, dataf_upd_next.
  rewrite nextf_upd_next_node by (by eapply nextf_is_node).
  split_and!; [|done..]. case_decide; [by subst|done].
Qed.

Lemma upd_prev_same m p v :
  prevf m p = Some v ->
  forall q, nextf (upd_prev p v m) q = nextf m q /\
            prevf (upd_prev p v m) q = prevf m q /\
            dataf (upd_prev p v m) q = dataf m q.
Proof.
  intros Hv q. rewrite nextf_upd_prev, dataf_upd_prev.
  rewrite prevf_upd_prev_node by (by eapply prevf_is_node).
  split_and!; [done| |done]. case_decide; [by subst|done].
Qed.

(** X19. Move assignment of a container to itself has no self check: it
    runs [clear()] first, so every element is destroyed and the container
    is left empty (and well formed), whatever it held. *)
Theorem move_self_assign_empties m this ps fuel :
  is_list m this ps -> (length ps < fuel)%nat ->
  exists m',
    move_assign fuel this this m = Ok tt m' /\
    is_list m' this [] /\
    (forall q, q ∈ ps -> heap m' !! q = None) /\
    to_list fuel m' this = Some [] /\ size this m' = Some 0.
Proof.
  intros Hlist Hfuel.
  destruct (clear_spec m this ps fuel Hlist Hfuel)
    as (m1 & Hclear & Hl1 & _ & Hfreed & _ & _ & _).
  destruct Hl1 as ([_ [[Hn Hp] _]] & _ & Hsz & _).
  change (szs m1 !! this = Some 0) in Hsz.
  assert (is_Some (node_at m1 this)) as Hnt by (by eapply nextf_is_node).
  set (m2 := upd_next this this m1). set (m3 := upd_prev this this m2).
  set (m4 := upd_prev this this m3). set (m5 := upd_next this this m4).
  set (m6 := upd_next this this m5). set (m7 := upd_prev this this m6).
  pose proof (upd_next_same m1 this this Hn) as V2. fold m2 in V2.
  assert (prevf m2 this = Some this) as Hp2 by (destruct (V2 this) as (_ & -> & _); done).
  pose proof (upd_prev_same m2 this this Hp2) as V3. fold m3 in V3.
  assert (prevf m3 this = Some this) as Hp3 by (destruct (V3 this) as (_ & -> & _); done).
  assert (nextf m3 this = Some this) as Hn3.
  { destruct (V3 this) as (-> & _). by destruct (V2 this) as (-> & _). }
  pose proof (upd_prev_same m3 this this Hp3) as V4. fold m4 in V4.
  assert (nextf m4 this = Some this) as Hn4 by (destruct (V4 this) as (-> & _); done).
  assert (prevf m4 this = Some this) as Hp4 by (destruct (V4 this) as (_ & -> & _); done).
  pose proof (upd_next_same m4 this this Hn4) as V5. fold m5 in V5.
  assert (nextf m5 this = Some this) as Hn5 by (destruct (V5 this) as (-> & _); done).
  pose proof (upd_next_same m5 this this Hn5) as V6. fold m6 in V6.
  assert (prevf m6 this = Some this) as Hp6.
  { destruct (V6 this) as (_ & -> & _). by destruct (V5 this) as (_ & -> & _). }
  assert (nextf m6 this = Some this) as Hn6 by (destruct (V6 this) as (-> & _); done).
  pose proof (upd_prev_same m6 this this Hp6) as V7. fold m7 in V7.
  assert (forall mm : Mem T, nextf mm this = Some this ->
            is_Some (node_at mm this)) as N
    by (intros mm ?; by eapply nextf_is_node).
  assert (is_list (upd_sz this 0 (upd_sz this 0 m7)) this []) as Hl'.
  { split_and!.
    - split; [apply NoDup_singleton|]. simpl. split; [|done]. split.
      + rewrite !nextf_upd_sz. by destruct (V7 this) as (-> & _).
      + rewrite !prevf_upd_sz. by destruct (V7 this) as (_ & -> & _).
    - by intros ?%elem_of_nil.
    - simpl. by rewrite lookup_insert_eq.
    - done. }
  exists (upd_sz this 0 (upd_sz this 0 m7)). split_and!.
  - unfold move_assign. rewrite (bind_Ok _ _ _ _ _ Hclear).
    rewrite (bind_Ok _ _ _ _ _ (get_next_Ok _ _ _ Hn)).
    rewrite (bind_Ok _ _ _ _ _ (set_next_Ok _ _ this Hnt)). fold m2.
    rewrite (bind_Ok _ _ _ _ _ (get_prev_Ok _ _ _ Hp2)).
    rewrite (bind_Ok _ _ _ _ _ (set_prev_Ok _ _ this (prevf_is_node _ _ _ Hp2))).
    fold m3.
    rewrite (bind_Ok _ _ _ _ _ (get_next_Ok _ _ _ Hn3)).
    rewrite (bind_Ok _ _ _ _ _ (set_prev_Ok _ _ this (N _ Hn3))). fold m4.
    rewrite (bind_Ok _ _ _ _ _ (get_prev_Ok _ _ _ Hp4)).
    rewrite (bind_Ok _ _ _ _ _ (set_next_Ok _ _ this (N _ Hn4))). fold m5.
    rewrite (bind_Ok _ _ _ _ _ (set_next_Ok _ _ this (N _ Hn5))). fold m6.
    rewrite (bind_Ok _ _ _ _ _ (set_prev_Ok _ _ this (N _ Hn6))). fold m7.
    rewrite (bind_Ok _ _ _ _ _ (get_sz_Ok m7 _ _ Hsz)).
    rewrite (bind_Ok _ _ _ _ _ (set_sz_Ok m7 this 0 (mk_is_Some _ _ Hsz))).
    apply set_sz_Ok. simpl. by rewrite lookup_insert_eq.
  - done.
  - intros q Hq.
    assert (q <> this) as Hne.
    { intros ->. destruct Hlist as ([[Hni _]%NoDup_cons _] & _). done. }
    simpl. rewrite !lookup_alter_ne by done. by apply Hfreed.
  - rewrite (to_list_ring _ this [] fuel); [done|by destruct Hl'|simpl; lia].
  - by destruct Hl' as (_ & _ & ? & _).
Qed.

End SelfMove.

(** ** Insertion, removal, copying and moving on concrete containers *)

Lemma mem_empty_is_list : is_list mem_empty 100%N [].
Proof. apply is_listb_sound. vm_compute. reflexivity. Defined.

Lemma mem_12_34_is_list_a : is_list mem_12_34 100%N [101; 102]%N.
Proof. apply is_listb_sound. vm_compute. reflexivity. Defined.

Lemma mem_12_34_is_list_b : is_list mem_12_34 200%N [201; 202]%N.
Proof. apply is_listb_sound. vm_compute. reflexivity. Defined.

Lemma mem_12_34_disjoint :
  forall q : loc, q ∈ [100; 101; 102]%N -> q ∉ [200; 201; 202]%N.
Proof.
  intros q Hq Hq'. rewrite !elem_of_cons, elem_of_nil in Hq, Hq'.
  destruct Hq as [->|[->|[->|[]]]]; destruct Hq' as [?|[?|[?|[]]]]; done.
Defined.

Lemma pop_front_removes_first_witness :
  is_list mem_123 100%N (101 :: [102; 103])%N /\
  exists m',
    pop_front 100%N mem_123 = Ok tt m' /\
    is_list m' 100%N [102; 103]%N /\ heap m' !! 101%N = None /\
    to_list 10 m' 100%N = Some (map (key mem_123) [102; 103]%N) /\
    size 100%N m' = Some (Z.of_nat (length [102; 103]%N)) /\
    (forall b psb, is_list mem_123 b psb ->
       (forall q, q ∈ 100%N :: 101%N :: [102; 103]%N -> q ∉ b :: psb) ->
       is_list m' b psb /\ forall q, q ∈ b :: psb -> key m' q = key mem_123 q).
Proof.
  split; [exact mem_123_is_list|].
  apply (pop_front_removes_first mem_123 100%N 101%N [102; 103]%N 10
           mem_123_is_list).
  simpl. lia.
Defined.

Lemma pop_back_removes_last_witness :
  is_list mem_123 100%N ([101; 102] ++ [103])%N /\
  exists m',
    pop_back 100%N mem_123 = Ok tt m' /\
    is_list m' 100%N [101; 102]%N /\ heap m' !! 103%N = None /\
    to_list 10 m' 100%N = Some (map (key mem_123) [101; 102]%N) /\
    size 100%N m' = Some (Z.of_nat (length [101; 102]%N)) /\
    (forall b psb, is_list mem_123 b psb ->
       (forall q, q ∈ 100%N :: [101; 102]%N ++ [103%N] -> q ∉ b :: psb) ->
       is_list m' b psb /\ forall q, q ∈ b :: psb -> key m' q = key mem_123 q).
Proof.
  split; [exact mem_123_is_list|].
  apply (pop_back_removes_last mem_123 100%N [101; 102]%N 103%N 10
           mem_123_is_list).
  simpl. lia.
Defined.

Lemma push_back_pop_back_witness :
  is_list mem_123 100%N [101; 102; 103]%N /\
  exists m' m'' p,
    push_back 100%N 7 mem_123 = Ok tt m' /\
    heap mem_123 !! p = None /\ is_list m' 100%N ([101; 102; 103]%N ++ [p]) /\
    dataf m' p = Some 7 /\
    pop_back 100%N m' = Ok tt m'' /\
    is_list m'' 100%N [101; 102; 103]%N /\ heap m'' !! p = None /\
    to_list 10 m'' 100%N = to_list 10 mem_123 100%N /\
    size 100%N m'' = size 100%N mem_123.
Proof.
  split; [exact mem_123_is_list|].
  apply (push_back_pop_back mem_123 100%N [101; 102; 103]%N 7 10 mem_123_is_list);
    [reflexivity|reflexivity|by vm_compute|simpl; lia].
Defined.

Lemma push_front_pop_front_witness :
  is_list mem_123 100%N [101; 102; 103]%N /\
  exists m' m'' p,
    push_front 100%N 7 mem_123 = Ok tt m' /\
    heap mem_123 !! p = None /\ is_list m' 100%N (p :: [101; 102; 103]%N) /\
    dataf m' p = Some 7 /\
    pop_front 100%N m' = Ok tt m'' /\
    is_list m'' 100%N [101; 102; 103]%N /\ heap m'' !! p = None /\
    to_list 10 m'' 100%N = to_list 10 mem_123 100%N /\
    size 100%N m'' = size 100%N mem_123.
Proof.
  split; [exact mem_123_is_list|].
  apply (push_front_pop_front mem_123 100%N [101; 102; 103]%N 7 10 mem_123_is_list);
    [reflexivity|reflexivity|by vm_compute|simpl; lia].
Defined.

Lemma pop_on_empty_is_undefined_witness :
  is_list mem_empty 100%N [] /\
  pop_front 100%N mem_empty = UB /\ pop_back 100%N mem_empty = UB.
Proof.
  split; [exact mem_empty_is_list|].
  apply (pop_on_empty_is_undefined mem_empty 100%N mem_empty_is_list).
  by vm_compute.
Defined.

Lemma merge_move_splices_witness :
  is_list mem_12_34 100%N [101; 102]%N /\
  is_list mem_12_34 200%N [201; 202]%N /\
  exists m',
    merge_move 100%N 200%N mem_12_34 = Ok tt m' /\
    is_list m' 100%N ([101; 102] ++ [201; 202])%N /\ is_list m' 200%N [] /\
    to_list 10 m' 100%N =
      Some (map (key mem_12_34) [101; 102]%N ++ map (key mem_12_34) [201; 202]%N) /\
    to_list 10 m' 200%N = Some [] /\
    size 100%N m' =
      Some (Z.of_nat (length [101; 102]%N) + Z.of_nat (length [201; 202]%N)) /\
    dom (heap m') = dom (heap mem_12_34) /\ alloc_left m' = alloc_left mem_12_34.
Proof.
  split; [exact mem_12_34_is_list_a|]. split; [exact mem_12_34_is_list_b|].
  apply (merge_move_splices mem_12_34 100%N 200%N [101; 102]%N [201; 202]%N 10
           mem_12_34_is_list_a mem_12_34_is_list_b mem_12_34_disjoint);
    [by vm_compute|simpl; lia].
Defined.

Lemma clear_releases_all_nodes_witness :
  is_list mem_123 100%N [101; 102; 103]%N /\
  exists m',
    clear 10 100%N mem_123 = Ok tt m' /\ List_dtor 10 100%N mem_123 = Ok tt m' /\
    is_list m' 100%N [] /\
    (forall q, q ∈ [101; 102; 103]%N -> heap m' !! q = None) /\
    to_list 10 m' 100%N = Some [] /\ size 100%N m' = Some 0 /\
    (forall q, q ∉ 100%N :: [101; 102; 103]%N -> heap m' !! q = heap mem_123 !! q) /\
    (forall b psb, is_list mem_123 b psb ->
       (forall q, q ∈ 100%N :: [101; 102; 103]%N -> q ∉ b :: psb) ->
       is_list m' b psb) /\
    alloc_left m' = alloc_left mem_123.
Proof.
  split; [exact mem_123_is_list|].
  apply (clear_releases_all_nodes mem_123 100%N [101; 102; 103]%N 10
           mem_123_is_list).
  simpl. lia.
Defined.

Lemma front_back_read_the_ends_witness :
  is_list mem_123 100%N [101; 102; 103]%N /\
  front 100%N mem_123 = Ok (key mem_123 101%N) mem_123 /\
  back 100%N mem_123 = Ok (key mem_123 103%N) mem_123.
Proof.
  split; [exact mem_123_is_list|].
  apply (front_back_read_the_ends mem_123 100%N [101; 102; 103]%N 101%N 103%N
           mem_123_is_list); reflexivity.
Defined.

Lemma front_back_on_empty_read_sentinel_witness :
  is_list mem_empty 100%N [] /\
  front 100%N mem_empty = Ok (key mem_empty 100%N) mem_empty /\
  back 100%N mem_empty = Ok (key mem_empty 100%N) mem_empty /\
  (forall m0, List_ctor 100%N m0 = Ok tt mem_empty ->
              key mem_empty 100%N = from_zero).
Proof.
  split; [exact mem_empty_is_list|].
  apply (front_back_on_empty_read_sentinel mem_empty 100%N mem_empty_is_list).
Defined.

Lemma iterator_steps_are_inverse_witness :
  is_list mem_123 100%N [101; 102; 103]%N /\
  exists n p,
    it_incr (mkIt 102%N) mem_123 = Ok (mkIt n) mem_123 /\
    it_decr (mkIt n) mem_123 = Ok (mkIt 102%N) mem_123 /\
    it_decr (mkIt 102%N) mem_123 = Ok (mkIt p) mem_123 /\
    it_incr (mkIt p) mem_123 = Ok (mkIt 102%N) mem_123 /\
    n ∈ 100%N :: [101; 102; 103]%N /\ p ∈ 100%N :: [101; 102; 103]%N.
Proof.
  split; [exact mem_123_is_list|].
  apply (iterator_steps_are_inverse mem_123 100%N [101; 102; 103]%N 102%N
           mem_123_is_list).
  right. right. left.
Defined.

Lemma empty_iff_begin_is_end_witness :
  is_list mem_123 100%N [101; 102; 103]%N /\
  exists e b,
    empty 100%N mem_123 = Ok e mem_123 /\ begin 100%N mem_123 = Ok b mem_123 /\
    (e = true <-> [101; 102; 103]%N = []) /\
    (it_eq (mkIt b) (mkIt (end_ 100%N)) = e).
Proof.
  split; [exact mem_123_is_list|].
  apply (empty_iff_begin_is_end mem_123 100%N [101; 102; 103]%N mem_123_is_list).
Defined.

Lemma insertion_alloc_failure_changes_nothing_witness :
  alloc_left mem_123_exhausted = Some O /\
  to_list 10 mem_123_exhausted 100%N = Some [1; 2; 3] /\
  push_back 100%N 7 mem_123_exhausted = Throw mem_123_exhausted /\
  push_front 100%N 7 mem_123_exhausted = Throw mem_123_exhausted /\
  insert 100%N (mkIt 102%N) 7 mem_123_exhausted = Throw mem_123_exhausted.
Proof.
  split; [by vm_compute|]. split; [by vm_compute|].
  apply (insertion_alloc_failure_changes_nothing
           mem_123_exhausted 100%N (mkIt 102%N) 7).
  by vm_compute.
Defined.

Lemma sort_of_sorted_changes_nothing_witness :
  is_list mem_123 100%N [101; 102; 103]%N /\
  StronglySorted (ord true) (map (key mem_123) [101; 102; 103]%N) /\
  sort 10 100%N true mem_123 = Ok tt mem_123.
Proof.
  assert (StronglySorted (ord true) (map (key mem_123) [101; 102; 103]%N)) as Hs
    by (repeat constructor; by vm_compute).
  split; [exact mem_123_is_list|]. split; [exact Hs|].
  apply (sort_of_sorted_changes_nothing mem_123 100%N [101; 102; 103]%N true 10
           mem_123_is_list); [simpl; lia|exact Hs].
Defined.

Lemma copy_assign_copies_witness :
  is_list mem_12_34 100%N [101; 102]%N /\
  is_list mem_12_34 200%N [201; 202]%N /\
  exists m' news,
    copy_assign 10 100%N 200%N mem_12_34 = Ok tt m' /\
    is_list m' 100%N news /\ is_list m' 200%N [201; 202]%N /\
    (forall q, q ∈ 100%N :: news -> q ∉ 200%N :: [201; 202]%N) /\
    dom (heap m') =
      (list_to_set news : gset loc) ∪
      (dom (heap mem_12_34) ∖ list_to_set [101; 102]%N) /\
    (forall q, q ∈ [101; 102]%N -> q ∉ news -> heap m' !! q = None) /\
    to_list 10 m' 100%N = Some (map (key mem_12_34) [201; 202]%N) /\
    to_list 10 m' 200%N = Some (map (key mem_12_34) [201; 202]%N) /\
    size 100%N m' = size 200%N mem_12_34 /\
    size 200%N m' = size 200%N mem_12_34.
Proof.
  split; [exact mem_12_34_is_list_a|]. split; [exact mem_12_34_is_list_b|].
  apply (copy_assign_copies mem_12_34 100%N 200%N [101; 102]%N [201; 202]%N 10
           mem_12_34_is_list_a mem_12_34_is_list_b mem_12_34_disjoint);
    [reflexivity|intros; reflexivity|simpl; lia|simpl; lia].
Defined.

Lemma copy_ctor_copies_witness :
  is_list mem_123 100%N [101; 102; 103]%N /\
  exists m' news,
    copy_ctor 10 200%N 100%N mem_123 = Ok tt m' /\
    is_list m' 200%N news /\ is_list m' 100%N [101; 102; 103]%N /\
    (forall q, q ∈ 200%N :: news -> q ∉ 100%N :: [101; 102; 103]%N) /\
    to_list 10 m' 200%N = Some (map (key mem_123) [101; 102; 103]%N) /\
    to_list 10 m' 100%N = Some (map (key mem_123) [101; 102; 103]%N) /\
    size 200%N m' = size 100%N mem_123.
Proof.
  split; [exact mem_123_is_list|].
  apply (copy_ctor_copies mem_123 200%N 100%N [101; 102; 103]%N 10
           mem_123_is_list);
    [|reflexivity|intros; reflexivity|simpl; lia].
  rewrite !not_elem_of_cons. split_and!; try done. apply not_elem_of_nil.
Defined.

Lemma move_self_assign_empties_witness :
  is_list mem_123 100%N [101; 102; 103]%N /\
  exists m',
    move_assign 10 100%N 100%N mem_123 = Ok tt m' /\
    is_list m' 100%N [] /\
    (forall q, q ∈ [101; 102; 103]%N -> heap m' !! q = None) /\
    to_list 10 m' 100%N = Some [] /\ size 100%N m' = Some 0.
Proof.
  split; [exact mem_123_is_list|].
  apply (move_self_assign_empties mem_123 100%N [101; 102; 103]%N 10
           mem_123_is_list).
  simpl. lia.
Defined.

(** ** Moving a non-empty container, and swapping twice *)

Section Moving.
Context {T : Type} `{Element T}.
Implicit Types (m : Mem T) (p q : loc) (ps : list loc).

(** What [move_assign_spec] gives for a source that holds elements, in
    terms of iteration and sizes. *)
Lemma move_assign_observed m a b psa psb fuel :
  is_list m a psa -> is_list m b psb ->
  (forall q, q ∈ a :: psa -> q ∉ b :: psb) ->
  psb <> [] ->
  (length psa < fuel)%nat -> (length psb < fuel)%nat ->
  exists m',
    move_assign fuel a b m = Ok tt m' /\
    is_list m' a psb /\ is_list m' b [] /\
    to_list fuel m' a = Some (map (key m) psb) /\
    to_list fuel m' b = Some [] /\
    size a m' = size b m /\ size b m' = Some 0.
Proof.
  intros Ha Hb Hdisj Hne Hfa Hfb.
  destruct (move_assign_spec m a b psa psb fuel Ha Hb Hdisj Hfa)
    as (m' & Hrun & Hb' & Hfull & _).
  destruct (Hfull Hne) as [Ha' Hd].
  exists m'. split_and!; try done.
  - rewrite (to_list_ring m' a psb fuel); [|by destruct Ha'|done].
    f_equal. apply map_ext_in. intros q Hq%list_elem_of_In.
    unfold key. by rewrite Hd.
  - rewrite (to_list_ring m' b [] fuel); [done|by destruct Hb'|simpl; lia].
  - destruct Ha' as (_ & _ & Hs & _). destruct Hb as (_ & _ & Hs0 & _).
    unfold size. by rewrite Hs, Hs0.
  - by destruct Hb' as (_ & _ & ? & _).
Qed.

(** X20. Move assignment from a well-formed source that holds at least one
    element, into a distinct well-formed container: the destination takes
    over the source's very nodes (nothing is copied), iterates as the
    source did with the source's size, and the source is left empty and
    well formed. *)
Theorem move_assign_takes_over m a b psa psb fuel :
  is_list m a psa -> is_list m b psb ->
  (forall q, q ∈ a :: psa -> q ∉ b :: psb) ->
  psb <> [] ->
  (length psa < fuel)%nat -> (length psb < fuel)%nat ->
  exists m',
    move_assign fuel a b m = Ok tt m' /\
    is_list m' a psb /\ is_list m' b [] /\
    to_list fuel m' a = Some (map (key m) psb) /\
    to_list fuel m' b = Some [] /\
    size a m' = size b m /\ size b m' = Some 0.
Proof. apply move_assign_observed. Qed.

(** X21. Move construction at an address outside a well-formed source that
    holds at least one element: the new container takes over the source's
    nodes and size, and the source is left empty and well formed. *)
Theorem move_ctor_takes_over m this b psb fuel :
  is_list m b psb -> this ∉ b :: psb -> psb <> [] ->
  (length psb < fuel)%nat ->
  exists m',
    move_ctor fuel this b m = Ok tt m' /\
    is_list m' this psb /\ is_list m' b [] /\
    to_list fuel m' this = Some (map (key m) psb) /\
    to_list fuel m' b = Some [] /\
    size this m' = size b m /\ size b m' = Some 0.
Proof.
  intros Hlb Hthis Hne Hfuel.
  destruct (List_ctor_spec m this) as (m1 & Hctor & Hl1).
  assert (heap m1 = <[this := Obj (mkNode from_zero this this)]> (heap m) /\
          szs m1 = <[this := 0]> (szs m))
    as (Hh1 & Hs1) by (by injection Hctor as <-).
  assert (this <> b) as Htb by (intros ->; apply Hthis; left).
  assert (forall q, q ∈ b :: psb -> heap m1 !! q = heap m !! q) as Hsame.
  { intros q Hq. rewrite Hh1. rewrite lookup_insert_ne; [done|].
    by intros ->. }
  assert (is_list m1 b psb) as Hlb1.
  { eapply is_list_frame; [exact Hlb|done|].
    rewrite Hs1. by rewrite lookup_insert_ne. }
  destruct (move_assign_observed m1 this b [] psb fuel)
    as (m' & Hrun & Ha' & Hb' & Hta & Htb' & Hsa & Hsb); try done.
  { intros q [->|Hq]%elem_of_cons; [done|by apply elem_of_nil in Hq]. }
  { simpl. lia. }
  exists m'. split_and!; try done.
  - unfold move_ctor. by rewrite (bind_Ok _ _ _ _ _ Hctor).
  - rewrite Hta. f_equal. apply map_ext_in. intros q Hq%list_elem_of_In.
    unfold key, dataf, node_at. rewrite Hsame; [done|by right].
  - rewrite Hsa. unfold size. rewrite Hs1. by rewrite lookup_insert_ne.
Qed.

(** One run of [swap] on two distinct addresses that hold nodes and
    sizes. *)
Lemma swap_Ok m a b na nb pa pb sa sb :
  a <> b ->
  nextf m a = Some na -> prevf m a = Some pa ->
  nextf m b = Some nb -> prevf m b = Some pb ->
  szs m !! a = Some sa -> szs m !! b = Some sb ->
  swap a b m =
    Ok tt (upd_sz b sa (upd_sz a sb
            (upd_prev b pa (upd_prev a pb (upd_next b na (upd_next a nb m)))))).
Proof.
  intros Hab Hna Hpa Hnb Hpb Hsa Hsb.
  assert (is_Some (node_at m a)) as Ha by (by eapply nextf_is_node).
  assert (is_Some (node_at m b)) as Hb by (by eapply nextf_is_node).
  set (m1 := upd_next a nb m). set (m2 := upd_next b na m1).
  set (m3 := upd_prev a pb m2). set (m4 := upd_prev b pa m3).
  assert (is_Some (node_at m1 b)) as Hb1 by (by apply is_node_upd_next).
  assert (is_Some (node_at m2 a)) as Ha2
    by (by apply is_node_upd_next, is_node_upd_next).
  assert (is_Some (node_at m3 b)) as Hb3
    by (by apply is_node_upd_prev, is_node_upd_next).
  assert (prevf m2 a = Some pa) as Hpa2
    by (unfold m2, m1; by rewrite !prevf_upd_next).
  assert (prevf m2 b = Some pb) as Hpb2
    by (unfold m2, m1; by rewrite !prevf_upd_next).
  unfold swap. rewrite decide_False by done.
  rewrite (bind_Ok _ _ _ _ _ (get_next_Ok _ _ _ Hna)).
  rewrite (bind_Ok _ _ _ _ _ (get_next_Ok _ _ _ Hnb)).
  rewrite (bind_Ok _ _ _ _ _ (set_next_Ok _ _ nb Ha)). fold m1.
  rewrite (bind_Ok _ _ _ _ _ (set_next_Ok _ _ na Hb1)). fold m2.
  rewrite (bind_Ok _ _ _ _ _ (get_prev_Ok _ _ _ Hpa2)).
  rewrite (bind_Ok _ _ _ _ _ (get_prev_Ok _ _ _ Hpb2)).
  rewrite (bind_Ok _ _ _ _ _ (set_prev_Ok _ _ pb Ha2)). fold m3.
  rewrite (bind_Ok _ _ _ _ _ (set_prev_Ok _ _ pa Hb3)). fold m4.
  rewrite (bind_Ok _ _ _ _ _ (get_sz_Ok m4 _ _ Hsa)).
  rewrite (bind_Ok _ _ _ _ _ (get_sz_Ok m4 _ _ Hsb)).
  rewrite (bind_Ok _ _ _ _ _ (set_sz_Ok m4 a sb (mk_is_Some _ _ Hsa))).
  apply set_sz_Ok. simpl. rewrite lookup_insert_ne by done.
  by apply (mk_is_Some _ _ Hsb).
Qed.

(** X22. swap is its own inverse on the memory: between any two
    containers whose sentinels and sizes exist, a second swap of the same
    pair gives back exactly the memory the first one started from. *)
Theorem swap_twice_restores m a b psa psb :
  is_list m a psa -> is_list m b psb ->
  exists m',
    swap a b m = Ok tt m' /\ swap a b m' = Ok tt m /\ swap b a m' = Ok tt m.
Proof.
  intros (Hra & _ & Hsa & _) (Hrb & _ & Hsb & _).
  destruct (decide (a = b)) as [->|Hab].
  { exists m. unfold swap. by rewrite decide_True. }
  destruct (ring_ends _ _ _ Hra) as (na & pa & _ & _ & Hna & Hpa).
  destruct (ring_ends _ _ _ Hrb) as (nb & pb & _ & _ & Hnb & Hpb).
  set (sa := Z.of_nat (length psa)) in *. set (sb := Z.of_nat (length psb)) in *.
  pose proof (swap_Ok m a b na nb pa pb sa sb Hab Hna Hpa Hnb Hpb Hsa Hsb) as H1.
  set (m' := upd_sz b sa (upd_sz a sb
            (upd_prev b pa (upd_prev a pb (upd_next b na (upd_next a nb m)))))) in *.
  assert (is_Some (node_at m a)) as Ha by (by eapply nextf_is_node).
  assert (is_Some (node_at m b)) as Hb by (by eapply nextf_is_node).
  assert (is_Some (node_at (upd_next a nb m) b)) as Hb1
    by (by apply is_node_upd_next).
  assert (is_Some (node_at (upd_next b na (upd_next a nb m)) a)) as Ha2
    by (by apply is_node_upd_next, is_node_upd_next).
  assert (is_Some (node_at (upd_prev a pb (upd_next b na (upd_next a nb m))) b))
    as Hb3 by (by apply is_node_upd_prev, is_node_upd_next, is_node_upd_next).
  assert (nextf m' a = Some nb) as Hna'.
  { unfold m'. rewrite !nextf_upd_sz, !nextf_upd_prev.
    rewrite nextf_upd_next_node by done. rewrite decide_False by done.
    rewrite nextf_upd_next_node by done. by rewrite decide_True. }
  assert (nextf m' b = Some na) as Hnb'.
  { unfold m'. rewrite !nextf_upd_sz, !nextf_upd_prev.
    rewrite nextf_upd_next_node by done. by rewrite decide_True. }
  assert (prevf m' a = Some pb) as Hpa'.
  { unfold m'. rewrite !prevf_upd_sz.
    rewrite prevf_upd_prev_node by done. rewrite decide_False by done.
    rewrite prevf_upd_prev_node by done. by rewrite decide_True. }
  assert (prevf m' b = Some pa) as Hpb'.
  { unfold m'. rewrite !prevf_upd_sz.
    rewrite prevf_upd_prev_node by done. by rewrite decide_True. }
  assert (szs m' !! a = Some sb) as Hsa'.
  { unfold m'. simpl. rewrite lookup_insert_ne by done.
    by rewrite lookup_insert_eq. }
  assert (szs m' !! b = Some sa) as Hsb'.
  { unfold m'. simpl. by rewrite lookup_insert_eq. }
  assert (forall x y : loc, x <> y ->
            (x = a /\ y = b) \/ (x = b /\ y = a) ->
            upd_sz y (default 0 (szs m !! y)) (upd_sz x (default 0 (szs m !! x))
              (upd_prev y (default y (prevf m y)) (upd_prev x (default x (prevf m x))
                (upd_next y (default y (nextf m y))
                  (upd_next x (default x (nextf m x)) m'))))) = m) as Hback.
  { intros x y Hxy Hcase.
    unfold m', upd_sz, upd_prev, upd_next, upd_node. simpl.
    unfold nextf, prevf, node_at in Hna, Hpa, Hnb, Hpb |- *.
    destruct m as [h s al]. simpl in *. f_equal.
    - apply map_eq. intros i.
      destruct (h !! a) as [[|[da na0 pa0]]|] eqn:Eha; simplify_eq/=.
      destruct (h !! b) as [[|[db nb0 pb0]]|] eqn:Ehb; simplify_eq/=.
      destruct Hcase as [[-> ->]|[-> ->]]; rewrite ?Eha, ?Ehb; simpl;
        (destruct (decide (i = a)) as [->|Hia];
         [|destruct (decide (i = b)) as [->|Hib]]);
        repeat first [rewrite lookup_alter_eq | rewrite lookup_alter_ne by done];
        rewrite ?Eha, ?Ehb; done.
    - apply map_eq. intros i.
      destruct Hcase as [[-> ->]|[-> ->]]; rewrite ?Hsa, ?Hsb; simpl;
        (destruct (decide (i = a)) as [->|Hia];
         [|destruct (decide (i = b)) as [->|Hib]]);
        repeat first [rewrite lookup_insert_eq | rewrite lookup_insert_ne by done];
        done. }
  exists m'. split_and!; [done| |].
  - rewrite (swap_Ok m' a b nb na pb pa sb sa Hab Hna' Hpa' Hnb' Hpb' Hsa' Hsb').
    f_equal. specialize (Hback a b Hab (or_introl (conj eq_refl eq_refl))).
    by rewrite Hna, Hpa, Hnb, Hpb, Hsa, Hsb in Hback.
  - rewrite (swap_Ok m' b a na nb pa pb sa sb (not_eq_sym Hab)
               Hnb' Hpb' Hna' Hpa' Hsb' Hsa').
    f_equal. specialize (Hback b a (not_eq_sym Hab) (or_intror (conj eq_refl eq_refl))).
    by rewrite Hna, Hpa, Hnb, Hpb, Hsa, Hsb in Hback.
Qed.

End Moving.

(** ** Copy-merge interrupted by a failing element copy *)

Section MergeFailure.
Context {T : Type} `{Element T}.
Implicit Types (m : Mem T) (p q : loc) (ps : list loc).

(** [obj_construct] when the allocator delivers but the element's copy
    constructor throws: the exception leaves with the fresh cell still
    allocated and raw. *)
Lemma obj_construct_copy_throws m el :
  alloc_left m = None -> copy_throws el = true ->
  exists p,
    heap m !! p = None /\
    obj_construct el m = Throw (mkMem (<[p := Raw]> (heap m)) (szs m) None).
Proof.
  intros Hal Hct. set (p := fresh ({[nullptr]} ∪ dom (heap m))).
  pose proof (is_fresh ({[nullptr]} ∪ dom (heap m))) as Hf. fold p in Hf.
  exists p. split; [apply not_elem_of_dom; set_solver|].
  unfold obj_construct, bind, allocate, construct. fold p. rewrite Hal. simpl.
  by rewrite lookup_insert_eq, Hct.
Qed.

(** One round of the loop of copy-merge in which nothing fails. *)
Lemma merge_step a b m psA D c C nn fuel :
  ring m a psA -> ring m b (D ++ c :: C) ->
  (forall q, q ∈ a :: psA -> q ∉ b :: D ++ c :: C) ->
  alloc_left m = None -> copy_throws (key m c) = false ->
  exists p m2 n,
    merge_loop (S fuel) a b c nn m = merge_loop fuel a b n p m2 /\
    head (C ++ [b]) = Some n /\
    ring m2 a (psA ++ [p]) /\ ring m2 b (D ++ c :: C) /\
    (forall q, q ∈ a :: psA ++ b :: D ++ c :: C -> dataf m2 q = dataf m q) /\
    (p ∉ a :: psA ++ b :: D ++ c :: C) /\ p <> nullptr /\ heap m !! p = None /\
    (forall q, heap m2 !! q = None -> heap m !! q = None) /\
    szs m2 = szs m /\ alloc_left m2 = None.
Proof.
  intros Hra Hrb Hdisj Hal Hct.
  destruct (ring_neighbours _ _ _ _ _ Hrb)
    as (pc & n & _ & Hhn & _ & [Hcn _] & _ & _).
  assert (c ∉ b :: D ++ C) as HcN by (destruct Hrb; by apply NoDup_mid_notin).
  assert (c <> b) as Hcb by set_solver.
  assert (is_Some (node_at m c)) as Hnc by (by eapply nextf_is_node).
  assert (dataf m c = Some (key m c)) as Hdc by (by apply dataf_node_key).
  destruct (obj_construct_Ok m (key m c) Hal Hct)
    as (p & m1 & Hoc & Hp0 & Hpf & Hh1 & Hs1 & Hal1).
  assert (forall q, node_at m1 q =
            if decide (q = p) then Some (mkNode (key m c) nullptr nullptr)
            else node_at m q) as Hn1 by (intros q; by apply node_at_fresh).
  assert (forall q, is_Some (node_at m q) -> q <> p) as Hfresh.
  { intros q [x Hx] ->. unfold node_at in Hx. by rewrite Hpf in Hx. }
  assert (forall q, is_Some (node_at m q) -> node_at m1 q = node_at m q) as Hold.
  { intros q Hq. rewrite Hn1. rewrite decide_False; [done|by apply Hfresh]. }
  destruct (ring_ends _ _ _ Hra) as (fa & la & _ & Hla & _ & Hpla).
  assert (is_Some (node_at m a)) as Hna by (eapply ring_is_node; [exact Hra|left]).
  assert (is_Some (node_at m la)) as Hnla.
  { eapply ring_is_node; [exact Hra|by apply last_elem_of]. }
  assert (prevf m1 a = Some la) as Hpla1 by (unfold prevf; by rewrite Hold).
  destruct (insert_node_Ok m1 a p la Hpla1) as (m2 & Hins & Hl2 & Hnx2 & Hpv2).
  { rewrite Hn1. by rewrite decide_True. }
  { by rewrite Hold. }
  { intros ->. by apply (Hfresh a). }
  { intros ->. by apply (Hfresh la). }
  assert (forall q, q ∈ a :: psA ++ b :: D ++ c :: C -> is_Some (node_at m q))
    as Hnodes.
  { intros q [->|[Hq|Hq]%elem_of_app]%elem_of_cons.
    - done.
    - eapply ring_is_node; [exact Hra|by right].
    - by apply (ring_is_node m b (D ++ c :: C)). }
  assert (ring m1 a psA) as Hra1.
  { eapply ring_frame; [exact Hra|]. intros q Hq. unfold nextf, prevf.
    rewrite Hold; [done|]. by apply (ring_is_node m a psA). }
  assert (ring m2 a (psA ++ [p])) as Hra2.
  { eapply (ring_insert m1 m2 a psA [] p la a); try done.
    - by rewrite app_nil_r.
    - rewrite app_nil_r. intros Hin. apply (Hfresh p); [|done].
      by apply (ring_is_node m a psA). }
  assert (forall q, q ∈ b :: D ++ c :: C ->
            nextf m2 q = nextf m q /\ prevf m2 q = prevf m q) as Hb2.
  { intros q Hq.
    assert (is_Some (node_at m q)) as Hnq
      by (by apply (ring_is_node m b (D ++ c :: C))).
    assert (q <> p) by (by apply Hfresh).
    assert (q <> la).
    { intros ->. apply (Hdisj la); [by apply last_elem_of|done]. }
    assert (q <> a) by (intros ->; apply (Hdisj a); [left|done]).
    rewrite Hnx2, Hpv2. rewrite !decide_False by done.
    unfold nextf, prevf. by rewrite Hold. }
  assert (nextf m2 c = Some n) as Hcn2.
  { destruct (Hb2 c) as [-> _]; [set_solver|done]. }
  exists p, m2, n. split_and!.
  - cbn [merge_loop]. unfold end_. rewrite decide_False by done.
    rewrite (bind_Ok _ _ _ _ _ (get_data_Ok _ _ _ Hdc)).
    assert (try_catch (obj_construct (key m c)) (obj_destruct a nn ;; throw) m
            = Ok p m1) as Htc by (unfold try_catch; by rewrite Hoc).
    rewrite (bind_Ok _ _ _ _ _ Htc).
    assert (try_catch (insert_node a p) (obj_destruct a p ;; throw) m1
            = Ok tt m2) as Htc2 by (unfold try_catch; by rewrite Hins).
    rewrite (bind_Ok _ _ _ _ _ Htc2).
    by rewrite (bind_Ok _ _ _ _ _ (get_next_Ok _ _ _ Hcn2)).
  - done.
  - done.
  - by eapply ring_frame.
  - intros q Hq. destruct Hl2 as (Hd & _). rewrite Hd. unfold dataf.
    rewrite Hold; [done|by apply Hnodes].
  - intros Hin. apply (Hfresh p); [by apply Hnodes|done].
  - done.
  - done.
  - intros q Hq. destruct Hl2 as (_ & Hdom & _).
    apply not_elem_of_dom in Hq. rewrite Hdom in Hq.
    apply not_elem_of_dom in Hq. rewrite Hh1 in Hq.
    apply lookup_insert_None in Hq. by destruct Hq.
  - destruct Hl2 as (_ & _ & -> & _). done.
  - destruct Hl2 as (_ & _ & _ & ->). done.
Qed.

(** The loop of copy-merge up to the first element whose copy throws. *)
Lemma merge_loop_fail a b psb c C :
  forall D D0 m psA fuel it nn,
    psb = D0 ++ D ++ c :: C ->
    ring m a psA -> ring m b psb ->
    (forall q, q ∈ a :: psA -> q ∉ b :: psb) ->
    alloc_left m = None ->
    (forall q, q ∈ D -> copy_throws (key m q) = false) ->
    copy_throws (key m c) = true ->
    head (D ++ [c]) = Some it ->
    (D = [] -> nn <> nullptr /\ last psA = Some nn) ->
    (length D < fuel)%nat ->
    exists m' p,
      merge_loop fuel a b it nn m = Throw m' /\
      p <> a /\ prevf m' a = Some p /\ heap m' !! p = None /\
      (D = [] -> p = nn) /\ (D <> [] -> heap m !! p = None) /\
      ring m' b psb /\ szs m' = szs m /\
      (forall q, q ∈ b :: psb -> dataf m' q = dataf m q).
Proof.
  induction D as [|d D IH];
    intros D0 m psA fuel it nn Hpsb Hra Hrb Hdisj Hal Hct Hthrows Hit Hnn Hfuel.
  - simpl in Hit. injection Hit as <-. destruct fuel; [simpl in Hfuel; lia|].
    destruct (Hnn eq_refl) as [Hnn0 Hlast]. simpl in Hpsb. subst psb.
    assert (c ∉ b :: D0 ++ C) as HcN by (destruct Hrb; by apply NoDup_mid_notin).
    assert (c <> b) as Hcb by set_solver.
    assert (is_Some (node_at m c)) as Hnc.
    { apply (ring_is_node m b (D0 ++ c :: C)); [done|]. set_solver. }
    assert (dataf m c = Some (key m c)) as Hdc by (by apply dataf_node_key).
    destruct (obj_construct_copy_throws m (key m c) Hal Hthrows) as (p2 & Hp2 & Hoc).
    set (m1 := mkMem (<[p2 := Raw]> (heap m)) (szs m) None) in *.
    apply last_Some in Hlast as [l ->].
    assert (nn ∈ a :: l ++ [nn]) as Hnnin by set_solver.
    assert (nn <> a) as Hnna.
    { intros ->. destruct Hra as [[Hni _]%NoDup_cons _]. apply Hni. set_solver. }
    assert (forall q, is_Some (node_at m q) -> q <> p2) as Hfresh.
    { intros q [x Hx] ->. unfold node_at in Hx. by rewrite Hp2 in Hx. }
    assert (forall q, is_Some (node_at m q) -> heap m1 !! q = heap m !! q) as Hold.
    { intros q Hq. unfold m1. simpl. rewrite lookup_insert_ne; [done|].
      intros ->. by apply (Hfresh q). }
    assert (is_Some (node_at m nn)) as Hnnn by (by apply (ring_is_node m a (l ++ [nn]))).
    assert (is_Some (node_at m a)) as Hna by (eapply ring_is_node; [exact Hra|left]).
    assert (is_Some (node_at m1 nn)) as Hnn1.
    { unfold node_at. by rewrite Hold. }
    assert (forall q, is_Some (node_at m q) -> q <> nn ->
              heap (free_cell nn m1) !! q = heap m !! q) as Hkept.
    { intros q Hq Hne. unfold free_cell. simpl.
      rewrite lookup_delete_ne by done. rewrite lookup_insert_ne; [done|].
      intros ->. by apply (Hfresh q). }
    assert (forall q, q ∈ b :: D0 ++ c :: C ->
              heap (free_cell nn m1) !! q = heap m !! q) as Hkb.
    { intros q Hq. apply Hkept.
      - by apply (ring_is_node m b (D0 ++ c :: C)).
      - intros ->. by apply (Hdisj nn). }
    exists (free_cell nn m1), nn. split_and!.
    + cbn [merge_loop]. unfold end_. rewrite decide_False by done.
      rewrite (bind_Ok _ _ _ _ _ (get_data_Ok _ _ _ Hdc)).
      apply bind_Throw. unfold try_catch. rewrite Hoc.
      by rewrite (bind_Ok _ _ _ _ _ (obj_destruct_Ok m1 a nn Hnn0 Hnna Hnn1)).
    + done.
    + destruct (ring_ends _ _ _ Hra) as (fa & la & _ & Hla & _ & Hpla).
      rewrite app_comm_cons, last_snoc in Hla. injection Hla as <-.
      unfold prevf, node_at. rewrite Hkept by done. exact Hpla.
    + unfold free_cell. simpl. by rewrite lookup_delete_eq.
    + done.
    + done.
    + eapply ring_frame; [exact Hrb|]. intros q Hq.
      unfold nextf, prevf, node_at. by rewrite Hkb.
    + done.
    + intros q Hq. unfold dataf, node_at. by rewrite Hkb.
  - simpl in Hit. injection Hit as <-. destruct fuel; [simpl in Hfuel; lia|].
    subst psb.
    destruct (merge_step a b m psA D0 d (D ++ c :: C) nn fuel)
      as (p & m2 & n & Hstep & Hhn & Hra2 & Hrb2 & Hd2 & Hpnew & Hp0 & Hpf &
          Hmono & Hs2 & Hal2); try done.
    { apply Hct. left. }
    assert (forall q, q ∈ b :: D0 ++ d :: D ++ c :: C -> key m2 q = key m q) as Hk2.
    { intros q Hq. unfold key. rewrite Hd2; [done|]. set_solver. }
    destruct (IH (D0 ++ [d]) m2 (psA ++ [p]) fuel n p)
      as (m' & p' & Hrun & Hpa & Hprev & Hgone & Hsame & Hnew & Hrb' & Hs' & Hd').
    + by rewrite <- app_assoc.
    + done.
    + done.
    + intros q [->|[Hq| ->%list_elem_of_singleton]%elem_of_app]%elem_of_cons Hq'.
      * apply (Hdisj a); [left|done].
      * apply (Hdisj q); [by right|done].
      * apply Hpnew. set_solver.
    + done.
    + intros q Hq. rewrite Hk2 by set_solver. apply Hct. by right.
    + rewrite Hk2 by set_solver. done.
    + rewrite <- app_assoc in Hhn. simpl in Hhn.
      destruct D; simpl in *; done.
    + intros _. split; [done|]. by rewrite last_snoc.
    + simpl in Hfuel. lia.
    + exists m', p'. split_and!; try done.
      * by rewrite Hstep.
      * intros _. destruct D as [|d' D'].
        -- by rewrite (Hsame eq_refl).
        -- apply Hmono, Hnew. done.
      * by rewrite Hs'.
      * intros q Hq. rewrite Hd' by done. apply Hd2. set_solver.
Qed.

(** X23. Copy-merge interrupted by an element whose copy throws, after at
    least one element has been copied: the handler runs [obj_destruct] on
    [new_node], which still holds the node appended in the previous round.
    The call ends in an exception with that node destroyed and released
    while the destination's sentinel still points at it, so that [back()]
    on the destination is undefined afterwards.  The source is unchanged. *)
Theorem merge_copy_failure_frees_linked_node m a b psa D c C fuel :
  is_list m a psa -> is_list m b (D ++ c :: C) ->
  (forall q, q ∈ a :: psa -> q ∉ b :: D ++ c :: C) ->
  alloc_left m = None ->
  D <> [] ->
  (forall q, q ∈ D -> copy_throws (key m q) = false) ->
  copy_throws (key m c) = true ->
  (length D < fuel)%nat ->
  exists m' p,
    merge fuel a b m = Throw m' /\
    heap m !! p = None /\ p <> a /\
    prevf m' a = Some p /\ heap m' !! p = None /\
    back a m' = UB /\
    is_list m' b (D ++ c :: C) /\
    (forall q, q ∈ b :: D ++ c :: C -> dataf m' q = dataf m q).
Proof.
  intros (Hra & _) (Hrb & Hnullb & Hsb & Hbb) Hdisj Hal HD Hct Hthrows Hfuel.
  assert (a <> b) as Hab by (intros ->; apply (Hdisj b); left).
  destruct (ring_ends _ _ _ Hrb) as (fb & lb & Hfb & _ & Hnfb & _).
  destruct (merge_loop_fail a b (D ++ c :: C) c C D [] m psa fuel fb nullptr)
    as (m' & p & Hrun & Hpa & Hprev & Hgone & _ & Hnew & Hrb' & Hs' & Hd');
    try done.
  { rewrite <- app_assoc in Hfb. simpl in Hfb.
    destruct D; simpl in *; done. }
  exists m', p. split_and!; try done.
  - unfold merge. rewrite decide_False by done. unfold begin.
    by rewrite (bind_Ok _ _ _ _ _ (get_next_Ok _ _ _ Hnfb)).
  - by apply Hnew.
  - unfold back, end_. rewrite (bind_Ok _ _ _ _ _ (get_prev_Ok _ _ _ Hprev)).
    unfold get_data, dataf, node_at. by rewrite Hgone.
  - split_and!; try done. by rewrite Hs'.
Qed.

End MergeFailure.

(** ** The general form of copy-merge, swap and copy self-assignment *)

Section General.
Context {T : Type} `{Element T}.
Implicit Types (m : Mem T) (p q : loc) (ps : list loc).

(** X25. Copy-merge between any two distinct well-formed containers, when
    no allocation or construction fails: one fresh node per source element
    is linked after the destination's own, so the destination iterates as
    its old sequence followed by the source's; the source is unchanged;
    and the destination's [sz_] is the one it had, whatever was added. *)
Theorem merge_copy_appends_without_counting m a b psa psb fuel :
  is_list m a psa -> is_list m b psb ->
  (forall q, q ∈ a :: psa -> q ∉ b :: psb) ->
  alloc_left m = None ->
  (forall q, q ∈ psb -> copy_throws (key m q) = false) ->
  (length psa + length psb < fuel)%nat ->
  exists m' news,
    merge fuel a b m = Ok tt m' /\
    ring m' a (psa ++ news) /\ length news = length psb /\
    (forall q, q ∈ news -> heap m !! q = None) /\
    to_list fuel m' a = Some (map (key m) psa ++ map (key m) psb) /\
    is_list m' b psb /\ to_list fuel m' b = Some (map (key m) psb) /\
    size a m' = Some (Z.of_nat (length psa)).
Proof.
  intros Ha Hb Hdisj Hal Hct Hfuel.
  assert (a <> b) as Hab by (intros ->; apply (Hdisj b); left).
  destruct Ha as (Hra & Hnulla & Hsa & Hba).
  destruct Hb as (Hrb & Hnullb & Hsb & Hbb).
  destruct (ring_ends _ _ _ Hrb) as (fb & lb & Hfb & _ & Hnfb & _).
  destruct (merge_loop_spec a b psb psb [] m psa fuel fb nullptr)
    as (m' & news & Hloop & Hra' & Hrb' & Hvals & Hdata & Hnews & Hs & _);
    try done.
  { lia. }
  assert (length news = length psb) as Hlen.
  { apply (f_equal (@length T)) in Hvals. by rewrite !length_map in Hvals. }
  assert (forall q, q ∈ a :: psa ++ b :: psb -> key m' q = key m q) as Hk.
  { intros q Hq. unfold key. by rewrite Hdata. }
  exists m', news. split_and!; try done.
  - unfold merge. rewrite decide_False by done. unfold begin.
    by rewrite (bind_Ok _ _ _ _ _ (get_next_Ok _ _ _ Hnfb)).
  - intros q Hq. by destruct (Hnews q Hq).
  - rewrite (to_list_ring m' a (psa ++ news) fuel);
      [|done|rewrite length_app; lia].
    rewrite map_app, Hvals. do 2 f_equal.
    apply map_ext_in. intros q Hq%list_elem_of_In. apply Hk. set_solver.
  - split_and!; try done. by rewrite Hs.
  - rewrite (to_list_ring m' b psb fuel); [|done|lia].
    f_equal. apply map_ext_in. intros q Hq%list_elem_of_In. apply Hk. set_solver.
  - unfold size. by rewrite Hs.
Qed.

(** X26. swap between any two distinct well-formed containers exchanges
    the sentinels' links and the sizes and nothing else: no payload
    changes, each container reports the other's size, and forward
    iteration of each runs through the other's old nodes, then the other's
    sentinel, then its own old nodes before it comes back to its own
    [end()]. *)
Theorem swap_crosses_the_rings m a b psa psb fuel :
  is_list m a psa -> is_list m b psb ->
  (forall q, q ∈ a :: psa -> q ∉ b :: psb) ->
  (length psa + length psb + 1 < fuel)%nat ->
  exists m',
    swap a b m = Ok tt m' /\
    nodes_of fuel m' a = Some (psb ++ b :: psa) /\
    nodes_of fuel m' b = Some (psa ++ a :: psb) /\
    (forall q, dataf m' q = dataf m q) /\
    size a m' = size b m /\ size b m' = size a m.
Proof. apply swap_spec. Qed.

(** X27. Copy assignment has no self check either: assigning a
    well-formed container to itself runs [clear()] and then finds nothing
    to copy, so every element is destroyed and the container is left
    empty, whatever it held. *)
Theorem copy_self_assign_loses_everything m this ps fuel :
  is_list m this ps -> (length ps < fuel)%nat ->
  exists m',
    copy_assign fuel this this m = Ok tt m' /\
    is_list m' this [] /\
    (forall q, q ∈ ps -> heap m' !! q = None) /\
    to_list fuel m' this = Some [] /\ size this m' = Some 0.
Proof.
  intros Hlist Hfuel.
  destruct (copy_self_assign_clears m this ps fuel Hlist Hfuel)
    as (m' & Hrun & Hl' & Hfreed).
  exists m'. split_and!; try done.
  - rewrite (to_list_ring m' this [] fuel); [done|by destruct Hl'|simpl; lia].
  - by destruct Hl' as (_ & _ & ? & _).
Qed.

(** X28. The default constructor, at any address and over any memory,
    makes an empty well-formed container: the sentinel is linked to
    itself, [sz_] is 0, [empty()] answers true, [begin()] is [end()], and
    no other cell is touched. *)
Theorem List_ctor_makes_empty m this :
  exists m',
    List_ctor this m = Ok tt m' /\ is_list m' this [] /\
    empty this m' = Ok true m' /\ begin this m' = Ok (end_ this) m' /\
    size this m' = Some 0 /\
    (forall fuel, to_list (S fuel) m' this = Some []) /\
    (forall q, q <> this -> heap m' !! q = heap m !! q) /\
    alloc_left m' = alloc_left m.
Proof.
  destruct (List_ctor_spec m this) as (m' & Hctor & Hl').
  assert (heap m' = <[this := Obj (mkNode from_zero this this)]> (heap m) /\
          szs m' = <[this := 0]> (szs m) /\ alloc_left m' = alloc_left m)
    as (Hh & Hs & Hal) by (by injection Hctor as <-).
  pose proof Hl' as ([_ [[Hn _] _]] & _ & Hsz & _).
  exists m'. split_and!; try done.
  - unfold empty. by rewrite (bind_Ok _ _ _ _ _ (get_sz_Ok _ _ _ Hsz)).
  - unfold begin. by apply get_next_Ok.
  - intros fuel. rewrite (to_list_ring m' this [] (S fuel));
      [done|by destruct Hl'|simpl; lia].
  - intros q Hq. rewrite Hh. by rewrite lookup_insert_ne.
Qed.

End General.

(** ** The general forms on concrete containers *)

Lemma move_assign_takes_over_witness :
  is_list mem_12_34 100%N [101; 102]%N /\
  is_list mem_12_34 200%N [201; 202]%N /\
  exists m',
    move_assign 10 100%N 200%N mem_12_34 = Ok tt m' /\
    is_list m' 100%N [201; 202]%N /\ is_list m' 200%N [] /\
    to_list 10 m' 100%N = Some (map (key mem_12_34) [201; 202]%N) /\
    to_list 10 m' 200%N = Some [] /\
    size 100%N m' = size 200%N mem_12_34 /\ size 200%N m' = Some 0.
Proof.
  split; [exact mem_12_34_is_list_a|]. split; [exact mem_12_34_is_list_b|].
  apply (move_assign_takes_over mem_12_34 100%N 200%N [101; 102]%N [201; 202]%N 10
           mem_12_34_is_list_a mem_12_34_is_list_b mem_12_34_disjoint);
    [done|simpl; lia|simpl; lia].
Defined.

Lemma move_ctor_takes_over_witness :
  is_list mem_123 100%N [101; 102; 103]%N /\
  exists m',
    move_ctor 10 200%N 100%N mem_123 = Ok tt m' /\
    is_list m' 200%N [101; 102; 103]%N /\ is_list m' 100%N [] /\
    to_list 10 m' 200%N = Some (map (key mem_123) [101; 102; 103]%N) /\
    to_list 10 m' 100%N = Some [] /\
    size 200%N m' = size 100%N mem_123 /\ size 100%N m' = Some 0.
Proof.
  split; [exact mem_123_is_list|].
  apply (move_ctor_takes_over mem_123 200%N 100%N [101; 102; 103]%N 10
           mem_123_is_list); [|done|simpl; lia].
  rewrite !not_elem_of_cons. split_and!; try done. apply not_elem_of_nil.
Defined.

Lemma swap_twice_restores_witness :
  is_list mem_12_34 100%N [101; 102]%N /\
  is_list mem_12_34 200%N [201; 202]%N /\
  exists m',
    swap 100%N 200%N mem_12_34 = Ok tt m' /\
    swap 100%N 200%N m' = Ok tt mem_12_34 /\
    swap 200%N 100%N m' = Ok tt mem_12_34.
Proof.
  split; [exact mem_12_34_is_list_a|]. split; [exact mem_12_34_is_list_b|].
  exact (swap_twice_restores mem_12_34 100%N 200%N [101; 102]%N [201; 202]%N
           mem_12_34_is_list_a mem_12_34_is_list_b).
Defined.

Lemma mem_12_3m45_is_list_a : is_list mem_12_3m45 100%N [101; 102]%N.
Proof. apply is_listb_sound. vm_compute. reflexivity. Defined.

Lemma mem_12_3m45_is_list_b :
  is_list mem_12_3m45 200%N ([201] ++ 202 :: [203])%N.
Proof. apply is_listb_sound. vm_compute. reflexivity. Defined.

Lemma mem_12_3m45_disjoint :
  forall q : loc,
    q ∈ [100; 101; 102]%N -> q ∉ (200 :: [201] ++ 202 :: [203])%N.
Proof.
  intros q Hq Hq'. change (q ∈ [200; 201; 202; 203]%N) in Hq'.
  rewrite !elem_of_cons, elem_of_nil in Hq.
  rewrite !elem_of_cons, elem_of_nil in Hq'.
  destruct Hq as [->|[->|[->|[]]]]; destruct Hq' as [?|[?|[?|[?|[]]]]]; done.
Defined.

Lemma merge_copy_failure_frees_linked_node_witness :
  is_list mem_12_3m45 100%N [101; 102]%N /\
  is_list mem_12_3m45 200%N ([201] ++ 202 :: [203])%N /\
  @copy_throws Z Fragile_Element (@key Z Fragile_Element mem_12_3m45 201%N) = false /\
  @copy_throws Z Fragile_Element (@key Z Fragile_Element mem_12_3m45 202%N) = true /\
  exists m' p,
    @merge Z Fragile_Element 10 100%N 200%N mem_12_3m45 = Throw m' /\
    heap mem_12_3m45 !! p = None /\ p <> 100%N /\
    prevf m' 100%N = Some p /\ heap m' !! p = None /\
    back 100%N m' = UB /\
    is_list m' 200%N ([201] ++ 202 :: [203])%N /\
    (forall q, q ∈ (200 :: [201] ++ 202 :: [203])%N ->
               dataf m' q = dataf mem_12_3m45 q).
Proof.
  split; [exact mem_12_3m45_is_list_a|]. split; [exact mem_12_3m45_is_list_b|].
  split; [by vm_compute|]. split; [by vm_compute|].
  apply (@merge_copy_failure_frees_linked_node Z Fragile_Element
           mem_12_3m45 100%N 200%N [101; 102]%N [201%N] 202%N [203%N] 10
           mem_12_3m45_is_list_a mem_12_3m45_is_list_b mem_12_3m45_disjoint);
    [reflexivity|done| |by vm_compute|simpl; lia].
  intros q ->%list_elem_of_singleton. by vm_compute.
Defined.

Lemma sort_is_idempotent_witness :
  is_list mem_312 100%N [101; 102; 103]%N /\
  exists m',
    sort 10 100%N true mem_312 = Ok tt m' /\ sort 10 100%N true m' = Ok tt m'.
Proof.
  split; [exact mem_312_is_list|].
  apply (sort_is_idempotent mem_312 100%N [101; 102; 103]%N true 10
           mem_312_is_list).
  simpl. lia.
Defined.

Lemma merge_copy_appends_without_counting_witness :
  is_list mem_12_34 100%N [101; 102]%N /\
  is_list mem_12_34 200%N [201; 202]%N /\
  exists m' news,
    merge 10 100%N 200%N mem_12_34 = Ok tt m' /\
    ring m' 100%N ([101; 102]%N ++ news) /\
    length news = length [201; 202]%N /\
    (forall q, q ∈ news -> heap mem_12_34 !! q = None) /\
    to_list 10 m' 100%N =
      Some (map (key mem_12_34) [101; 102]%N ++ map (key mem_12_34) [201; 202]%N) /\
    is_list m' 200%N [201; 202]%N /\
    to_list 10 m' 200%N = Some (map (key mem_12_34) [201; 202]%N) /\
    size 100%N m' = Some (Z.of_nat (length [101; 102]%N)).
Proof.
  split; [exact mem_12_34_is_list_a|]. split; [exact mem_12_34_is_list_b|].
  apply (merge_copy_appends_without_counting
           mem_12_34 100%N 200%N [101; 102]%N [201; 202]%N 10
           mem_12_34_is_list_a mem_12_34_is_list_b mem_12_34_disjoint);
    [reflexivity|intros; reflexivity|simpl; lia].
Defined.

Lemma swap_crosses_the_rings_witness :
  is_list mem_12_34 100%N [101; 102]%N /\
  is_list mem_12_34 200%N [201; 202]%N /\
  exists m',
    swap 100%N 200%N mem_12_34 = Ok tt m' /\
    nodes_of 10 m' 100%N = Some ([201; 202] ++ 200 :: [101; 102])%N /\
    nodes_of 10 m' 200%N = Some ([101; 102] ++ 100 :: [201; 202])%N /\
    (forall q, dataf m' q = dataf mem_12_34 q) /\
    size 100%N m' = size 200%N mem_12_34 /\
    size 200%N m' = size 100%N mem_12_34.
Proof.
  split; [exact mem_12_34_is_list_a|]. split; [exact mem_12_34_is_list_b|].
  apply (swap_crosses_the_rings mem_12_34 100%N 200%N [101; 102]%N [201; 202]%N 10
           mem_12_34_is_list_a mem_12_34_is_list_b mem_12_34_disjoint).
  simpl. lia.
Defined.

Lemma copy_self_assign_loses_everything_witness :
  is_list mem_123 100%N [101; 102; 103]%N /\
  exists m',
    copy_assign 10 100%N 100%N mem_123 = Ok tt m' /\
    is_list m' 100%N [] /\
    (forall q, q ∈ [101; 102; 103]%N -> heap m' !! q = None) /\
    to_list 10 m' 100%N = Some [] /\ size 100%N m' = Some 0.
Proof.
  split; [exact mem_123_is_list|].
  apply (copy_self_assign_loses_everything mem_123 100%N [101; 102; 103]%N 10
           mem_123_is_list).
  simpl. lia.
Defined.
